(** * Skimap: longest and steepest descent through a grid of elevations

    A shallow embedding of the two ski-route programs of the repository,
    [find_longest_route.js] and its later revision (the second source file),
    together with the properties of the distance solver, the path
    enumerator and the steepness selector.

    Modelling conventions.
    - A JavaScript number that holds an integer is a [Z]; [undefined] in a
      numeric field is [None], and arithmetic on it gives NaN, again [None],
      on which every comparison is false.  Comparisons of doubles are
      exact, and so are the sums [maxDistance + 1].  The one subtraction of
      elevations, in [addSteepness], is exact on doubles as long as the
      difference stays within 2^53 in absolute value; beyond that the
      double is rounded and the [Z] is not.  The properties that speak of
      the value of a steepness on arbitrary inputs assume [safeElevation]
      of the elevations involved, which keeps every difference in the
      exact range.
    - The boxes of the data map are shared objects: the sorted work list,
      the data map and the paths all refer to the same objects.  An object
      is created once per grid position and its [x], [y] are never written,
      so an object's identity is its position, and writing a field of a box
      is an update of the data map at that position.  This is the program
      on a data map that is [wellPlaced], as [createDataMap] builds it and
      [processBox] keeps it; the properties of [processBox] on a data map
      given from outside assume it, and that the box is an object of the
      map.
    - A thrown exception is [Throw]; recursion that JavaScript performs
      without a bound is given fuel, and [OutOfFuel] is kept apart from the
      exceptions. *)

From stdpp Require Import base numbers option sorting list.

Local Open Scope Z_scope.

(** ** Outcomes: a small error monad *)

Inductive jsError : Type := TypeError.

Inductive outcome (A : Type) : Type :=
  | Ok (a : A)
  | Throw (e : jsError)
  | OutOfFuel.
Arguments Ok {A} a.
Arguments Throw {A} e.
Arguments OutOfFuel {A}.

#[global] Instance outcome_ret : MRet outcome := fun A a => Ok a.
#[global] Instance outcome_bind : MBind outcome := fun A B f m =>
  match m with
  | Ok a => f a
  | Throw e => Throw e
  | OutOfFuel => OutOfFuel
  end.
#[global] Instance outcome_fmap : FMap outcome := fun A B f m =>
  match m with
  | Ok a => Ok (f a)
  | Throw e => Throw e
  | OutOfFuel => OutOfFuel
  end.

(** [Array.prototype.forEach] with a callback that updates a state and may
    throw. *)
Fixpoint forEachM {A S : Type} (f : S -> A -> outcome S) (l : list A) (s : S)
  : outcome S :=
  match l with
  | [] => Ok s
  | a :: l' => s' ← f s a; forEachM f l' s'
  end.

(** ** Numbers as JavaScript compares them *)

(** [a > b] and [a >= b] on numbers that may be NaN ([None]). *)
Definition js_gt (a b : option Z) : bool :=
  match a, b with
  | Some u, Some v => bool_decide (v < u)
  | _, _ => false
  end.

Definition js_ge (a b : option Z) : bool :=
  match a, b with
  | Some u, Some v => bool_decide (v <= u)
  | _, _ => false
  end.

Arguments js_gt : simpl never.
Arguments js_ge : simpl never.

(** A number that is an integer or [-Infinity] (what [_.max] starts from). *)
Inductive jsnum : Type :=
  | NegInfinity
  | Num (z : Z).

#[global] Instance jsnum_eq_dec : EqDecision jsnum.
Proof. solve_decision. Defined.

Definition num_gt (a b : jsnum) : bool :=
  match a, b with
  | Num u, Num v => bool_decide (v < u)
  | Num _, NegInfinity => true
  | NegInfinity, _ => false
  end.

(** ** Data model *)

(** A direction is the two-element array [[dx, dy]]. *)
Definition direction : Type := Z * Z.

Record box : Type := Box {
  x : Z;
  y : Z;
  elevation : Z;
  maxDistance : option Z;
  goodDirections : option (list direction)
}.

#[global] Instance box_eq_dec : EqDecision box.
Proof. solve_decision. Defined.

Abbreviation dataMap := (list (list box)).

(** [arr[i]] for a JavaScript array and a number that may be negative or
    past the end: both give [undefined]. *)
Definition at_index {A : Type} (l : list A) (i : Z) : option A :=
  if decide (0 <= i) then l !! Z.to_nat i else None.

(** [arr.map(function (a, i) { ... })], the index counted from [i0]. *)
Fixpoint mapi {A B : Type} (f : A -> Z -> B) (l : list A) (i0 : Z) : list B :=
  match l with
  | [] => []
  | a :: l' => f a i0 :: mapi f l' (i0 + 1)
  end.

Definition createDataMap (mountainMap : list (list Z)) : dataMap :=
  mapi (fun row cy =>
          mapi (fun elev cx => Box cx cy elev None None) row 0)
       mountainMap 0.

(** Basic 2d-array lookup, which also handles out-of-bounds. *)
Definition getBoxAt (array2d : dataMap) (cx cy : Z) : option box :=
  row ← at_index array2d cy; at_index row cx.

Definition getNeighbourInDirection (dm : dataMap) (b : box) (d : direction)
  : option box :=
  getBoxAt dm (x b + d.1) (y b + d.2).

(** The object at a position replaced by its new state. *)
Definition setBoxAt (array2d : dataMap) (cx cy : Z) (b : box) : dataMap :=
  if decide (0 <= cx /\ 0 <= cy)
  then alter (fun row => <[Z.to_nat cx := b]> row) (Z.to_nat cy) array2d
  else array2d.

(** The current state of the object [b] refers to. *)
Definition deref (dm : dataMap) (b : box) : option box :=
  getBoxAt dm (x b) (y b).

(** [b.field = v]: the object is updated where it lives, at the position
    its [x] and [y] name.  The boxes the programs write to are objects of
    a well-placed data map; for a box that is no object of the map there is
    nothing to update in the map. *)
Definition mutate (dm : dataMap) (b : box) (f : box -> box) : dataMap :=
  match deref dm b with
  | Some cur => setBoxAt dm (x b) (y b) (f cur)
  | None => dm
  end.

(** The two field assignments of [processBox]. *)
Definition set_maxDistance (v : option Z) (b : box) : box :=
  Box (x b) (y b) (elevation b) v (goodDirections b).

Definition set_goodDirections (v : option (list direction)) (b : box) : box :=
  Box (x b) (y b) (elevation b) (maxDistance b) v.

(** ** Distance solver *)

(** The constant of [processBox]: west, south, east, north, with [y]
    growing downwards. *)
Definition DIRECTIONS : list direction := [(-1, 0); (0, 1); (1, 0); (0, -1)].

(** The body of the loop over [DIRECTIONS] in [processBox]. *)
Definition visitDirection (b : box) (dm : dataMap) (d : direction)
  : outcome dataMap :=
  match getNeighbourInDirection dm b d with
  | Some neighbour =>
      if bool_decide (elevation neighbour < elevation b) then
        let distanceViaNeighbour := (fun k => k + 1) <$> maxDistance neighbour in
        let dm1 :=
          if js_gt distanceViaNeighbour (deref dm b ≫= maxDistance)
          then mutate (mutate dm b (set_goodDirections (Some [])))
                      b (set_maxDistance distanceViaNeighbour)
          else dm in
        if js_ge distanceViaNeighbour (deref dm1 b ≫= maxDistance) then
          match deref dm1 b ≫= goodDirections with
          | Some l => Ok (mutate dm1 b (set_goodDirections (Some (l ++ [d]))))
          | None => Throw TypeError
          end
        else Ok dm1
      else Ok dm
  | None => Ok dm
  end.

(** [processBox]: the distance is reset to 0, [goodDirections] is left
    as it is, and the four directions are visited in turn. *)
Definition processBox (b : box) (dm : dataMap) : outcome dataMap :=
  forEachM (visitDirection b) DIRECTIONS (mutate dm b (set_maxDistance (Some 0))).

(** [_.flatten(dataMap)]: the rows are arrays of objects, so the deep flatten
    is one level of concatenation. *)
Definition flatten (dm : dataMap) : list box := concat dm.

(** [Array.prototype.sort] with a comparator, as a stable insertion sort:
    an element goes in front of the first one it does not exceed. *)
Fixpoint insertBy {A : Type} (cmp : A -> A -> Z) (a : A) (l : list A) : list A :=
  match l with
  | [] => [a]
  | b :: l' => if decide (cmp a b <= 0) then a :: b :: l' else b :: insertBy cmp a l'
  end.

Fixpoint sortBy {A : Type} (cmp : A -> A -> Z) (l : list A) : list A :=
  match l with
  | [] => []
  | a :: l' => insertBy cmp a (sortBy cmp l')
  end.

(** The comparator passed to [sort]. *)
Definition byElevation (a b : box) : Z := elevation a - elevation b.

(** The loop of [processMap] over the sorted boxes, from the bottom of the
    mountain upwards. *)
Definition solveInOrder (order : list box) (dm : dataMap) : outcome dataMap :=
  forEachM (fun s b => processBox b s) order dm.

(** [processMap] up to and including the loop over [boxesFromLowToHigh]. *)
Definition solve (mountainMap : list (list Z)) : outcome dataMap :=
  let dm := createDataMap mountainMap in
  let boxesFromLowToHigh := sortBy byElevation (flatten dm) in
  solveInOrder boxesFromLowToHigh dm.

(** The body of the inner loop of [findBestStartPoints], on the two
    local variables. *)
Definition bestStep (acc : Z * list box) (b : box) : Z * list box :=
  let '(bestDistance, bestStartPoints) := acc in
  let bestStartPoints1 :=
    if js_gt (maxDistance b) (Some bestDistance) then [] else bestStartPoints in
  if js_ge (maxDistance b) (Some bestDistance)
  then (default bestDistance (maxDistance b), bestStartPoints1 ++ [b])
  else (bestDistance, bestStartPoints1).

(** The two nested loops, from [bestDistance = -1] and no start point. *)
Definition bestScan (dm : dataMap) : Z * list box :=
  foldl (fun acc row => foldl bestStep acc row) (-1, []) dm.

Definition findBestStartPoints (dm : dataMap) : list box := (bestScan dm).2.

(** [_.max] of an array of numbers: [-Infinity] for the empty array; an
    [undefined] entry never compares greater. *)
Definition js_max (values : list (option Z)) : jsnum :=
  foldl (fun result value =>
           match value with
           | Some v => if num_gt (Num v) result then Num v else result
           | None => result
           end)
        NegInfinity values.

(** [value === greatestSteepness] for a possibly absent property. *)
Definition strictEq (value : option Z) (n : jsnum) : bool :=
  match value with
  | Some v => bool_decide (Num v = n)
  | None => false
  end.

(** ** The revised program (second source file) *)

Module Revised.

(** A path is an array of boxes; [addSteepness] later hangs a
    [steepness] property on the array. *)
Record path : Type := Path {
  cells : list box;
  steepness : option Z
}.

(** Collect all the paths below one box.  The argument is [undefined]
    when a direction leads off the map. *)
Fixpoint getGoodPathsFromBox (fuel : nat) (dm : dataMap) (b : option box)
  : outcome (list path) :=
  match fuel with
  | O => OutOfFuel
  | S fuel' =>
      match b with
      | None => Throw TypeError
      | Some this =>
          match goodDirections this with
          | Some gds =>
              routesForEachDirection ←
                mapM (fun d =>
                        let neighbourBox := getNeighbourInDirection dm this d in
                        pathsFromNeighbour ← getGoodPathsFromBox fuel' dm neighbourBox;
                        mret ((fun onePathFromNeighbour =>
                                 Path (this :: cells onePathFromNeighbour) None)
                                <$> pathsFromNeighbour))
                     gds;
              mret (concat routesForEachDirection)
          | None => Ok [Path [this] None]
          end
      end
  end.

Definition getGoodPathsFromStartPoints (fuel : nat) (dm : dataMap)
    (startPoints : list box) : outcome (list path) :=
  forEachM (fun allPaths startPoint =>
              paths ← getGoodPathsFromBox fuel dm (Some startPoint);
              mret (allPaths ++ paths))
           startPoints [].

(** [startBox.elevation - endBox.elevation]: the difference of two
    integers, which a double holds exactly while it is within 2^53. *)
Definition addSteepness (p : path) : outcome path :=
  match head (cells p), last (cells p) with
  | Some startBox, Some endBox =>
      Ok (Path (cells p) (Some (elevation startBox - elevation endBox)))
  | _, _ => Throw TypeError
  end.

Definition selectPathsWithGreatestSteepness (potentialPaths : list path)
  : outcome (list path) :=
  withSteepness ← mapM addSteepness potentialPaths;
  let greatestSteepness := js_max (steepness <$> withSteepness) in
  mret (filter (fun p => strictEq (steepness p) greatestSteepness) withSteepness).

(** [_.pluck(path, 'elevation')]; joining with dashes is left to the
    reader of the log. *)
Definition simplifyPath (p : path) : list Z := elevation <$> cells p.

(** [processMap] up to its result, the steepest paths; the console lines
    print [report] of each of them. *)
Definition processMap (fuel : nat) (mountainMap : list (list Z))
  : outcome (list path) :=
  dm ← solve mountainMap;
  let bestStartPoints := findBestStartPoints dm in
  potentialPaths ← getGoodPathsFromStartPoints fuel dm bestStartPoints;
  selectPathsWithGreatestSteepness potentialPaths.

Definition report (p : path) : list Z * nat * option Z :=
  (simplifyPath p, length (cells p), steepness p).

End Revised.

(** ** The original program, [find_longest_route.js] *)

Module Original.

(** What the enumerator puts in its result list: at a box without good
    directions the box itself (or [undefined]), not an array; elsewhere
    an array, whose entries are boxes or [undefined]. *)
Inductive item : Type :=
  | Bare (b : option box)
  | Arr (entries : list (option box)) (steepness : option Z).

(** What [_.flatten([box, item])] appends after [box]. *)
Definition entriesOf (it : item) : list (option box) :=
  match it with
  | Bare b => [b]
  | Arr entries _ => entries
  end.

Definition steepnessOf (it : item) : option Z :=
  match it with
  | Bare _ => None
  | Arr _ s => s
  end.

Fixpoint getGoodPathsFromBox (fuel : nat) (dm : dataMap) (b : option box)
  : outcome (list item) :=
  match fuel with
  | O => OutOfFuel
  | S fuel' =>
      match b with
      | Some this =>
          match goodDirections this with
          | Some (d0 :: ds) =>
              forEachM (fun allGoodPathsFromThisBox d =>
                          let neighbourBox := getNeighbourInDirection dm this d in
                          pathsFromNeighbour ← getGoodPathsFromBox fuel' dm neighbourBox;
                          mret (allGoodPathsFromThisBox ++
                                ((fun onePathFromNeighbour =>
                                    Arr (Some this :: entriesOf onePathFromNeighbour) None)
                                   <$> pathsFromNeighbour)))
                       (d0 :: ds) []
          | _ => Ok [Bare b]
          end
      | None => Ok [Bare b]
      end
  end.

Definition getGoodPathsFromStartPoints (fuel : nat) (dm : dataMap)
    (startPoints : list box) : outcome (list item) :=
  forEachM (fun allPaths startPoint =>
              paths ← getGoodPathsFromBox fuel dm (Some startPoint);
              mret (allPaths ++ paths))
           startPoints [].

(** On a bare box [path[0]] is [undefined], and reading its [elevation]
    throws.  The difference of the elevations is exact while it is within
    2^53, as in the revised program. *)
Definition addSteepness (it : item) : outcome item :=
  match it with
  | Bare _ => Throw TypeError
  | Arr entries _ =>
      match mjoin (head entries), mjoin (last entries) with
      | Some startBox, Some endBox =>
          Ok (Arr entries (Some (elevation startBox - elevation endBox)))
      | _, _ => Throw TypeError
      end
  end.

Definition selectPathsWithGreatestSteepness (potentialPaths : list item)
  : outcome (list item) :=
  withSteepness ← mapM addSteepness potentialPaths;
  let greatestSteepness := js_max (steepnessOf <$> withSteepness) in
  mret (filter (fun p => strictEq (steepnessOf p) greatestSteepness) withSteepness).

(** [processMap] up to its result; the last statement reads [length] of
    [steepestPaths[0]] and throws when there is none. *)
Definition processMap (fuel : nat) (mountainMap : list (list Z))
  : outcome (list item) :=
  dm ← solve mountainMap;
  let bestStartPoints := findBestStartPoints dm in
  potentialPaths ← getGoodPathsFromStartPoints fuel dm bestStartPoints;
  steepestPaths ← selectPathsWithGreatestSteepness potentialPaths;
  match head steepestPaths with
  | Some steepestPath => Ok steepestPaths
  | None => Throw TypeError
  end.

End Original.

(** * Vocabulary of the properties *)

(** ** One call of [processBox], without the store *)

(** The distance a direction offers: one more than the distance of a
    downhill neighbour.  A missing or uphill neighbour offers nothing, and
    so does a downhill neighbour that has no distance yet (the sum is NaN
    and both comparisons fail). *)
Definition candidate (dm : dataMap) (b : box) (d : direction) : option Z :=
  match getNeighbourInDirection dm b d with
  | Some neighbour =>
      if bool_decide (elevation neighbour < elevation b)
      then (fun k => k + 1) <$> maxDistance neighbour
      else None
  | None => None
  end.

(** The loop body on the two mutable fields alone. *)
Definition scanStep (dm : dataMap) (b : box)
    (acc : option Z * option (list direction)) (d : direction)
  : outcome (option Z * option (list direction)) :=
  match candidate dm b d with
  | Some v =>
      let acc1 := if js_gt (Some v) acc.1 then (Some v, Some []) else acc in
      if js_ge (Some v) acc1.1 then
        match acc1.2 with
        | Some l => Ok (acc1.1, Some (l ++ [d]))
        | None => Throw TypeError
        end
      else Ok acc1
  | None => Ok acc
  end.

(** The box [c] with its two mutable fields replaced. *)
Definition withFields (c : box) (acc : option Z * option (list direction)) : box :=
  Box (x c) (y c) (elevation c) acc.1 acc.2.

(** The loop over the directions [ds] on the two mutable fields. *)
Definition scan (dm : dataMap) (b : box) (ds : list direction)
    (acc : option Z * option (list direction))
  : outcome (option Z * option (list direction)) :=
  forEachM (scanStep dm b) ds acc.

(** The best distance the directions [ds] offer to [b], 0 when they offer
    none. *)
Definition bestOf (dm : dataMap) (b : box) (ds : list direction) : Z :=
  foldl (fun m d => match candidate dm b d with
                    | Some v => Z.max m v
                    | None => m
                    end) 0 ds.

(** The directions that offer the best distance, in the order of [ds]. *)
Definition goodOf (dm : dataMap) (b : box) (ds : list direction) : list direction :=
  filter (fun d => candidate dm b d = Some (bestOf dm b ds)) ds.

(** The fields [processBox] leaves in a box: the best distance, and the
    directions offering it unless no direction offers any. *)
Definition settledFields (dm : dataMap) (b : box) (ds : list direction)
  : option Z * option (list direction) :=
  (Some (bestOf dm b ds),
   if decide (bestOf dm b ds = 0) then None else Some (goodOf dm b ds)).

(** ** The state of the data map while it is solved *)

(** The final state of a box, as its neighbours in [dm] determine it. *)
Definition settle (dm : dataMap) (c : box) : box :=
  withFields c (settledFields dm c DIRECTIONS).

(** Every object sits at the position its [x] and [y] name. *)
Definition wellPlaced (dm : dataMap) : Prop :=
  forall cx cy c, getBoxAt dm cx cy = Some c -> x c = cx /\ y c = cy.

(** A box is either untouched, or settled with all its downhill neighbours
    processed before it. *)
Definition boxState (dm : dataMap) (c : box) : Prop :=
  match maxDistance c with
  | None => goodDirections c = None
  | Some _ =>
      c = settle dm c /\
      forall d n, d ∈ DIRECTIONS -> getNeighbourInDirection dm c d = Some n ->
                  elevation n < elevation c -> is_Some (maxDistance n)
  end.

(** The invariant of the loop over the sorted boxes. *)
Definition partlySolved (dm : dataMap) : Prop :=
  wellPlaced dm /\ forall cx cy c, getBoxAt dm cx cy = Some c -> boxState dm c.

(** The elevation the input grid gives at a position, if any. *)
Definition elevationAt (mountainMap : list (list Z)) (cx cy : Z) : option Z :=
  row ← at_index mountainMap cy; at_index row cx.

(** The order the comparator [byElevation] sorts by. *)
Definition lowerOrLevel (a b : box) : Prop := elevation a <= elevation b.

(** [dm] is the data map of [mountainMap] after the distance solver: the
    grid's cells at their positions, each in its settled state. *)
Definition solvedFor (mountainMap : list (list Z)) (dm : dataMap) : Prop :=
  (forall cx cy, elevation <$> getBoxAt dm cx cy = elevationAt mountainMap cx cy) /\
  wellPlaced dm /\
  (forall cx cy c, getBoxAt dm cx cy = Some c -> c = settle dm c).

(** ** Routes and paths *)

(** A position [(x, y)] of the grid. *)
Definition position : Type := Z * Z.

(** Four-directional adjacency: one step along one axis. *)
Definition adjacent (p q : position) : bool :=
  bool_decide (Z.abs (p.1 - q.1) + Z.abs (p.2 - q.2) = 1).

(** Both positions are on the grid and the second is strictly lower. *)
Definition lowerAt (mountainMap : list (list Z)) (p q : position) : bool :=
  match elevationAt mountainMap p.1 p.2, elevationAt mountainMap q.1 q.2 with
  | Some e, Some e' => bool_decide (e' < e)
  | _, _ => false
  end.

(** [descending m p rest]: the route [p :: rest] stays on the grid, moves
    between adjacent positions and strictly downhill.  It has
    [length rest] edges. *)
Fixpoint descending (mountainMap : list (list Z)) (p : position)
    (rest : list position) : bool :=
  match rest with
  | [] => bool_decide (is_Some (elevationAt mountainMap p.1 p.2))
  | q :: rest' =>
      adjacent p q && lowerAt mountainMap p q && descending mountainMap q rest'
  end.

(** The distance a cell gets from the directions it stores: one more than
    the greatest distance among the neighbours they lead to, and 0 when it
    stores none. *)
Definition distanceViaGoodDirections (dm : dataMap) (c : box) : option Z :=
  match goodDirections c with
  | Some (d :: ds) =>
      distances ← mapM (fun d' => getNeighbourInDirection dm c d' ≫= maxDistance) (d :: ds);
      match distances with
      | v :: vs => Some (1 + foldl Z.max v vs)
      | [] => None
      end
  | _ => Some 0
  end.

(** [k] is the greatest distance stored in the data map. *)
Definition gridMaximum (dm : dataMap) (k : Z) : Prop :=
  (exists c, c ∈ flatten dm /\ maxDistance c = Some k) /\
  (forall c k', c ∈ flatten dm -> maxDistance c = Some k' -> k' <= k).

(** The cells of a path are objects of the data map, each next one an
    adjacent and strictly lower cell. *)
Fixpoint skiable (dm : dataMap) (cs : list box) : bool :=
  match cs with
  | [] => true
  | a :: rest =>
      bool_decide (getBoxAt dm (x a) (y a) = Some a) &&
      match rest with
      | [] => true
      | b :: _ => adjacent (x a, y a) (x b, y b) &&
                  bool_decide (elevation b < elevation a)
      end &&
      skiable dm rest
  end.

(** A path as the enumerator builds it from the box [c]: it starts at
    [c], has as many edges as the distance of [c], descends through the
    data map, and carries no steepness yet. *)
Definition goodPathFrom (dm : dataMap) (c : box) (p : Revised.path) : Prop :=
  exists rest, Revised.cells p = c :: rest /\
               Z.of_nat (length rest) = bestOf dm c DIRECTIONS /\
               skiable dm (Revised.cells p) = true /\
               Revised.steepness p = None.

(** The drop of a path: elevation of its first cell minus that of its
    last. *)
Definition descentOf (cs : list box) : Z :=
  match head cs, last cs with
  | Some startBox, Some endBox => elevation startBox - elevation endBox
  | _, _ => 0
  end.

(** ** Sample inputs *)

(** The grid of scenario B, rows from top to bottom. *)
Definition grid2x2 : list (list Z) := [[4; 3]; [2; 1]].

(** Two paths of two cells, of steepness 3 and 6. *)
Definition twoDescents : list Revised.path :=
  [Revised.Path [Box 0 0 5 (Some 1) (Some [(1, 0)]); Box 1 0 2 (Some 0) None] None;
   Revised.Path [Box 0 1 9 (Some 1) (Some [(1, 0)]); Box 1 1 3 (Some 0) None] None].

(** ** The results of the two programs side by side *)

(** What the original program holds where the revised one holds the path
    [p]: the bare box for a path of one cell, else the array. *)
Definition toItem (p : Revised.path) : Original.item :=
  match Revised.cells p with
  | [b] => Original.Bare (Some b)
  | cs => Original.Arr (Some <$> cs) (Revised.steepness p)
  end.

(** The array of the original program with the cells of [p]. *)
Definition toArr (p : Revised.path) : Original.item :=
  Original.Arr (Some <$> Revised.cells p) (Revised.steepness p).

(** ** Vocabulary of the further properties *)

(** No box of the data map carries a negative distance. *)
Definition nonNegative (dm : dataMap) : Prop :=
  forall cx cy c k, getBoxAt dm cx cy = Some c -> maxDistance c = Some k -> 0 <= k.

(** The position a box names. *)
Definition positionOf (b : box) : position := (x b, y b).

(** The direction back. *)
Definition opposite (d : direction) : direction := (- d.1, - d.2).

(** The fields [processBox] leaves when the box already stores the
    directions [g0]: they stay when no direction offers a distance. *)
Definition fieldsFrom (dm : dataMap) (b : box) (g0 : option (list direction))
  : option Z * option (list direction) :=
  (Some (bestOf dm b DIRECTIONS),
   if decide (bestOf dm b DIRECTIONS = 0) then g0
   else Some (goodOf dm b DIRECTIONS)).

(** The drop of a route of the grid: elevation at its first position minus
    elevation at its last. *)
Definition routeDrop (mountainMap : list (list Z)) (p : position)
    (rest : list position) : Z :=
  match elevationAt mountainMap p.1 p.2,
        last (p :: rest) ≫= (fun q => elevationAt mountainMap q.1 q.2) with
  | Some e, Some e' => e - e'
  | _, _ => 0
  end.

(** An integer a double holds without rounding, as every integer up to
    2^53 in absolute value is. *)
Definition exactInteger (v : Z) : Prop := - 2 ^ 53 <= v <= 2 ^ 53.

(** An elevation within 2^52 of zero: the difference of two of them is an
    [exactInteger], so the subtraction of [addSteepness] does not round. *)
Definition safeElevation (e : Z) : Prop := - 2 ^ 52 <= e <= 2 ^ 52.

(** Every elevation of the grid is safe. *)
Definition safeGrid (mountainMap : list (list Z)) : Prop :=
  Forall (Forall safeElevation) mountainMap.


(** * Properties *)

Example solve_2x2 :
  solve [[4; 3]; [2; 1]] =
  Ok [[Box 0 0 4 (Some 2) (Some [(0, 1); (1, 0)]); Box 1 0 3 (Some 1) (Some [(0, 1)])];
      [Box 0 1 2 (Some 1) (Some [(1, 0)]); Box 1 1 1 (Some 0) None]].
Proof. vm_compute. reflexivity. Qed.

(** ** The monad and the loops *)

Lemma forEachM_app {A S : Type} (f : S -> A -> outcome S) (l1 l2 : list A) (s : S) :
  forEachM f (l1 ++ l2) s = s' ← forEachM f l1 s; forEachM f l2 s'.
Proof.
  revert s. induction l1 as [|a l1 IH]; intros s; simpl; [done|].
  destruct (f s a) as [s'| |]; simpl; [apply IH|done|done].
Qed.

(** ** The store *)

Lemma at_index_Some {A : Type} (l : list A) (i : Z) (a : A) :
  at_index l i = Some a <-> (0 <= i) /\ l !! Z.to_nat i = Some a.
Proof. unfold at_index. destruct (decide (0 <= i)); split; intros H; try done; tauto. Qed.

Lemma getBoxAt_Some (dm : dataMap) (cx cy : Z) (c : box) :
  getBoxAt dm cx cy = Some c <->
  0 <= cx /\ 0 <= cy /\
  exists row, dm !! Z.to_nat cy = Some row /\ row !! Z.to_nat cx = Some c.
Proof.
  unfold getBoxAt. split.
  - intros H. apply bind_Some in H as (row & Hrow & Hc).
    apply at_index_Some in Hrow as [? ?]. apply at_index_Some in Hc as [? ?].
    eauto 10.
  - intros (? & ? & row & Hrow & Hc). apply bind_Some. exists row.
    split; apply at_index_Some; done.
Qed.

Lemma getBoxAt_setBoxAt_eq (dm : dataMap) (cx cy : Z) (b : box) :
  is_Some (getBoxAt dm cx cy) ->
  getBoxAt (setBoxAt dm cx cy b) cx cy = Some b.
Proof.
  intros [c Hc]. apply getBoxAt_Some in Hc as (? & ? & row & Hrow & Hc).
  apply getBoxAt_Some. do 2 (split; [done|]).
  exists (<[Z.to_nat cx := b]> row). unfold setBoxAt. rewrite decide_True by done.
  split.
  - by rewrite list_lookup_alter_eq, Hrow.
  - apply list_lookup_insert_eq. by eapply lookup_lt_Some.
Qed.

Lemma getBoxAt_setBoxAt_ne (dm : dataMap) (cx cy cx' cy' : Z) (b : box) :
  (cx, cy) <> (cx', cy') ->
  getBoxAt (setBoxAt dm cx cy b) cx' cy' = getBoxAt dm cx' cy'.
Proof.
  intros Hne. unfold setBoxAt. case_decide as Hpos; [|done].
  unfold getBoxAt, at_index.
  destruct (decide (0 <= cy')) as [Hy|]; [|done].
  destruct (decide (Z.to_nat cy = Z.to_nat cy')) as [Heq|Hney].
  - rewrite <- Heq, list_lookup_alter_eq.
    destruct (dm !! Z.to_nat cy) as [row|]; simpl; [|done].
    destruct (decide (0 <= cx')) as [Hx|]; [|done].
    rewrite list_lookup_insert_ne; [done|].
    intros Hx'. apply Hne. f_equal; lia.
  - by rewrite list_lookup_alter_ne.
Qed.

Lemma setBoxAt_setBoxAt (dm : dataMap) (cx cy : Z) (b b' : box) :
  setBoxAt (setBoxAt dm cx cy b) cx cy b' = setBoxAt dm cx cy b'.
Proof.
  unfold setBoxAt. case_decide; [|done].
  rewrite list_alter_alter_eq. apply list_alter_ext; [|done].
  intros row _. simpl. apply list_insert_insert_eq.
Qed.

Lemma mutate_setBoxAt (dm : dataMap) (b c : box) (f : box -> box) :
  is_Some (deref dm b) ->
  mutate (setBoxAt dm (x b) (y b) c) b f = setBoxAt dm (x b) (y b) (f c).
Proof.
  intros Hb. unfold mutate, deref.
  rewrite getBoxAt_setBoxAt_eq by done. apply setBoxAt_setBoxAt.
Qed.

Lemma deref_setBoxAt (dm : dataMap) (b c : box) :
  is_Some (deref dm b) -> deref (setBoxAt dm (x b) (y b) c) b = Some c.
Proof. apply getBoxAt_setBoxAt_eq. Qed.

(** ** What one call of [processBox] computes *)

Lemma neighbour_setBoxAt (dm : dataMap) (b c : box) (d : direction) :
  d ∈ DIRECTIONS ->
  getNeighbourInDirection (setBoxAt dm (x b) (y b) c) b d =
  getNeighbourInDirection dm b d.
Proof.
  intros Hd. unfold getNeighbourInDirection. apply getBoxAt_setBoxAt_ne.
  unfold DIRECTIONS in Hd. rewrite !elem_of_cons, elem_of_nil in Hd.
  intros [=]. destruct Hd as [->|[->|[->|[->|[]]]]]; simpl in *; lia.
Qed.

Lemma visitDirection_scanStep (dm : dataMap) (b c : box) (d : direction) :
  is_Some (deref dm b) -> d ∈ DIRECTIONS ->
  visitDirection b (setBoxAt dm (x b) (y b) c) d =
  (fun acc => setBoxAt dm (x b) (y b) (withFields c acc))
    <$> scanStep dm b (maxDistance c, goodDirections c) d.
Proof.
  intros Hb Hd. unfold visitDirection, scanStep, candidate.
  rewrite neighbour_setBoxAt by done.
  assert (Hid : c = withFields c (maxDistance c, goodDirections c)) by by destruct c.
  destruct (getNeighbourInDirection dm b d) as [n|]; simpl; [|by rewrite <- Hid].
  case_bool_decide; simpl; [|by rewrite <- Hid].
  destruct (maxDistance n) as [k|]; simpl; [|by rewrite <- Hid].
  rewrite deref_setBoxAt by done. simpl.
  destruct (js_gt (Some (k + 1)) (maxDistance c)) eqn:Hgt; simpl.
  - rewrite !mutate_setBoxAt by done. rewrite deref_setBoxAt by done. simpl.
    unfold js_ge. rewrite bool_decide_true by lia. simpl.
    by rewrite mutate_setBoxAt by done.
  - rewrite deref_setBoxAt by done. simpl.
    destruct (js_ge (Some (k + 1)) (maxDistance c)); simpl; [|by rewrite <- Hid].
    destruct (goodDirections c); simpl; [|done].
    by rewrite mutate_setBoxAt by done.
Qed.

Lemma forEachM_visitDirection (dm : dataMap) (b c : box) (ds : list direction) :
  is_Some (deref dm b) -> Forall (fun d => d ∈ DIRECTIONS) ds ->
  forEachM (visitDirection b) ds (setBoxAt dm (x b) (y b) c) =
  (fun acc => setBoxAt dm (x b) (y b) (withFields c acc))
    <$> scan dm b ds (maxDistance c, goodDirections c).
Proof.
  intros Hb Hds. unfold scan. revert c.
  induction Hds as [|d ds Hd Hds IH]; intros c; simpl.
  - by destruct c.
  - rewrite visitDirection_scanStep by done.
    destruct (scanStep dm b (maxDistance c, goodDirections c) d) as [[m g]| |];
      simpl; [|done|done].
    rewrite IH. simpl. unfold withFields. simpl. done.
Qed.

Lemma processBox_scan (dm : dataMap) (b cur : box) :
  deref dm b = Some cur ->
  processBox b dm =
  (fun acc => setBoxAt dm (x b) (y b) (withFields cur acc))
    <$> scan dm b DIRECTIONS (Some 0, goodDirections cur).
Proof.
  intros Hb. unfold processBox, mutate. rewrite Hb.
  rewrite forEachM_visitDirection; [done|eauto|].
  by apply Forall_forall.
Qed.

Lemma filter_none {A : Type} (P : A -> Prop) `{forall a, Decision (P a)} (l : list A) :
  (forall a, a ∈ l -> ~ P a) -> filter P l = [].
Proof.
  induction l as [|a l IH]; intros Hl; [done|].
  rewrite filter_cons_False by (apply Hl; by left).
  apply IH. intros a' Ha'. apply Hl. by right.
Qed.

Lemma filter_ext_in {A : Type} (P Q : A -> Prop)
    `{forall a, Decision (P a)} `{forall a, Decision (Q a)} (l : list A) :
  (forall a, a ∈ l -> P a <-> Q a) -> filter P l = filter Q l.
Proof.
  induction l as [|a l IH]; intros Hl; [done|].
  rewrite !filter_cons.
  rewrite IH by (intros a' Ha'; apply Hl; by right).
  destruct (decide (P a)) as [HP|HP], (decide (Q a)) as [HQ|HQ]; try done;
    exfalso; apply (Hl a) in HP || apply (Hl a) in HQ; try done; by left.
Qed.

Section Scan.
Variables (dm : dataMap) (b : box).

Lemma bestOf_snoc (ds : list direction) (d : direction) :
  bestOf dm b (ds ++ [d]) =
  match candidate dm b d with
  | Some v => Z.max (bestOf dm b ds) v
  | None => bestOf dm b ds
  end.
Proof. unfold bestOf. by rewrite foldl_snoc. Qed.

Lemma bestOf_nonneg (ds : list direction) : 0 <= bestOf dm b ds.
Proof.
  induction ds as [|d ds IH] using rev_ind; [done|].
  rewrite bestOf_snoc. destruct (candidate dm b d); lia.
Qed.

Lemma bestOf_upper (ds : list direction) (d : direction) (v : Z) :
  d ∈ ds -> candidate dm b d = Some v -> v <= bestOf dm b ds.
Proof.
  induction ds as [|d' ds IH] using rev_ind; [by rewrite elem_of_nil|].
  rewrite elem_of_app, list_elem_of_singleton, bestOf_snoc.
  intros [Hin| ->] Hv.
  - specialize (IH Hin Hv). destruct (candidate dm b d'); lia.
  - rewrite Hv. lia.
Qed.

Lemma bestOf_attained (ds : list direction) :
  bestOf dm b ds = 0 \/
  exists d, d ∈ ds /\ candidate dm b d = Some (bestOf dm b ds).
Proof.
  induction ds as [|d ds IH] using rev_ind; [by left|].
  rewrite bestOf_snoc. destruct (candidate dm b d) as [v|] eqn:Hv.
  - destruct (decide (bestOf dm b ds < v)).
    + right. exists d. rewrite elem_of_app, list_elem_of_singleton.
      split; [by right|]. rewrite Hv. f_equal. lia.
    + rewrite Z.max_l by lia. destruct IH as [?|(d' & ? & ?)]; [by left|].
      right. exists d'. rewrite elem_of_app. eauto.
  - destruct IH as [?|(d' & ? & ?)]; [by left|].
    right. exists d'. rewrite elem_of_app. eauto.
Qed.

Lemma filter_above_best (ds : list direction) (v : Z) :
  bestOf dm b ds < v ->
  filter (fun d => candidate dm b d = Some v) ds = [].
Proof.
  intros Hlt. apply filter_none. intros d Hd Hv.
  pose proof (bestOf_upper ds d v Hd Hv). lia.
Qed.

(** With every offered distance at least 1, which holds when the
    distances stored in the data map are not negative, the loop never
    pushes onto a missing array and ends in [settledFields]. *)
Lemma scan_settled (ds : list direction) :
  (forall d v, d ∈ ds -> candidate dm b d = Some v -> 1 <= v) ->
  scan dm b ds (Some 0, None) = Ok (settledFields dm b ds).
Proof.
  unfold scan, settledFields.
  induction ds as [|d ds IH] using rev_ind; intros Hpos; [done|].
  rewrite forEachM_app, IH; clear IH.
  2:{ intros d' v Hd'. apply Hpos. rewrite elem_of_app. by left. }
  simpl. unfold scanStep, goodOf. rewrite bestOf_snoc, filter_app.
  rewrite (filter_singleton _ d []).
  pose proof (bestOf_nonneg ds) as Hnn.
  destruct (candidate dm b d) as [v|] eqn:Hv; simpl.
  2:{ destruct (decide (None = Some (bestOf dm b ds))); [done|].
      by rewrite app_nil_r. }
  assert (1 <= v) as Hv1.
  { apply (Hpos d); [|done]. rewrite elem_of_app, list_elem_of_singleton. by right. }
  unfold js_gt, js_ge.
  destruct (decide (bestOf dm b ds < v)) as [Hlt|Hge].
  - rewrite bool_decide_true by done. simpl.
    rewrite bool_decide_true by lia. simpl.
    rewrite Z.max_r by lia. rewrite filter_above_best by done.
    destruct (decide (v = 0)); [lia|].
    by destruct (decide (Some v = Some v)).
  - rewrite bool_decide_false by done. simpl.
    rewrite Z.max_l by lia.
    destruct (decide (v = bestOf dm b ds)) as [->|Hne].
    + rewrite bool_decide_true by lia.
      destruct (decide (bestOf dm b ds = 0)); [lia|]. simpl.
      by destruct (decide (Some (bestOf dm b ds) = Some (bestOf dm b ds))).
    + rewrite bool_decide_false by lia.
      destruct (decide (Some v = Some (bestOf dm b ds))); [congruence|].
      by rewrite app_nil_r.
Qed.
End Scan.

Lemma bestOf_ext (dm dm' : dataMap) (b b' : box) (ds : list direction) :
  (forall d, d ∈ ds -> candidate dm b d = candidate dm' b' d) ->
  bestOf dm b ds = bestOf dm' b' ds.
Proof.
  induction ds as [|d ds IH] using rev_ind; intros Heq; [done|].
  rewrite !bestOf_snoc, IH, Heq; [done| |].
  - rewrite elem_of_app, list_elem_of_singleton. by right.
  - intros d' Hd'. apply Heq. rewrite elem_of_app. by left.
Qed.

Lemma goodOf_ext (dm dm' : dataMap) (b b' : box) (ds : list direction) :
  (forall d, d ∈ ds -> candidate dm b d = candidate dm' b' d) ->
  goodOf dm b ds = goodOf dm' b' ds.
Proof.
  intros Heq. unfold goodOf. rewrite (bestOf_ext dm dm' b b' ds Heq).
  apply filter_ext_in. intros d Hd. by rewrite Heq.
Qed.

Lemma settledFields_ext (dm dm' : dataMap) (b b' : box) (ds : list direction) :
  (forall d, d ∈ ds -> candidate dm b d = candidate dm' b' d) ->
  settledFields dm b ds = settledFields dm' b' ds.
Proof.
  intros Heq. unfold settledFields.
  by rewrite (bestOf_ext dm dm' b b' ds Heq), (goodOf_ext dm dm' b b' ds Heq).
Qed.

(** ** The invariant of the distance solver *)

Lemma settle_maxDistance (dm : dataMap) (c : box) :
  maxDistance (settle dm c) = Some (bestOf dm c DIRECTIONS).
Proof. done. Qed.

Lemma candidate_ground (dm : dataMap) (b c : box) (d : direction) :
  x b = x c -> y b = y c -> elevation b = elevation c ->
  candidate dm b d = candidate dm c d.
Proof.
  intros Hx Hy He. unfold candidate, getNeighbourInDirection.
  by rewrite Hx, Hy, He.
Qed.

Lemma partlySolved_candidate_pos (dm : dataMap) (b : box) (d : direction) (v : Z) :
  partlySolved dm -> candidate dm b d = Some v -> 1 <= v.
Proof.
  intros [_ Hst]. unfold candidate, getNeighbourInDirection.
  destruct (getBoxAt dm (x b + d.1) (y b + d.2)) as [n|] eqn:Hn; [|done].
  case_bool_decide; [|done].
  specialize (Hst _ _ _ Hn). unfold boxState in Hst.
  destruct (maxDistance n) as [k|] eqn:Hk; [|done]. simpl. intros [= <-].
  destruct Hst as [Hset _]. rewrite Hset, settle_maxDistance in Hk.
  injection Hk as <-. pose proof (bestOf_nonneg dm n DIRECTIONS). lia.
Qed.

Lemma direction_moves (d : direction) : d ∈ DIRECTIONS -> d <> (0, 0).
Proof.
  unfold DIRECTIONS. rewrite !elem_of_cons, elem_of_nil.
  intros [->|[->|[->|[->|[]]]]]; done.
Qed.

(** Replacing an untouched box leaves what any settled box sees of its
    downhill neighbours as it was. *)
Lemma candidate_after_settling (dm : dataMap) (cur new c : box) (d : direction) :
  wellPlaced dm ->
  getBoxAt dm (x cur) (y cur) = Some cur ->
  maxDistance cur = None -> elevation new = elevation cur ->
  (forall n, getNeighbourInDirection dm c d = Some n ->
             elevation n < elevation c -> is_Some (maxDistance n)) ->
  candidate (setBoxAt dm (x cur) (y cur) new) c d = candidate dm c d.
Proof.
  intros Hwp Hcur Hnone Hel Hlow. unfold candidate, getNeighbourInDirection in *.
  destruct (decide ((x cur, y cur) = (x c + d.1, y c + d.2))) as [Heq|Hne].
  - injection Heq as Hx Hy. rewrite <- Hx, <- Hy in *.
    rewrite getBoxAt_setBoxAt_eq by eauto. rewrite Hcur. rewrite Hel.
    case_bool_decide as Hlt; [|done].
    destruct (Hlow cur Hcur Hlt) as [k Hk]. congruence.
  - by rewrite getBoxAt_setBoxAt_ne.
Qed.

Lemma processBox_step (dm : dataMap) (b cur : box) :
  partlySolved dm ->
  deref dm b = Some cur -> elevation cur = elevation b ->
  maxDistance cur = None ->
  (forall cx cy n, getBoxAt dm cx cy = Some n -> elevation n < elevation b ->
                   is_Some (maxDistance n)) ->
  processBox b dm = Ok (setBoxAt dm (x b) (y b) (settle dm cur)) /\
  partlySolved (setBoxAt dm (x b) (y b) (settle dm cur)).
Proof.
  intros Hps Hb Hel Hnone Hlower.
  pose proof Hps as [Hwp Hst].
  destruct (Hwp _ _ _ Hb) as [Hx Hy].
  assert (Hgd : goodDirections cur = None).
  { specialize (Hst _ _ _ Hb). unfold boxState in Hst. by rewrite Hnone in Hst. }
  assert (Hfields : settledFields dm b DIRECTIONS = settledFields dm cur DIRECTIONS).
  { apply settledFields_ext. intros d _. by apply candidate_ground. }
  split.
  - rewrite (processBox_scan dm b cur Hb), Hgd.
    rewrite scan_settled by (intros d v _; by apply partlySolved_candidate_pos).
    simpl. unfold settle. by rewrite Hfields.
  - rewrite <- Hx, <- Hy. unfold deref in Hb. rewrite <- Hx, <- Hy in Hb.
    rewrite <- Hel in Hlower. clear Hfields Hx Hy Hel b.
    set (new := settle dm cur).
    assert (Hnew : settledFields (setBoxAt dm (x cur) (y cur) new) new DIRECTIONS
                   = settledFields dm cur DIRECTIONS).
    { apply settledFields_ext. intros d Hd.
      rewrite (candidate_ground _ new cur) by done.
      apply candidate_after_settling; try done.
      intros n Hn Hlt. by eapply Hlower. }
    split.
    + intros cx cy c Hc.
      destruct (decide ((x cur, y cur) = (cx, cy))) as [[= <- <-]|Hne].
      * rewrite getBoxAt_setBoxAt_eq in Hc by eauto. by injection Hc as <-.
      * rewrite getBoxAt_setBoxAt_ne in Hc by done. by eapply Hwp.
    + intros cx cy c Hc.
      destruct (decide ((x cur, y cur) = (cx, cy))) as [[= <- <-]|Hne].
      * rewrite getBoxAt_setBoxAt_eq in Hc by eauto. injection Hc as <-.
        unfold boxState.
        change (maxDistance new) with (Some (bestOf dm cur DIRECTIONS)).
        cbv iota. split.
        -- unfold settle. by rewrite Hnew.
        -- intros d n Hd Hn Hlt.
           change (x new) with (x cur) in Hn. change (y new) with (y cur) in Hn.
           unfold getNeighbourInDirection in Hn.
           rewrite getBoxAt_setBoxAt_ne in Hn.
           ++ by eapply Hlower.
           ++ apply direction_moves in Hd. destruct d as [d1 d2]. simpl.
              intros [=]. apply Hd. f_equal; lia.
      * rewrite getBoxAt_setBoxAt_ne in Hc by done.
        pose proof (Hst _ _ _ Hc) as Hc'. unfold boxState in *.
        destruct (maxDistance c) as [k|]; [|done].
        destruct Hc' as [Hset Hlow]. split.
        -- rewrite Hset at 1. unfold settle. f_equal.
           apply settledFields_ext. intros d Hd. symmetry.
           apply candidate_after_settling; try done. intros n. by apply (Hlow d).
        -- intros d n Hd Hn. unfold getNeighbourInDirection in Hn.
           destruct (decide ((x cur, y cur) = (x c + d.1, y c + d.2))) as [Heq|Hne'].
           ++ injection Heq as Hx Hy. rewrite <- Hx, <- Hy in Hn.
              rewrite getBoxAt_setBoxAt_eq in Hn by eauto. injection Hn as <-.
              intros _. by eexists.
           ++ rewrite getBoxAt_setBoxAt_ne in Hn by done. by apply (Hlow d).
Qed.

(** ** The data map of a grid *)

Lemma lookup_mapi {A B : Type} (f : A -> Z -> B) (l : list A) (i0 : Z) (n : nat) :
  mapi f l i0 !! n = (fun a => f a (i0 + Z.of_nat n)) <$> l !! n.
Proof.
  revert i0 n. induction l as [|a l IH]; intros i0 [|n]; simpl; try done.
  - by rewrite Z.add_0_r.
  - rewrite IH. destruct (l !! n); simpl; [|done]. do 2 f_equal. lia.
Qed.

Lemma at_index_mapi {A B : Type} (f : A -> Z -> B) (l : list A) (i : Z) :
  at_index (mapi f l 0) i = (fun a => f a i) <$> at_index l i.
Proof.
  unfold at_index. case_decide; [|done].
  rewrite lookup_mapi. destruct (l !! Z.to_nat i); simpl; [|done].
  do 2 f_equal. lia.
Qed.

Lemma getBoxAt_createDataMap (mountainMap : list (list Z)) (cx cy : Z) :
  getBoxAt (createDataMap mountainMap) cx cy =
  (fun elev => Box cx cy elev None None) <$> elevationAt mountainMap cx cy.
Proof.
  unfold getBoxAt, createDataMap, elevationAt. rewrite at_index_mapi.
  destruct (at_index mountainMap cy) as [row|]; simpl; [|done].
  apply at_index_mapi.
Qed.

Lemma elem_of_concat {A : Type} (ls : list (list A)) (a : A) :
  a ∈ concat ls <-> exists l, l ∈ ls /\ a ∈ l.
Proof.
  induction ls as [|l ls IH]; simpl.
  - rewrite elem_of_nil. split; [done|]. intros (l & Hl & _). by apply elem_of_nil in Hl.
  - rewrite elem_of_app, IH. split.
    + intros [Ha|(l' & Hl' & Ha)]; [exists l|exists l']; split; try done;
        [by left|by right].
    + intros (l' & Hl' & Ha). apply elem_of_cons in Hl' as [->|Hl']; [by left|].
      right. eauto.
Qed.

(** The boxes of a data map are the objects found at its positions. *)
Lemma elem_of_flatten (dm : dataMap) (b : box) :
  b ∈ flatten dm <-> exists cx cy, getBoxAt dm cx cy = Some b.
Proof.
  unfold flatten. rewrite elem_of_concat. split.
  - intros (row & Hrow & Hb).
    apply list_elem_of_lookup in Hrow as [j Hj]. apply list_elem_of_lookup in Hb as [i Hi].
    exists (Z.of_nat i), (Z.of_nat j). apply getBoxAt_Some.
    rewrite !Nat2Z.id. repeat split; try lia. eauto.
  - intros (cx & cy & Hb). apply getBoxAt_Some in Hb as (_ & _ & row & Hrow & Hb).
    exists row. split; by eapply list_elem_of_lookup_2.
Qed.

Lemma elem_of_mapi {A B : Type} (f : A -> Z -> B) (l : list A) (i0 : Z) (b : B) :
  b ∈ mapi f l i0 -> exists a i, a ∈ l /\ i0 <= i /\ b = f a i.
Proof.
  revert i0. induction l as [|a l IH]; intros i0; simpl.
  - by rewrite elem_of_nil.
  - rewrite elem_of_cons. intros [->|Hb].
    + exists a, i0. split; [by left|]. split; [lia|done].
    + destruct (IH _ Hb) as (a' & i & Ha' & Hi & ->).
      exists a', i. split; [by right|]. split; [lia|done].
Qed.

Lemma NoDup_createRow (row : list Z) (cy i0 : Z) :
  NoDup (mapi (fun elev cx => Box cx cy elev None None) row i0).
Proof.
  revert i0. induction row as [|e row IH]; intros i0; simpl; constructor.
  - intros Hin. apply elem_of_mapi in Hin as (e' & i & _ & Hi & [=]). lia.
  - apply IH.
Qed.

Lemma NoDup_createRows (rows : list (list Z)) (j0 : Z) :
  NoDup (concat (mapi (fun row cy =>
                         mapi (fun elev cx => Box cx cy elev None None) row 0)
                      rows j0)).
Proof.
  revert j0. induction rows as [|row rows IH]; intros j0; simpl; [constructor|].
  apply NoDup_app. split; [apply NoDup_createRow|]. split; [|apply IH].
  intros b Hb Hb'.
  apply elem_of_mapi in Hb as (e & i & _ & _ & ->).
  apply elem_of_concat in Hb' as (l & Hl & Hb').
  apply elem_of_mapi in Hl as (row' & j & _ & Hj & ->).
  apply elem_of_mapi in Hb' as (e' & i' & _ & _ & [=]). lia.
Qed.

Lemma NoDup_flatten_createDataMap (mountainMap : list (list Z)) :
  NoDup (flatten (createDataMap mountainMap)).
Proof. apply NoDup_createRows. Qed.

(** ** Sorting *)

Lemma insertBy_Permutation {A : Type} (cmp : A -> A -> Z) (a : A) (l : list A) :
  insertBy cmp a l ≡ₚ a :: l.
Proof.
  induction l as [|b l IH]; simpl; [done|].
  case_decide; [done|]. rewrite IH. apply Permutation_swap.
Qed.

Lemma sortBy_Permutation {A : Type} (cmp : A -> A -> Z) (l : list A) :
  sortBy cmp l ≡ₚ l.
Proof.
  induction l as [|a l IH]; simpl; [done|].
  by rewrite insertBy_Permutation, IH.
Qed.

Lemma insertBy_sorted (a : box) (l : list box) :
  StronglySorted lowerOrLevel l ->
  StronglySorted lowerOrLevel (insertBy byElevation a l).
Proof.
  induction 1 as [|b l Hl IH Hb]; simpl.
  - repeat constructor.
  - unfold byElevation at 1. case_decide as Hcmp.
    + constructor; [by constructor|]. constructor; [unfold lowerOrLevel; lia|].
      eapply Forall_impl; [exact Hb|]. unfold lowerOrLevel. intros; lia.
    + constructor; [done|]. rewrite insertBy_Permutation.
      constructor; [unfold lowerOrLevel; lia|done].
Qed.

Lemma sortBy_sorted (l : list box) :
  StronglySorted lowerOrLevel (sortBy byElevation l).
Proof.
  induction l as [|a l IH]; simpl; [constructor|]. by apply insertBy_sorted.
Qed.

(** ** The solved data map *)

Lemma solveInOrder_partial (mountainMap : list (list Z)) (post : list box) :
  forall dm,
    partlySolved dm ->
    (forall cx cy, elevation <$> getBoxAt dm cx cy = elevationAt mountainMap cx cy) ->
    NoDup post -> StronglySorted lowerOrLevel post ->
    (forall b, b ∈ post -> elevationAt mountainMap (x b) (y b) = Some (elevation b)) ->
    (forall b b', b ∈ post -> b' ∈ post -> x b = x b' -> y b = y b' -> b = b') ->
    (forall cx cy c, getBoxAt dm cx cy = Some c ->
       maxDistance c = None <-> exists b, b ∈ post /\ x b = cx /\ y b = cy) ->
    exists dm', solveInOrder post dm = Ok dm' /\ solvedFor mountainMap dm'.
Proof.
  induction post as [|b post IH]; intros dm Hps Hel Hnd Hsort Hpost Hinj Htodo.
  - exists dm. split; [done|]. destruct Hps as [Hwp Hst].
    split; [done|]. split; [done|]. intros cx cy c Hc.
    specialize (Hst _ _ _ Hc). unfold boxState in Hst.
    destruct (maxDistance c) eqn:Hmd; [tauto|].
    apply (Htodo _ _ _ Hc) in Hmd as (b & Hb & _). by apply elem_of_nil in Hb.
  - apply NoDup_cons in Hnd as [Hnotin Hnd].
    apply StronglySorted_inv in Hsort as [Hsort Hmin].
    assert (exists cur, deref dm b = Some cur /\ elevation cur = elevation b)
      as (cur & Hcur & Hcurel).
    { pose proof (Hel (x b) (y b)) as Hb. rewrite Hpost in Hb by by left.
      unfold deref. destruct (getBoxAt dm (x b) (y b)) as [cur|]; [|done].
      injection Hb as Hb. eauto. }
    pose proof Hps as [Hwp _].
    destruct (Hwp _ _ _ Hcur) as [Hcx Hcy].
    assert (maxDistance cur = None) as Hnone.
    { apply (Htodo _ _ _ Hcur). exists b. split; [by left|done]. }
    destruct (processBox_step dm b cur) as [Hrun Hps']; try done.
    { intros cx cy n Hn Hlt. destruct (maxDistance n) eqn:Hmd; [by eexists|].
      apply (Htodo _ _ _ Hn) in Hmd as (b' & Hb' & <- & <-).
      assert (elevation b' = elevation n) as Hsame.
      { pose proof (Hel (x b') (y b')) as He. rewrite Hn, Hpost in He by done.
        by injection He. }
      apply elem_of_cons in Hb' as [->|Hb']; [lia|].
      rewrite Forall_forall in Hmin. specialize (Hmin _ Hb').
      unfold lowerOrLevel in Hmin. lia. }
    destruct (IH (setBoxAt dm (x b) (y b) (settle dm cur))) as (dm' & Hrest & Hsolved);
      try done.
    + intros cx cy. destruct (decide ((x b, y b) = (cx, cy))) as [[= <- <-]|Hne].
      * rewrite getBoxAt_setBoxAt_eq by (unfold deref in Hcur; eauto).
        rewrite <- Hel. unfold deref in Hcur. by rewrite Hcur.
      * by rewrite getBoxAt_setBoxAt_ne.
    + intros b' Hb'. apply Hpost. by right.
    + intros b1 b2 H1 H2. apply Hinj; by right.
    + intros cx cy c Hc.
      destruct (decide ((x b, y b) = (cx, cy))) as [[= <- <-]|Hne].
      * rewrite getBoxAt_setBoxAt_eq in Hc by (unfold deref in Hcur; eauto).
        injection Hc as <-. split; [done|].
        intros (b' & Hb' & Hx & Hy). exfalso. apply Hnotin.
        by rewrite <- (Hinj b' b) by (done || by left || by right).
      * rewrite getBoxAt_setBoxAt_ne in Hc by done.
        rewrite (Htodo _ _ _ Hc). split.
        -- intros (b' & Hb' & Hx & Hy). exists b'. split; [|done].
           apply elem_of_cons in Hb' as [->|Hb']; [|done]. exfalso. apply Hne. congruence.
        -- intros (b' & Hb' & Hx & Hy). exists b'. split; [by right|done].
    + exists dm'. split; [|done]. unfold solveInOrder in *. simpl.
      by rewrite Hrun.
Qed.

Lemma createDataMap_cell (mountainMap : list (list Z)) (cx cy : Z) (c : box) :
  getBoxAt (createDataMap mountainMap) cx cy = Some c ->
  exists elev, elevationAt mountainMap cx cy = Some elev /\ c = Box cx cy elev None None.
Proof.
  rewrite getBoxAt_createDataMap.
  destruct (elevationAt mountainMap cx cy) as [elev|]; simpl; [|done].
  intros [= <-]. eauto.
Qed.

(** Processing the boxes in any order that is ascending in elevation
    solves the grid; ties may come in any order. *)
Lemma solveInOrder_solved (mountainMap : list (list Z)) (order : list box) :
  order ≡ₚ flatten (createDataMap mountainMap) ->
  StronglySorted lowerOrLevel order ->
  exists dm, solveInOrder order (createDataMap mountainMap) = Ok dm /\
             solvedFor mountainMap dm.
Proof.
  intros Hperm Hsort.
  assert (Hcell : forall b, b ∈ order ->
            exists elev, elevationAt mountainMap (x b) (y b) = Some elev /\
                         b = Box (x b) (y b) elev None None).
  { intros b Hb. rewrite Hperm in Hb. apply elem_of_flatten in Hb as (cx & cy & Hb).
    apply createDataMap_cell in Hb as (elev & He & ->). eauto. }
  apply solveInOrder_partial; try done.
  - split.
    + intros cx cy c Hc. by apply createDataMap_cell in Hc as (elev & _ & ->).
    + intros cx cy c Hc. by apply createDataMap_cell in Hc as (elev & _ & ->).
  - intros cx cy. rewrite getBoxAt_createDataMap.
    by destruct (elevationAt mountainMap cx cy).
  - rewrite Hperm. apply NoDup_flatten_createDataMap.
  - intros b Hb. destruct (Hcell b Hb) as (elev & He & ->). done.
  - intros b b' Hb Hb' Hx Hy.
    destruct (Hcell b Hb) as (elev & He & ->), (Hcell b' Hb') as (elev' & He' & ->).
    simpl in *. subst. congruence.
  - intros cx cy c Hc. pose proof Hc as Hc'.
    apply createDataMap_cell in Hc' as (elev & _ & ->). split; [|done].
    intros _. exists (Box cx cy elev None None). split; [|done].
    rewrite Hperm. apply elem_of_flatten. eauto.
Qed.

Lemma solve_solved (mountainMap : list (list Z)) :
  exists dm, solve mountainMap = Ok dm /\ solvedFor mountainMap dm.
Proof.
  apply solveInOrder_solved; [apply sortBy_Permutation|apply sortBy_sorted].
Qed.

(** ** What a solved data map says about each cell *)

Lemma candidate_inv (dm : dataMap) (c : box) (d : direction) (v : Z) :
  candidate dm c d = Some v ->
  exists n k, getNeighbourInDirection dm c d = Some n /\
              elevation n < elevation c /\
              maxDistance n = Some k /\ v = k + 1.
Proof.
  unfold candidate. destruct (getNeighbourInDirection dm c d) as [n|]; [|done].
  case_bool_decide; [|done]. destruct (maxDistance n) as [k|] eqn:Hk; [|done].
  simpl. intros [= <-]. by exists n, k.
Qed.

Lemma candidate_intro (dm : dataMap) (c n : box) (d : direction) (k : Z) :
  getNeighbourInDirection dm c d = Some n -> elevation n < elevation c ->
  maxDistance n = Some k -> candidate dm c d = Some (k + 1).
Proof.
  intros Hn Hlt Hk. unfold candidate. rewrite Hn, bool_decide_true by done.
  by rewrite Hk.
Qed.

Section Solved.
Variables (mountainMap : list (list Z)) (dm : dataMap).
Hypothesis Hsolved : solvedFor mountainMap dm.

Lemma solved_cell (cx cy : Z) (c : box) :
  getBoxAt dm cx cy = Some c ->
  x c = cx /\ y c = cy /\
  elevationAt mountainMap cx cy = Some (elevation c) /\
  maxDistance c = Some (bestOf dm c DIRECTIONS) /\
  goodDirections c =
    (if decide (bestOf dm c DIRECTIONS = 0) then None
     else Some (goodOf dm c DIRECTIONS)).
Proof.
  intros Hc. destruct Hsolved as (Hel & Hwp & Hset).
  destruct (Hwp _ _ _ Hc) as [-> ->].
  split; [done|]. split; [done|]. split.
  { by rewrite <- Hel, Hc. }
  specialize (Hset _ _ _ Hc). split; by rewrite Hset at 1.
Qed.

Lemma solved_deref (cx cy : Z) (c : box) :
  getBoxAt dm cx cy = Some c -> getBoxAt dm (x c) (y c) = Some c.
Proof. intros Hc. by destruct (solved_cell _ _ _ Hc) as (-> & -> & _). Qed.

Lemma solved_distance_nonneg (cx cy : Z) (c : box) (k : Z) :
  getBoxAt dm cx cy = Some c -> maxDistance c = Some k -> 0 <= k.
Proof.
  intros Hc Hk. destruct (solved_cell _ _ _ Hc) as (_ & _ & _ & Hmd & _).
  rewrite Hmd in Hk. injection Hk as <-. apply bestOf_nonneg.
Qed.

(** A stored direction leads to a lower neighbour one step closer to
    the bottom. *)
Lemma solved_goodDirection (cx cy : Z) (c : box) (gds : list direction) (d : direction) :
  getBoxAt dm cx cy = Some c -> goodDirections c = Some gds -> d ∈ gds ->
  d ∈ DIRECTIONS /\
  exists n k, getNeighbourInDirection dm c d = Some n /\
              elevation n < elevation c /\
              maxDistance n = Some k /\ maxDistance c = Some (k + 1).
Proof.
  intros Hc Hgds Hd. destruct (solved_cell _ _ _ Hc) as (_ & _ & _ & Hmd & Hgd).
  rewrite Hgds in Hgd. case_decide; [done|]. injection Hgd as ->.
  unfold goodOf in Hd. apply list_elem_of_filter in Hd as [Hcand Hdir].
  split; [done|].
  apply candidate_inv in Hcand as (n & k & Hn & Hlt & Hk & Hbest).
  exists n, k. by rewrite Hmd, Hbest.
Qed.

Lemma solved_goodDirections_length (cx cy : Z) (c : box) (gds : list direction) :
  getBoxAt dm cx cy = Some c -> goodDirections c = Some gds ->
  (1 <= length gds <= 4)%nat.
Proof.
  intros Hc Hgds. destruct (solved_cell _ _ _ Hc) as (_ & _ & _ & _ & Hgd).
  rewrite Hgds in Hgd. case_decide as Hbest; [done|]. injection Hgd as ->.
  split.
  - destruct (bestOf_attained dm c DIRECTIONS) as [?|(d & Hd & Hcand)]; [done|].
    assert (d ∈ goodOf dm c DIRECTIONS) as Hin
      by (apply list_elem_of_filter; done).
    destruct (goodOf dm c DIRECTIONS); [by apply elem_of_nil in Hin|simpl; lia].
  - unfold goodOf. etrans; [apply length_filter|]. done.
Qed.

Lemma solved_no_descent (cx cy : Z) (c : box) :
  getBoxAt dm cx cy = Some c ->
  (forall d n, d ∈ DIRECTIONS -> getNeighbourInDirection dm c d = Some n ->
               ~ elevation n < elevation c) ->
  maxDistance c = Some 0 /\ goodDirections c = None.
Proof.
  intros Hc Hflat. destruct (solved_cell _ _ _ Hc) as (_ & _ & _ & Hmd & Hgd).
  assert (bestOf dm c DIRECTIONS = 0) as Hzero.
  { destruct (bestOf_attained dm c DIRECTIONS) as [?|(d & Hd & Hcand)]; [done|].
    apply candidate_inv in Hcand as (n & k & Hn & Hlt & _). by destruct (Hflat d n). }
  rewrite Hmd, Hgd, Hzero. by rewrite decide_True.
Qed.

End Solved.

(** ** Descending routes on the input grid *)

Lemma adjacent_direction (cx cy : Z) (q : position) :
  adjacent (cx, cy) q = true ->
  exists d, d ∈ DIRECTIONS /\ q = (cx + d.1, cy + d.2).
Proof.
  unfold adjacent. rewrite bool_decide_eq_true. destruct q as [qx qy]. simpl.
  intros Hadj. unfold DIRECTIONS.
  assert ((qx = cx - 1 /\ qy = cy) \/ (qx = cx /\ qy = cy + 1) \/
          (qx = cx + 1 /\ qy = cy) \/ (qx = cx /\ qy = cy - 1))
    as [[-> ->]|[[-> ->]|[[-> ->]|[-> ->]]]] by lia.
  - exists (-1, 0). split; [by left|]. simpl. f_equal; lia.
  - exists (0, 1). rewrite !elem_of_cons. split; [tauto|]. simpl. f_equal; lia.
  - exists (1, 0). rewrite !elem_of_cons. split; [tauto|]. simpl. f_equal; lia.
  - exists (0, -1). rewrite !elem_of_cons. split; [tauto|]. simpl. f_equal; lia.
Qed.

Lemma direction_adjacent (cx cy : Z) (d : direction) :
  d ∈ DIRECTIONS -> adjacent (cx, cy) (cx + d.1, cy + d.2) = true.
Proof.
  unfold DIRECTIONS. rewrite !elem_of_cons, elem_of_nil. unfold adjacent.
  intros [->|[->|[->|[->|[]]]]]; apply bool_decide_eq_true; simpl; lia.
Qed.

Section Routes.
Variables (mountainMap : list (list Z)) (dm : dataMap).
Hypothesis Hsolved : solvedFor mountainMap dm.

Lemma solved_lookup (cx cy elev : Z) :
  elevationAt mountainMap cx cy = Some elev ->
  exists c, getBoxAt dm cx cy = Some c /\ elevation c = elev.
Proof.
  intros He. destruct Hsolved as (Hel & _ & _). rewrite <- Hel in He.
  destruct (getBoxAt dm cx cy) as [c|]; [|done]. injection He as <-. eauto.
Qed.

Lemma route_bound (rest : list position) :
  forall cx cy c,
    getBoxAt dm cx cy = Some c ->
    descending mountainMap (cx, cy) rest = true ->
    Z.of_nat (length rest) <= bestOf dm c DIRECTIONS.
Proof.
  induction rest as [|q rest IH]; intros cx cy c Hc Hroute; simpl in *.
  - apply bestOf_nonneg.
  - apply andb_true_iff in Hroute as [Hstep Hrest].
    apply andb_true_iff in Hstep as [Hadj Hlow].
    apply adjacent_direction in Hadj as (d & Hd & ->).
    destruct (solved_cell _ _ Hsolved _ _ _ Hc) as (Hx & Hy & He & _).
    unfold lowerAt in Hlow. simpl in Hlow. rewrite He in Hlow.
    destruct (elevationAt mountainMap (cx + d.1) (cy + d.2)) as [e'|] eqn:He'; [|done].
    apply bool_decide_eq_true in Hlow.
    destruct (solved_lookup _ _ _ He') as (n & Hn & <-).
    specialize (IH _ _ _ Hn Hrest).
    destruct (solved_cell _ _ Hsolved _ _ _ Hn) as (_ & _ & _ & Hmd & _).
    assert (bestOf dm n DIRECTIONS + 1 <= bestOf dm c DIRECTIONS); [|lia].
    eapply bestOf_upper; [done|]. eapply candidate_intro; [|done|done].
    unfold getNeighbourInDirection. by rewrite Hx, Hy.
Qed.

Lemma route_exists (k : nat) :
  forall cx cy c,
    getBoxAt dm cx cy = Some c ->
    bestOf dm c DIRECTIONS = Z.of_nat k ->
    exists rest, descending mountainMap (cx, cy) rest = true /\ length rest = k.
Proof.
  induction k as [|k IH]; intros cx cy c Hc Hbest.
  - exists []. split; [|done]. simpl. apply bool_decide_eq_true.
    destruct (solved_cell _ _ Hsolved _ _ _ Hc) as (_ & _ & He & _). by rewrite He.
  - destruct (bestOf_attained dm c DIRECTIONS) as [?|(d & Hd & Hcand)]; [lia|].
    apply candidate_inv in Hcand as (n & kn & Hn & Hlt & Hkn & Hsum).
    destruct (solved_cell _ _ Hsolved _ _ _ Hc) as (Hx & Hy & He & _).
    unfold getNeighbourInDirection in Hn. rewrite Hx, Hy in Hn.
    destruct (solved_cell _ _ Hsolved _ _ _ Hn) as (_ & _ & Hen & Hmd & _).
    rewrite Hmd in Hkn. injection Hkn as Hkn.
    destruct (IH _ _ _ Hn) as (rest & Hrest & Hlen); [lia|].
    exists ((cx + d.1, cy + d.2) :: rest). split; [|by rewrite <- Hlen].
    simpl. rewrite direction_adjacent, Hrest by done.
    unfold lowerAt. simpl. rewrite He, Hen. by rewrite bool_decide_true.
Qed.
End Routes.

Lemma foldl_max_const (v : Z) (vs : list Z) :
  Forall (eq v) vs -> foldl Z.max v vs = v.
Proof.
  induction 1 as [|u vs <- _ IH]; simpl; [done|]. by rewrite Z.max_id.
Qed.

Lemma solved_recurrence (mountainMap : list (list Z)) (dm : dataMap)
    (cx cy : Z) (c : box) :
  solvedFor mountainMap dm -> getBoxAt dm cx cy = Some c ->
  maxDistance c = distanceViaGoodDirections dm c.
Proof.
  intros Hsolved Hc. unfold distanceViaGoodDirections.
  destruct (goodDirections c) as [gds|] eqn:Hgds.
  - pose proof (solved_goodDirections_length _ _ Hsolved _ _ _ _ Hc Hgds) as [Hlen _].
    destruct (maxDistance c) as [k|] eqn:Hk.
    2:{ destruct (solved_cell _ _ Hsolved _ _ _ Hc) as (_ & _ & _ & Hmd & _). congruence. }
    assert (mapM (fun d' => getNeighbourInDirection dm c d' ≫= maxDistance) gds
            = Some (replicate (length gds) (k - 1))) as Hall.
    { apply mapM_Some. apply Forall2_same_length_lookup. split.
      - by rewrite length_replicate.
      - intros i d v Hd Hv. apply lookup_replicate in Hv as [-> _].
        apply list_elem_of_lookup_2 in Hd.
        destruct (solved_goodDirection _ _ Hsolved _ _ _ _ _ Hc Hgds Hd)
          as (_ & n & kn & -> & _ & Hkn & Hsum).
        simpl. rewrite Hkn. f_equal. rewrite Hk in Hsum. injection Hsum. lia. }
    destruct gds as [|d ds]; [simpl in Hlen; lia|].
    rewrite Hall. simpl. rewrite foldl_max_const by apply Forall_replicate_eq.
    f_equal. lia.
  - destruct (solved_cell _ _ Hsolved _ _ _ Hc) as (_ & _ & _ & Hmd & Hgd).
    rewrite Hgds in Hgd. case_decide as Hzero; [|done]. by rewrite Hmd, Hzero.
Qed.

(** ** Best start points *)

Lemma foldl_rows {A S : Type} (f : S -> A -> S) (rows : list (list A)) (s : S) :
  foldl (fun acc row => foldl f acc row) s rows = foldl f s (concat rows).
Proof.
  revert s. induction rows as [|row rows IH]; intros s; simpl; [done|].
  by rewrite foldl_app, IH.
Qed.

Lemma bestStep_cases (best : Z) (acc : list box) (b : box) :
  bestStep (best, acc) b =
  match maxDistance b with
  | Some v =>
      if decide (best < v) then (v, [b])
      else if decide (v = best) then (best, acc ++ [b]) else (best, acc)
  | None => (best, acc)
  end.
Proof.
  unfold bestStep, js_gt, js_ge. destruct (maxDistance b) as [v|]; [|done].
  destruct (decide (best < v)); [|destruct (decide (v = best))].
  - rewrite (bool_decide_true (best < v)) by done.
    by rewrite (bool_decide_true (best <= v)) by lia.
  - rewrite (bool_decide_false (best < v)) by done.
    rewrite (bool_decide_true (best <= v)) by lia. simpl. by subst.
  - rewrite (bool_decide_false (best < v)) by done.
    by rewrite (bool_decide_false (best <= v)) by lia.
Qed.

Lemma bestStep_spec (l : list box) :
  let r := foldl bestStep (-1, []) l in
  r.2 = filter (fun b => maxDistance b = Some r.1) l /\
  (forall b v, b ∈ l -> maxDistance b = Some v -> v <= r.1) /\
  (r.1 = -1 \/ exists b, b ∈ l /\ maxDistance b = Some r.1).
Proof.
  induction l as [|b l IH] using rev_ind; simpl.
  { split; [done|]. split; [|by left]. intros b v Hb. by apply elem_of_nil in Hb. }
  rewrite foldl_snoc. destruct (foldl bestStep (-1, []) l) as [best acc].
  simpl in IH. destruct IH as (Hacc & Hup & Hatt).
  assert (Hkeep : forall b', b' ∈ l ++ [b] -> b' ∈ l \/ b' = b).
  { intros b'. rewrite elem_of_app, list_elem_of_singleton. tauto. }
  assert (Hlast : b ∈ l ++ [b]).
  { rewrite elem_of_app, list_elem_of_singleton. by right. }
  assert (Hold : (best = -1 \/ exists b', b' ∈ l /\ maxDistance b' = Some best) ->
                 best = -1 \/ exists b', b' ∈ l ++ [b] /\ maxDistance b' = Some best).
  { intros [?|(b' & ? & ?)]; [by left|]. right. exists b'. rewrite elem_of_app. eauto. }
  rewrite bestStep_cases. destruct (maxDistance b) as [v|] eqn:Hv.
  2:{ simpl. rewrite filter_app, (filter_singleton _ b []).
      rewrite (decide_False (P := maxDistance b = Some best)) by congruence.
      rewrite app_nil_r. split; [done|]. split; [|auto].
      intros b' v' Hb' Hv'. apply Hkeep in Hb' as [?| ->]; [eauto|congruence]. }
  destruct (decide (best < v)) as [Hlt|Hge]; [|destruct (decide (v = best)) as [->|Hne]];
    simpl; rewrite filter_app, (filter_singleton _ b []).
  - rewrite (decide_True (P := maxDistance b = Some v)) by done.
    rewrite filter_none.
    2:{ intros b' Hb' Hv'. specialize (Hup _ _ Hb' Hv'). lia. }
    split; [done|]. split; [|by eauto].
    intros b' v' Hb' Hv'. apply Hkeep in Hb' as [Hb'| ->].
    + specialize (Hup _ _ Hb' Hv'). lia.
    + rewrite Hv in Hv'. injection Hv' as <-. lia.
  - rewrite (decide_True (P := maxDistance b = Some best)) by done.
    split; [by rewrite Hacc|]. split; [|by eauto].
    intros b' v' Hb' Hv'. apply Hkeep in Hb' as [?| ->]; [eauto|].
    rewrite Hv in Hv'. injection Hv' as <-. lia.
  - rewrite (decide_False (P := maxDistance b = Some best)) by congruence.
    rewrite app_nil_r. split; [done|]. split; [|auto].
    intros b' v' Hb' Hv'. apply Hkeep in Hb' as [?| ->]; [eauto|].
    rewrite Hv in Hv'. injection Hv' as <-. lia.
Qed.

Lemma gridMaximum_unique (dm : dataMap) (k k' : Z) :
  gridMaximum dm k -> gridMaximum dm k' -> k = k'.
Proof.
  intros [(c & Hc & Hk) Hup] [(c' & Hc' & Hk') Hup'].
  specialize (Hup _ _ Hc' Hk'). specialize (Hup' _ _ Hc Hk). lia.
Qed.

Lemma findBestStartPoints_spec (dm : dataMap) (c0 : box) (k0 : Z) :
  c0 ∈ flatten dm -> maxDistance c0 = Some k0 -> 0 <= k0 ->
  gridMaximum dm (bestScan dm).1 /\
  findBestStartPoints dm =
    filter (fun c => maxDistance c = Some (bestScan dm).1) (flatten dm) /\
  findBestStartPoints dm <> [].
Proof.
  intros Hc0 Hk0 Hpos. unfold findBestStartPoints, bestScan. rewrite foldl_rows.
  fold (flatten dm).
  destruct (bestStep_spec (flatten dm)) as (Hacc & Hup & Hatt). simpl in *.
  destruct Hatt as [Hneg|(b & Hb & Hbest)].
  { specialize (Hup _ _ Hc0 Hk0). lia. }
  split; [split; eauto|]. split; [done|].
  rewrite Hacc. intros Hnil.
  eapply (filter_nil_not_elem_of _ _ b); done.
Qed.

(** ** Path enumeration in the revised program *)

Lemma mapM_Ok {A B : Type} (f : A -> outcome B) (P : A -> B -> Prop) (l : list A) :
  (forall a, a ∈ l -> exists b, f a = Ok b /\ P a b) ->
  exists bs, mapM f l = Ok bs /\ Forall2 P l bs.
Proof.
  induction l as [|a l IH]; intros Hl.
  - exists []. by split.
  - destruct (Hl a) as (b & Hb & HP); [by left|].
    destruct IH as (bs & Hbs & HPs); [intros a' Ha'; apply Hl; by right|].
    exists (b :: bs). split; [|by constructor].
    simpl. rewrite Hb. simpl. rewrite Hbs. done.
Qed.

Section Enumerate.
Variables (mountainMap : list (list Z)) (dm : dataMap).
Hypothesis Hsolved : solvedFor mountainMap dm.

Lemma getGoodPathsFromBox_good (fuel : nat) :
  forall cx cy c,
    getBoxAt dm cx cy = Some c ->
    bestOf dm c DIRECTIONS < Z.of_nat fuel ->
    exists ps, Revised.getGoodPathsFromBox fuel dm (Some c) = Ok ps /\
               ps <> [] /\ forall p, p ∈ ps -> goodPathFrom dm c p.
Proof.
  induction fuel as [|fuel IH]; intros cx cy c Hc Hfuel.
  { pose proof (bestOf_nonneg dm c DIRECTIONS). lia. }
  pose proof (solved_deref _ _ Hsolved _ _ _ Hc) as Hself.
  destruct (solved_cell _ _ Hsolved _ _ _ Hc) as (_ & _ & _ & Hmd & Hgd).
  simpl. destruct (goodDirections c) as [gds|] eqn:Hgds.
  - pose proof (solved_goodDirections_length _ _ Hsolved _ _ _ _ Hc Hgds) as [Hlen _].
    match goal with
    | |- context [mapM ?f gds] =>
        destruct (mapM_Ok f
          (fun d r => r <> [] /\ forall p, p ∈ r -> goodPathFrom dm c p) gds)
          as (routes & Hroutes & Hall)
    end.
    { intros d Hd.
      destruct (solved_goodDirection _ _ Hsolved _ _ _ _ _ Hc Hgds Hd)
        as (Hdir & n & kn & Hn & Hlt & Hkn & Hsum).
      rewrite Hn. pose proof Hn as Hn'. unfold getNeighbourInDirection in Hn'.
      destruct (solved_cell _ _ Hsolved _ _ _ Hn') as (Hnx & Hny & _ & Hnmd & _).
      rewrite Hmd in Hsum. rewrite Hnmd in Hkn.
      injection Hsum as Hsum. injection Hkn as Hkn.
      destruct (IH _ _ _ Hn') as (ps & Hps & Hne & Hgood); [lia|].
      rewrite Hps. simpl. eexists. split; [done|]. split.
      { by destruct ps. }
      intros p Hp. apply list_elem_of_fmap in Hp as (one & -> & Hone).
      destruct (Hgood _ Hone) as (rest & Hcells & Hrest & Hski & _).
      exists (Revised.cells one). split; [done|]. split.
      { rewrite Hcells. simpl. lia. }
      split; [|done]. simpl. rewrite Hcells in *. simpl in Hski.
      rewrite bool_decide_true by done. rewrite Hnx, Hny.
      rewrite direction_adjacent by done.
      rewrite bool_decide_true by done. simpl. exact Hski. }
    rewrite Hroutes. simpl. eexists. split; [done|]. split.
    + destruct Hall as [|d r gds' routes' [Hr _] _]; [simpl in Hlen; lia|].
      simpl. by destruct r.
    + intros p Hp. apply elem_of_concat in Hp as (r & Hr & Hp).
      apply list_elem_of_lookup in Hr as [i Hi].
      destruct (Forall2_lookup_r _ _ _ _ _ Hall Hi) as (d & _ & _ & Hgood).
      by apply Hgood.
  - exists [Revised.Path [c] None]. split; [done|]. split; [done|].
    intros p Hp. apply list_elem_of_singleton in Hp as ->.
    exists []. simpl. rewrite bool_decide_true by done.
    case_decide as Hzero; [|done]. by rewrite Hzero.
Qed.

Lemma getGoodPathsFromStartPoints_concat (fuel : nat) (starts : list box) :
  Revised.getGoodPathsFromStartPoints fuel dm starts =
  (fun pss => concat pss)
    <$> mapM (fun s => Revised.getGoodPathsFromBox fuel dm (Some s)) starts.
Proof.
  unfold Revised.getGoodPathsFromStartPoints.
  enough (forall acc,
    forEachM (fun allPaths startPoint =>
                paths ← Revised.getGoodPathsFromBox fuel dm (Some startPoint);
                mret (allPaths ++ paths)) starts acc =
    (fun pss => acc ++ concat pss)
      <$> mapM (fun s => Revised.getGoodPathsFromBox fuel dm (Some s)) starts)
    as Hgen by apply (Hgen []).
  induction starts as [|s starts IH]; intros acc; simpl.
  - by rewrite app_nil_r.
  - destruct (Revised.getGoodPathsFromBox fuel dm (Some s)) as [ps| |]; simpl;
      [|done|done].
    rewrite IH.
    destruct (mapM (fun s => Revised.getGoodPathsFromBox fuel dm (Some s)) starts);
      simpl; [|done|done].
    by rewrite app_assoc.
Qed.

(** From start points that all lie within the fuel, the enumerator
    returns paths, each a good path from one of the start points. *)
Lemma getGoodPathsFromStartPoints_good (fuel : nat) (starts : list box) :
  (forall s, s ∈ starts ->
     (exists cx cy, getBoxAt dm cx cy = Some s) /\
     bestOf dm s DIRECTIONS < Z.of_nat fuel) ->
  exists paths,
    Revised.getGoodPathsFromStartPoints fuel dm starts = Ok paths /\
    (starts <> [] -> paths <> []) /\
    forall p, p ∈ paths -> exists s, s ∈ starts /\ goodPathFrom dm s p.
Proof.
  intros Hstarts. rewrite getGoodPathsFromStartPoints_concat.
  edestruct (mapM_Ok (fun s => Revised.getGoodPathsFromBox fuel dm (Some s))
    (fun s ps => ps <> [] /\ forall p, p ∈ ps -> goodPathFrom dm s p) starts)
    as (pss & Hpss & Hall).
  { intros s Hs. destruct (Hstarts s Hs) as [(cx & cy & Hc) Hfuel].
    destruct (getGoodPathsFromBox_good fuel cx cy s Hc Hfuel) as (ps & ? & ? & ?).
    eauto. }
  rewrite Hpss. simpl. eexists. split; [done|]. split.
  - intros Hne. destruct Hall as [|s ps starts' pss' [Hps _] _]; [done|].
    simpl. by destruct ps.
  - intros p Hp. apply elem_of_concat in Hp as (ps & Hps & Hp).
    apply list_elem_of_lookup in Hps as [i Hi].
    destruct (Forall2_lookup_r _ _ _ _ _ Hall Hi) as (s & Hs & _ & Hgood).
    exists s. split; [by eapply list_elem_of_lookup_2|]. by apply Hgood.
Qed.
End Enumerate.

(** ** Steepness selection in the revised program *)

Lemma addSteepness_Ok (p : Revised.path) :
  Revised.cells p <> [] ->
  Revised.addSteepness p =
  Ok (Revised.Path (Revised.cells p) (Some (descentOf (Revised.cells p)))).
Proof.
  intros Hne. unfold Revised.addSteepness, descentOf.
  destruct (Revised.cells p) as [|c cs] eqn:Hcs; [done|]. simpl.
  destruct (last_is_Some (c :: cs)) as [_ [e He]]; [done|]. by rewrite He.
Qed.

Lemma descentOf_exact (cs : list box) :
  Forall (fun c => safeElevation (elevation c)) cs -> exactInteger (descentOf cs).
Proof.
  intros Hsafe. unfold descentOf, exactInteger.
  assert (2 ^ 53 = 2 * 2 ^ 52) as -> by reflexivity.
  destruct (head cs) as [a|] eqn:Ha; [|lia].
  destruct (last cs) as [b|] eqn:Hb; [|lia].
  rewrite Forall_forall in Hsafe.
  pose proof (Hsafe a (head_Some_elem_of _ _ Ha)) as Hsa.
  assert (b ∈ cs) as Hin.
  { apply last_Some in Hb as [l' ->]. rewrite elem_of_app, list_elem_of_singleton.
    by right. }
  pose proof (Hsafe b Hin) as Hsb. unfold safeElevation in *. lia.
Qed.

Lemma mapM_addSteepness (paths : list Revised.path) :
  Forall (fun p => Revised.cells p <> []) paths ->
  mapM Revised.addSteepness paths =
  Ok ((fun p => Revised.Path (Revised.cells p) (Some (descentOf (Revised.cells p))))
        <$> paths).
Proof.
  induction 1 as [|p paths Hp _ IH]; [done|].
  simpl. rewrite addSteepness_Ok by done. simpl. by rewrite IH.
Qed.

Lemma js_max_spec (vs : list Z) :
  (vs = [] /\ js_max (Some <$> vs) = NegInfinity) \/
  (exists g, js_max (Some <$> vs) = Num g /\ g ∈ vs /\ forall v, v ∈ vs -> v <= g).
Proof.
  induction vs as [|v vs IH] using rev_ind; [by left|]. right.
  unfold js_max in *. rewrite fmap_app, foldl_app.
  assert (Hkeep : forall u, u ∈ vs ++ [v] -> u ∈ vs \/ u = v).
  { intros u. rewrite elem_of_app, list_elem_of_singleton. tauto. }
  assert (Hlast : v ∈ vs ++ [v]).
  { rewrite elem_of_app, list_elem_of_singleton. by right. }
  destruct IH as [[-> ->]|(g & -> & Hg & Hup)]; simpl.
  - exists v. split; [done|]. split; [done|].
    intros u Hu. apply Hkeep in Hu as [Hu| ->]; [by apply elem_of_nil in Hu|lia].
  - case_bool_decide.
    + exists v. split; [done|]. split; [done|].
      intros u Hu. apply Hkeep in Hu as [Hu| ->]; [|lia]. specialize (Hup _ Hu). lia.
    + exists g. split; [done|]. split; [rewrite elem_of_app; by left|].
      intros u Hu. apply Hkeep in Hu as [Hu| ->]; [by apply Hup|lia].
Qed.

Lemma filter_fmap {A B : Type} (f : A -> B) (P : B -> Prop)
    `{forall b, Decision (P b)} (l : list A) :
  filter P (f <$> l) = f <$> filter (fun a => P (f a)) l.
Proof.
  induction l as [|a l IH]; [done|].
  rewrite fmap_cons, !filter_cons, IH. by destruct (decide (P (f a))).
Qed.

Lemma select_revised (paths : list Revised.path) (greatest : Z) :
  Forall (fun p => Revised.cells p <> []) paths ->
  js_max (Some <$> ((fun p => descentOf (Revised.cells p)) <$> paths)) = Num greatest ->
  Revised.selectPathsWithGreatestSteepness paths =
  Ok ((fun p => Revised.Path (Revised.cells p) (Some greatest))
        <$> filter (fun p => descentOf (Revised.cells p) = greatest) paths).
Proof.
  intros Hcells Hmax. unfold Revised.selectPathsWithGreatestSteepness.
  rewrite mapM_addSteepness by done. simpl.
  rewrite <- list_fmap_compose.
  change (Revised.steepness ∘ _) with
    (fun p : Revised.path => Some (descentOf (Revised.cells p))).
  rewrite (list_fmap_compose (fun p => descentOf (Revised.cells p)) Some) in *.
  rewrite Hmax. f_equal. rewrite filter_fmap. simpl.
  rewrite (filter_ext_in _ (fun p => descentOf (Revised.cells p) = greatest)).
  - apply Forall_fmap_ext, Forall_forall. intros p Hp.
    apply list_elem_of_filter in Hp as [-> _]. done.
  - intros p _. rewrite bool_decide_spec. split; [by intros [= ->]|by intros ->].
Qed.

Lemma elem_of_grid (mountainMap : list (list Z)) (elev : Z) :
  elev ∈ concat mountainMap -> exists cx cy, elevationAt mountainMap cx cy = Some elev.
Proof.
  intros He. apply elem_of_concat in He as (row & Hrow & He).
  apply list_elem_of_lookup in Hrow as [j Hj]. apply list_elem_of_lookup in He as [i Hi].
  exists (Z.of_nat i), (Z.of_nat j). unfold elevationAt.
  apply bind_Some. exists row. split; apply at_index_Some; rewrite Nat2Z.id;
    (split; [lia|done]).
Qed.

(** On a grid with at least one cell the best start points are the cells
    at the greatest distance, and with enough fuel the enumerator returns
    paths, each a good path from one of them. *)
Lemma enumerate_best (mountainMap : list (list Z)) (dm : dataMap) (fuel : nat) :
  solvedFor mountainMap dm -> concat mountainMap <> [] ->
  exists best,
    gridMaximum dm best /\
    findBestStartPoints dm =
      filter (fun c => maxDistance c = Some best) (flatten dm) /\
    findBestStartPoints dm <> [] /\
    (best < Z.of_nat fuel ->
     exists paths,
       Revised.getGoodPathsFromStartPoints fuel dm (findBestStartPoints dm) = Ok paths /\
       paths <> [] /\
       forall p, p ∈ paths ->
         exists s, s ∈ flatten dm /\ maxDistance s = Some best /\ goodPathFrom dm s p).
Proof.
  intros Hsolved Hcells.
  assert (exists c0, c0 ∈ flatten dm) as [c0 Hc0].
  { destruct (concat mountainMap) as [|e l] eqn:Hm; [done|].
    destruct (elem_of_grid mountainMap e) as (cx & cy & He); [rewrite Hm; by left|].
    destruct (solved_lookup _ _ Hsolved _ _ _ He) as (c & Hc & _).
    exists c. apply elem_of_flatten. eauto. }
  pose proof Hc0 as Hc0'. apply elem_of_flatten in Hc0' as (cx0 & cy0 & Hat0).
  destruct (solved_cell _ _ Hsolved _ _ _ Hat0) as (_ & _ & _ & Hmd0 & _).
  destruct (findBestStartPoints_spec dm c0 _ Hc0 Hmd0 (bestOf_nonneg _ _ _))
    as (Hmax & Hstarts & Hne).
  exists (bestScan dm).1. split; [done|]. split; [done|]. split; [done|].
  intros Hfuel.
  assert (Hstart : forall s, s ∈ findBestStartPoints dm ->
            s ∈ flatten dm /\ maxDistance s = Some (bestScan dm).1).
  { intros s Hs. rewrite Hstarts in Hs. apply list_elem_of_filter in Hs. tauto. }
  destruct (getGoodPathsFromStartPoints_good _ _ Hsolved fuel (findBestStartPoints dm))
    as (paths & Hrun & Hsome & Hgood).
  { intros s Hs. destruct (Hstart s Hs) as [Hin Hmd].
    apply elem_of_flatten in Hin as (cx & cy & Hat). split; [eauto|].
    destruct (solved_cell _ _ Hsolved _ _ _ Hat) as (_ & _ & _ & Hmd' & _).
    rewrite Hmd' in Hmd. injection Hmd as ->. done. }
  exists paths. split; [done|]. split; [auto|].
  intros p Hp. destruct (Hgood p Hp) as (s & Hs & Hpath).
  exists s. destruct (Hstart s Hs). done.
Qed.

(** * The claims *)

(** C1.  After the distance solver has processed every cell in ascending
    order of elevation, each cell's [maxDistance] is the number of edges of
    the longest strictly descending, four-directionally connected route
    that starts at the cell: a route with that many edges exists and none
    has more.  Equivalently it is one more than the greatest [maxDistance]
    among the neighbours the cell's [goodDirections] lead to, and 0 when
    the cell stores no good direction.  The order of cells of equal
    elevation does not matter. *)
Theorem maxDistance_is_longest_descent (mountainMap : list (list Z)) (order : list box) :
  order ≡ₚ flatten (createDataMap mountainMap) ->
  StronglySorted lowerOrLevel order ->
  exists dm,
    solveInOrder order (createDataMap mountainMap) = Ok dm /\
    (forall cx cy elev, elevationAt mountainMap cx cy = Some elev ->
       exists c, getBoxAt dm cx cy = Some c /\ elevation c = elev) /\
    forall cx cy c, getBoxAt dm cx cy = Some c ->
      exists k,
        maxDistance c = Some k /\
        (exists rest, descending mountainMap (cx, cy) rest = true /\
                      Z.of_nat (length rest) = k) /\
        (forall rest, descending mountainMap (cx, cy) rest = true ->
                      Z.of_nat (length rest) <= k) /\
        distanceViaGoodDirections dm c = Some k.
Proof.
  intros Hperm Hsort.
  destruct (solveInOrder_solved mountainMap order Hperm Hsort) as (dm & Hrun & Hsolved).
  exists dm. split; [done|]. split; [by apply solved_lookup|].
  intros cx cy c Hc.
  destruct (solved_cell _ _ Hsolved _ _ _ Hc) as (_ & _ & _ & Hmd & _).
  exists (bestOf dm c DIRECTIONS). split; [done|]. split; [|split].
  - destruct (route_exists _ _ Hsolved (Z.to_nat (bestOf dm c DIRECTIONS)) cx cy c Hc)
      as (rest & Hrest & Hlen).
    { pose proof (bestOf_nonneg dm c DIRECTIONS). lia. }
    exists rest. split; [done|]. pose proof (bestOf_nonneg dm c DIRECTIONS). lia.
  - intros rest. by apply (route_bound _ _ Hsolved).
  - by rewrite <- (solved_recurrence _ _ _ _ _ Hsolved Hc).
Qed.

(** C6.  In the solved grid every direction stored in a cell's
    [goodDirections] leads to an existing neighbour that is strictly
    lower and whose [maxDistance] plus one is the cell's [maxDistance]. *)
Theorem goodDirections_point_downhill (mountainMap : list (list Z)) :
  exists dm,
    solve mountainMap = Ok dm /\
    forall cx cy c gds d,
      getBoxAt dm cx cy = Some c -> goodDirections c = Some gds -> d ∈ gds ->
      exists n k, getNeighbourInDirection dm c d = Some n /\
                  elevation n < elevation c /\
                  maxDistance n = Some k /\ maxDistance c = Some (k + 1).
Proof.
  destruct (solve_solved mountainMap) as (dm & Hrun & Hsolved).
  exists dm. split; [done|]. intros cx cy c gds d Hc Hgds Hd.
  by destruct (solved_goodDirection _ _ Hsolved _ _ _ _ _ Hc Hgds Hd).
Qed.

(** C7.  In the solved grid a cell stores good directions exactly when
    its [maxDistance] is positive: with [maxDistance] 0 the property is
    left unset, which is how the program represents the empty set, and
    with a positive [maxDistance] it holds between one and four
    directions.  A cell without a lower neighbour has [maxDistance] 0 and
    no good directions. *)
Theorem goodDirections_iff_positive (mountainMap : list (list Z)) :
  exists dm,
    solve mountainMap = Ok dm /\
    forall cx cy c, getBoxAt dm cx cy = Some c ->
      exists k,
        maxDistance c = Some k /\ 0 <= k /\
        (k = 0 <-> goodDirections c = None) /\
        (0 < k <-> exists gds, goodDirections c = Some gds /\ gds <> []) /\
        (forall gds, goodDirections c = Some gds -> (1 <= length gds <= 4)%nat) /\
        ((forall d n, d ∈ DIRECTIONS -> getNeighbourInDirection dm c d = Some n ->
                      ~ elevation n < elevation c) ->
         k = 0 /\ goodDirections c = None).
Proof.
  destruct (solve_solved mountainMap) as (dm & Hrun & Hsolved).
  exists dm. split; [done|]. intros cx cy c Hc.
  destruct (solved_cell _ _ Hsolved _ _ _ Hc) as (_ & _ & _ & Hmd & Hgd).
  pose proof (bestOf_nonneg dm c DIRECTIONS) as Hnn.
  pose proof (fun gds => solved_goodDirections_length _ _ Hsolved _ _ _ gds Hc) as Hlen.
  exists (bestOf dm c DIRECTIONS). split; [done|]. split; [done|].
  split; [|split; [|split]].
  - rewrite Hgd. case_decide; split; (done || lia).
  - destruct (decide (bestOf dm c DIRECTIONS = 0)) as [Hzero|Hzero]; split.
    + lia.
    + rewrite Hgd. by intros (gds & ? & _).
    + intros _. eexists. split; [done|]. intros Hnil.
      specialize (Hlen _ Hgd). rewrite Hnil in Hlen. simpl in Hlen. lia.
    + lia.
  - done.
  - intros Hflat.
    destruct (solved_no_descent _ _ Hsolved _ _ _ Hc Hflat) as [Hk Hnone].
    rewrite Hmd in Hk. by injection Hk as ->.
Qed.

Lemma maxDistance_is_longest_descent_witness :
  exists dm c,
    solve grid2x2 = Ok dm /\ getBoxAt dm 0 0 = Some c /\
    maxDistance c = Some 2 /\
    (exists rest, descending grid2x2 (0, 0) rest = true /\ length rest = 2%nat) /\
    (forall rest, descending grid2x2 (0, 0) rest = true -> (length rest <= 2)%nat).
Proof.
  destruct (maxDistance_is_longest_descent grid2x2
              (sortBy byElevation (flatten (createDataMap grid2x2))))
    as (dm & Hrun & _ & Hcells).
  - apply sortBy_Permutation.
  - apply sortBy_sorted.
  - change (solve grid2x2 = Ok dm) in Hrun. vm_compute in Hrun.
    injection Hrun as <-.
    edestruct (Hcells 0 0) as (k & Hk & (rest & Hrest & Hlen) & Hbound & _);
      [vm_compute; reflexivity|].
    injection Hk as <-.
    eexists _, _. split; [vm_compute; reflexivity|]. split; [reflexivity|].
    split; [reflexivity|]. split.
    + exists rest. split; [exact Hrest|lia].
    + intros rest' Hrest'. specialize (Hbound rest' Hrest'). lia.
Defined.

Lemma goodDirections_point_downhill_witness :
  exists dm c n,
    solve grid2x2 = Ok dm /\ getBoxAt dm 0 0 = Some c /\
    getNeighbourInDirection dm c (1, 0) = Some n /\
    elevation n < elevation c /\
    (fun k => k + 1) <$> maxDistance n = maxDistance c.
Proof.
  destruct (goodDirections_point_downhill grid2x2) as (dm & Hrun & Hcells).
  pose proof Hrun as Hrun'. vm_compute in Hrun'. injection Hrun' as <-.
  edestruct (Hcells 0 0 (Box 0 0 4 (Some 2) (Some [(0, 1); (1, 0)]))
                     [(0, 1); (1, 0)] (1, 0)) as (n & k & Hn & Hlt & Hk & Hc);
    [vm_compute; reflexivity|reflexivity| |].
  - apply list_elem_of_In. simpl. tauto.
  - eexists _, (Box 0 0 4 (Some 2) (Some [(0, 1); (1, 0)])), n.
    split; [exact Hrun|]. split; [vm_compute; reflexivity|].
    split; [exact Hn|]. split; [exact Hlt|]. rewrite Hk. symmetry. exact Hc.
Defined.

Lemma goodDirections_iff_positive_witness :
  exists dm c,
    solve grid2x2 = Ok dm /\ getBoxAt dm 1 1 = Some c /\
    maxDistance c = Some 0 /\ goodDirections c = None.
Proof.
  destruct (goodDirections_iff_positive grid2x2) as (dm & Hrun & Hcells).
  pose proof Hrun as Hrun'. vm_compute in Hrun'. injection Hrun' as <-.
  edestruct (Hcells 1 1) as (k & Hk & _ & Hzero & _); [vm_compute; reflexivity|].
  injection Hk as <-.
  eexists _, _. split; [exact Hrun|]. split; [vm_compute; reflexivity|].
  split; [reflexivity|]. by apply Hzero.
Defined.

Lemma selectPathsWithGreatestSteepness_core (paths : list Revised.path) :
  paths <> [] ->
  Forall (fun p => Revised.cells p <> []) paths ->
  exists kept, Revised.selectPathsWithGreatestSteepness paths = Ok kept /\ kept <> [].
Proof.
  intros Hne Hcells.
  destruct (js_max_spec ((fun p => descentOf (Revised.cells p)) <$> paths))
    as [[Hnil _]|(g & Hmax & Hg & Hup)].
  { by apply fmap_nil_inv in Hnil. }
  apply list_elem_of_fmap in Hg as (p0 & Hp0 & Hin0).
  eexists. split; [by apply select_revised|].
  intros Hnil. apply fmap_nil_inv in Hnil.
  by eapply (filter_nil_not_elem_of _ _ p0).
Qed.



(** C8.  On a solved grid with at least one cell [findBestStartPoints]
    returns exactly the cells whose [maxDistance] is the greatest of the
    grid, in scan order, and at least one; and every path the enumerator
    returns from them starts at such a cell.  The enumerator returns as
    soon as its fuel exceeds that greatest distance. *)
Theorem findBestStartPoints_are_maxima (mountainMap : list (list Z)) (fuel : nat) :
  concat mountainMap <> [] ->
  exists dm best,
    solve mountainMap = Ok dm /\
    gridMaximum dm best /\
    findBestStartPoints dm =
      filter (fun c => maxDistance c = Some best) (flatten dm) /\
    findBestStartPoints dm <> [] /\
    (best < Z.of_nat fuel ->
     exists paths,
       Revised.getGoodPathsFromStartPoints fuel dm (findBestStartPoints dm) = Ok paths /\
       forall p, p ∈ paths ->
         exists start, head (Revised.cells p) = Some start /\
                       start ∈ flatten dm /\ maxDistance start = Some best).
Proof.
  intros Hcells. destruct (solve_solved mountainMap) as (dm & Hrun & Hsolved).
  destruct (enumerate_best mountainMap dm fuel Hsolved Hcells)
    as (best & Hmax & Hstarts & Hne & Hpaths).
  exists dm, best. do 4 (split; [done|]). intros Hfuel.
  destruct (Hpaths Hfuel) as (paths & Hget & _ & Hgood).
  exists paths. split; [done|]. intros p Hp.
  destruct (Hgood p Hp) as (s & Hs & Hmd & rest & Hp' & _).
  exists s. by rewrite Hp'.
Qed.

Lemma findBestStartPoints_are_maxima_witness :
  exists dm,
    solve grid2x2 = Ok dm /\
    findBestStartPoints dm = [Box 0 0 4 (Some 2) (Some [(0, 1); (1, 0)])] /\
    exists paths,
      Revised.getGoodPathsFromStartPoints 3 dm (findBestStartPoints dm) = Ok paths /\
      forall p, p ∈ paths ->
        head (Revised.cells p) = Some (Box 0 0 4 (Some 2) (Some [(0, 1); (1, 0)])).
Proof.
  destruct (findBestStartPoints_are_maxima grid2x2 3)
    as (dm & best & Hrun & Hmax & Hstarts & _ & Hpaths); [discriminate|].
  pose proof Hrun as Hrun'. vm_compute in Hrun'. injection Hrun' as <-.
  assert (best = 2) as ->.
  { eapply gridMaximum_unique; [exact Hmax|]. split.
    - exists (Box 0 0 4 (Some 2) (Some [(0, 1); (1, 0)])).
      split; [|reflexivity]. apply list_elem_of_In. simpl. tauto.
    - intros c k Hc. apply list_elem_of_In in Hc. simpl in Hc.
      intros Hk. destruct Hc as [<-|[<-|[<-|[<-|[]]]]]; injection Hk as <-; lia. }
  destruct Hpaths as (paths & Hget & Hheads); [lia|].
  eexists. split; [exact Hrun|]. split; [vm_compute; reflexivity|].
  exists paths. split; [exact Hget|]. intros p Hp.
  destruct (Hheads p Hp) as (start & Hstart & Hin & Hmd). rewrite Hstart. f_equal.
  apply list_elem_of_In in Hin. simpl in Hin.
  destruct Hin as [<-|[<-|[<-|[<-|[]]]]]; (reflexivity || discriminate).
Defined.

(** X19.  In the revised program, on a grid with at least one cell, every
    path the enumerator returns has one cell more than the greatest distance of
    the grid, and its consecutive cells are adjacent cells of the grid with
    strictly decreasing elevation. *)
Lemma revised_paths_are_longest_descents (mountainMap : list (list Z)) (fuel : nat) :
  concat mountainMap <> [] ->
  exists dm bestDistance,
    solve mountainMap = Ok dm /\
    gridMaximum dm bestDistance /\
    (bestDistance < Z.of_nat fuel ->
     exists paths,
       Revised.getGoodPathsFromStartPoints fuel dm (findBestStartPoints dm) = Ok paths /\
       paths <> [] /\
       forall p, p ∈ paths ->
         Z.of_nat (length (Revised.cells p)) = bestDistance + 1 /\
         skiable dm (Revised.cells p) = true).
Proof.
  intros Hcells. destruct (solve_solved mountainMap) as (dm & Hrun & Hsolved).
  destruct (enumerate_best mountainMap dm fuel Hsolved Hcells)
    as (best & Hmax & Hstarts & Hne & Hpaths).
  exists dm, best. do 2 (split; [done|]). intros Hfuel.
  destruct (Hpaths Hfuel) as (paths & Hget & Hsome & Hgood).
  exists paths. do 2 (split; [done|]). intros p Hp.
  destruct (Hgood p Hp) as (s & Hs & Hmd & rest & Hp' & Hlen & Hski & _).
  split; [|done]. rewrite Hp'. simpl.
  apply elem_of_flatten in Hs as (cx & cy & Hat).
  destruct (solved_cell _ _ Hsolved _ _ _ Hat) as (_ & _ & _ & Hmd' & _).
  rewrite Hmd' in Hmd. injection Hmd as <-. lia.
Qed.

(** ** The empty grid *)

Lemma createRows_empty (rows : list (list Z)) (j0 : Z) :
  concat rows = [] ->
  concat (mapi (fun row cy =>
                  mapi (fun elev cx => Box cx cy elev None None) row 0)
               rows j0) = [].
Proof.
  revert j0. induction rows as [|row rows IH]; intros j0 Hnil; simpl; [done|].
  simpl in Hnil. apply app_eq_nil in Hnil as [-> Hrows]. simpl. by apply IH.
Qed.

Lemma processMap_empty (fuel : nat) (mountainMap : list (list Z)) :
  concat mountainMap = [] -> Revised.processMap fuel mountainMap = Ok [].
Proof.
  intros Hnil. unfold Revised.processMap, solve.
  pose proof (createRows_empty mountainMap 0 Hnil) as Hflat.
  fold (createDataMap mountainMap) in Hflat.
  fold (flatten (createDataMap mountainMap)) in Hflat.
  rewrite Hflat. simpl.
  unfold findBestStartPoints, bestScan. rewrite foldl_rows.
  fold (flatten (createDataMap mountainMap)). rewrite Hflat. done.
Qed.

(** C4, as the code has it.  The core has no empty-grid check.  On a grid
    without cells nothing is processed, no start point is found, no path
    is enumerated, [_.max] of no steepness is [-Infinity], and the
    steepness selector and the whole pipeline return the empty list of
    paths; no error is signalled. *)
Theorem empty_grid_yields_no_paths (fuel : nat) (mountainMap : list (list Z)) :
  concat mountainMap = [] ->
  Revised.processMap fuel mountainMap = Ok [] /\
  findBestStartPoints (createDataMap mountainMap) = [] /\
  js_max [] = NegInfinity /\
  Revised.selectPathsWithGreatestSteepness [] = Ok [].
Proof.
  intros Hnil. split; [by apply processMap_empty|]. split; [|done].
  unfold findBestStartPoints, bestScan. rewrite foldl_rows.
  pose proof (createRows_empty mountainMap 0 Hnil) as Hflat.
  fold (createDataMap mountainMap) in Hflat. by rewrite Hflat.
Qed.

Lemma empty_grid_yields_no_paths_witness :
  Revised.processMap 0 [[]; []] = Ok [] /\
  Revised.selectPathsWithGreatestSteepness [] = Ok [].
Proof.
  destruct (empty_grid_yields_no_paths 0 [[]; []]) as (Hrun & _ & _ & Hselect).
  - reflexivity.
  - split; [exact Hrun|exact Hselect].
Defined.

(** Counterexample to C4: run on the grid without rows the pipeline
    returns a result, the empty list, and throws nothing. *)
Lemma empty_grid_signals_no_error :
  Revised.processMap 0 [] = Ok [] /\
  ~ exists e, Revised.processMap 0 [] = Throw e.
Proof.
  split; [reflexivity|]. intros [e He]. vm_compute in He. discriminate.
Qed.

(** ** The grid of one cell *)

(** C5.  On the grid [[1]] the revised program returns one path, the
    single cell of elevation 1, reported with length 1 and steepness 0.
    The original program does not: its enumerator returns the box itself
    instead of a one-cell array, and [addSteepness] throws. *)
Theorem single_cell_grid (fuel : nat) :
  Revised.processMap (S fuel) [[1]] =
    Ok [Revised.Path [Box 0 0 1 (Some 0) None] (Some 0)] /\
  fmap (M := list) Revised.report <$> Revised.processMap (S fuel) [[1]] =
    Ok [([1], 1%nat, Some 0)] /\
  Original.processMap (S fuel) [[1]] = Throw TypeError.
Proof. split; [|split]; vm_compute; reflexivity. Qed.

(** C2 fails in the original program on the grid [[1]], where the greatest
    distance is 0: what its enumerator returns as the only path is the box
    itself, not an array of one cell, so it has no [length] and no first
    or last cell.  The revised program returns the one-cell array. *)
Theorem original_enumerator_returns_bare_box (fuel : nat) :
  exists dm,
    solve [[1]] = Ok dm /\
    gridMaximum dm 0 /\
    Original.getGoodPathsFromStartPoints (S fuel) dm (findBestStartPoints dm) =
      Ok [Original.Bare (Some (Box 0 0 1 (Some 0) None))] /\
    Revised.getGoodPathsFromStartPoints (S fuel) dm (findBestStartPoints dm) =
      Ok [Revised.Path [Box 0 0 1 (Some 0) None] None].
Proof.
  eexists. split; [vm_compute; reflexivity|]. split; [|split; vm_compute; reflexivity].
  split.
  - exists (Box 0 0 1 (Some 0) None). split; [|done].
    apply list_elem_of_In. simpl. tauto.
  - intros c k Hc. apply list_elem_of_In in Hc. simpl in Hc.
    destruct Hc as [<-|[]]. intros [= <-]. lia.
Qed.

(** C10.  The two programs do not agree on every grid: on [[1]], whose
    longest path has one cell, the original program throws while the
    revised one returns the path of elevation 1.  The difference is the
    base case of the enumerator, [box] against [[box]]. *)
Theorem programs_differ_on_single_cell (fuel : nat) :
  Original.processMap (S fuel) [[1]] = Throw TypeError /\
  fmap (M := list) Revised.simplifyPath <$> Revised.processMap (S fuel) [[1]] =
    Ok [[1]] /\
  Original.getGoodPathsFromBox (S fuel) [[Box 0 0 1 (Some 0) None]]
    (Some (Box 0 0 1 (Some 0) None)) =
    Ok [Original.Bare (Some (Box 0 0 1 (Some 0) None))] /\
  Revised.getGoodPathsFromBox (S fuel) [[Box 0 0 1 (Some 0) None]]
    (Some (Box 0 0 1 (Some 0) None)) =
    Ok [Revised.Path [Box 0 0 1 (Some 0) None] None].
Proof. repeat split; vm_compute; reflexivity. Qed.

(** ** The two-by-two grid *)

Lemma descending_on_grid (mountainMap : list (list Z)) (p : position)
    (rest : list position) :
  descending mountainMap p rest = true ->
  is_Some (elevationAt mountainMap p.1 p.2).
Proof.
  destruct rest as [|q rest]; simpl.
  - by rewrite bool_decide_eq_true.
  - rewrite !andb_true_iff. intros [[_ Hlow] _]. unfold lowerAt in Hlow.
    destruct (elevationAt mountainMap p.1 p.2); [by eexists|done].
Qed.

(** C9, as the code has it.  On the grid [[4,3],[2,1]] the cells 3 and 2
    are not adjacent, so no descending route visits all four cells.  The
    pipeline finds the two longest routes 4-2-1 and 4-3-1, of three cells
    (two edges) each, both with steepness 3; no descending route of the
    grid has more than two edges. *)
Theorem two_by_two_longest_routes (fuel : nat) :
  fmap (M := list) Revised.report <$> Revised.processMap (S (S (S fuel))) grid2x2 =
    Ok [([4; 2; 1], 3%nat, Some 3); ([4; 3; 1], 3%nat, Some 3)] /\
  (forall p rest, descending grid2x2 p rest = true -> (length rest <= 2)%nat) /\
  descending grid2x2 (0, 0) [(0, 1); (1, 1)] = true.
Proof.
  split; [vm_compute; reflexivity|]. split; [|vm_compute; reflexivity].
  intros [cx cy] rest Hroute.
  destruct (solve_solved grid2x2) as (dm & Hrun & Hsolved).
  destruct (descending_on_grid _ _ _ Hroute) as [elev He]. simpl in He.
  destruct (solved_lookup _ _ Hsolved _ _ _ He) as (c & Hc & _).
  pose proof (route_bound _ _ Hsolved rest cx cy c Hc Hroute) as Hbound.
  destruct (solved_cell _ _ Hsolved _ _ _ Hc) as (_ & _ & _ & Hmd & _).
  assert (c ∈ flatten dm) as Hin by (apply elem_of_flatten; eauto).
  assert (bestOf dm c DIRECTIONS <= 2) as Hle; [|lia].
  vm_compute in Hrun. injection Hrun as <-.
  apply list_elem_of_In in Hin. simpl in Hin.
  destruct Hin as [<-|[<-|[<-|[<-|[]]]]]; vm_compute; discriminate.
Qed.

Lemma two_by_two_longest_routes_witness :
  let rest : list position := [(1, 0); (1, 1)] in
  descending grid2x2 (0, 0) rest = true /\ (length rest <= 2)%nat.
Proof.
  destruct (two_by_two_longest_routes 0) as (_ & Hbound & _).
  intros rest. split; [reflexivity|]. apply (Hbound (0, 0)). reflexivity.
Defined.

(** Counterexample to C9: no path the pipeline selects on [[4,3],[2,1]]
    has four cells; both have three. *)
Lemma two_by_two_has_no_path_of_four_cells :
  exists paths,
    Revised.processMap 3 grid2x2 = Ok paths /\
    paths <> [] /\
    forall p, p ∈ paths -> length (Revised.cells p) = 3%nat /\
                           length (Revised.cells p) <> 4%nat.
Proof.
  eexists. split; [vm_compute; reflexivity|]. split; [discriminate|].
  intros p Hp. apply list_elem_of_In in Hp. simpl in Hp.
  destruct Hp as [<-|[<-|[]]]; split; (reflexivity || discriminate).
Qed.

(** ** Where the two programs agree *)

Lemma entriesOf_toItem (p : Revised.path) :
  Original.entriesOf (toItem p) = Some <$> Revised.cells p.
Proof. unfold toItem. by destruct (Revised.cells p) as [|b [|b' cs]]. Qed.

Lemma mapM_Ok_inv {A B : Type} (f : A -> outcome B) (l : list A) (bs : list B) :
  mapM f l = Ok bs -> Forall2 (fun a b => f a = Ok b) l bs.
Proof.
  revert bs. induction l as [|a l IH]; intros bs; simpl.
  - intros [= <-]. constructor.
  - destruct (f a) as [b| |] eqn:Hb; simpl; [|done|done].
    destruct (mapM f l) as [bs'| |]; simpl; [|done|done].
    intros [= <-]. constructor; [done|]. by apply IH.
Qed.

Lemma revised_paths_nonempty (fuel : nat) (dm : dataMap) (b : option box)
    (ps : list Revised.path) :
  Revised.getGoodPathsFromBox fuel dm b = Ok ps ->
  Forall (fun p => Revised.cells p <> []) ps.
Proof.
  destruct fuel as [|fuel]; [done|]. simpl. destruct b as [this|]; [|done].
  destruct (goodDirections this) as [gds|].
  2:{ intros [= <-]. by repeat constructor. }
  match goal with
  | |- context [mapM ?f gds] => destruct (mapM f gds) as [routes| |] eqn:Hroutes
  end; simpl; [|done|done].
  intros [= <-]. apply mapM_Ok_inv in Hroutes.
  apply Forall_forall. intros p Hp. apply elem_of_concat in Hp as (r & Hr & Hp).
  apply list_elem_of_lookup in Hr as [i Hi].
  destruct (Forall2_lookup_r _ _ _ _ _ Hroutes Hi) as (d & _ & Hd).
  destruct (Revised.getGoodPathsFromBox fuel dm (getNeighbourInDirection dm this d));
    simpl in Hd; [|done|done].
  injection Hd as <-. by apply list_elem_of_fmap in Hp as (one & -> & _).
Qed.

Section Agreement.
Variables (mountainMap : list (list Z)) (dm : dataMap).
Hypothesis Hsolved : solvedFor mountainMap dm.

Lemma original_forEach_direction (fuel : nat) (c : box) (todo : list direction) :
forall routes acc,
  (forall d, d ∈ todo ->
     exists n, getNeighbourInDirection dm c d = Some n /\
       forall psn, Revised.getGoodPathsFromBox fuel dm (Some n) = Ok psn ->
                   Original.getGoodPathsFromBox fuel dm (Some n) =
                   Ok (fmap (M := list) toItem psn)) ->
  mapM (M := outcome)
    (fun d =>
       mbind (M := outcome)
         (fun pathsFromNeighbour : list Revised.path =>
            mret (M := outcome)
              (fmap (M := list)
                 (fun one => Revised.Path (c :: Revised.cells one) None)
                 pathsFromNeighbour))
         (Revised.getGoodPathsFromBox fuel dm (getNeighbourInDirection dm c d)))
    todo = Ok routes ->
  forEachM
    (fun (all : list Original.item) (d : direction) =>
       mbind (M := outcome)
         (fun pathsFromNeighbour : list Original.item =>
            mret (M := outcome)
              (all ++ fmap (M := list)
                        (fun one => Original.Arr (Some c :: Original.entriesOf one) None)
                        pathsFromNeighbour))
         (Original.getGoodPathsFromBox fuel dm (getNeighbourInDirection dm c d)))
    todo acc =
  Ok (acc ++ fmap (M := list) toItem (concat routes)).
Proof.
induction todo as [|d todo IH]; intros routes acc Hnb Hroutes; simpl in *.
- injection Hroutes as <-. simpl. by rewrite app_nil_r.
- destruct (Hnb d) as (n & Hn & Hsame); [by left|]. rewrite Hn in *.
  destruct (Revised.getGoodPathsFromBox fuel dm (Some n)) as [psn| |] eqn:Hpsn;
    simpl in Hroutes; [|done|done].
  rewrite (Hsame psn eq_refl). simpl.
  match type of Hroutes with
  | context [mapM ?f todo] => destruct (mapM f todo) as [routes'| |] eqn:Hrest
  end; simpl in Hroutes; [|done|done].
  injection Hroutes as <-.
  rewrite (IH routes'); [|intros; apply Hnb; by right|done].
  f_equal. simpl. rewrite <- app_assoc. f_equal. rewrite fmap_app. f_equal.
  rewrite <- !list_fmap_compose. apply list_fmap_ext. intros i one Hone. simpl.
  rewrite entriesOf_toItem. unfold toItem. simpl.
  pose proof (revised_paths_nonempty _ _ _ _ Hpsn) as Hcells.
  rewrite Forall_forall in Hcells.
  specialize (Hcells one (list_elem_of_lookup_2 _ _ _ Hone)).
  by destruct (Revised.cells one).
Qed.

Lemma original_getGoodPathsFromBox (fuel : nat) :
forall cx cy c ps,
  getBoxAt dm cx cy = Some c ->
  Revised.getGoodPathsFromBox fuel dm (Some c) = Ok ps ->
  Original.getGoodPathsFromBox fuel dm (Some c) = Ok (toItem <$> ps).
Proof.
induction fuel as [|fuel IH]; intros cx cy c ps Hc Hrev; [done|].
simpl in *. destruct (goodDirections c) as [gds|] eqn:Hgds.
2:{ by injection Hrev as <-. }
pose proof (solved_goodDirections_length _ _ Hsolved _ _ _ _ Hc Hgds) as [Hlen _].
match type of Hrev with
| context [mapM ?f gds] => destruct (mapM f gds) as [routes| |] eqn:Hroutes
end; simpl in Hrev; [|done|done].
injection Hrev as <-.
pose proof (original_forEach_direction fuel c gds routes []) as Hgo.
destruct gds as [|d0 ds]; [simpl in Hlen; lia|].
apply Hgo; [|done]. intros d Hd.
destruct (solved_goodDirection _ _ Hsolved _ _ _ _ d Hc Hgds Hd)
  as (_ & n & kn & Hn & _).
exists n. split; [done|]. intros psn. by apply (IH _ _ n psn Hn).
Qed.

Lemma original_getGoodPathsFromStartPoints (fuel : nat) (starts : list box)
  (paths : list Revised.path) :
(forall s, s ∈ starts -> exists cx cy, getBoxAt dm cx cy = Some s) ->
Revised.getGoodPathsFromStartPoints fuel dm starts = Ok paths ->
Original.getGoodPathsFromStartPoints fuel dm starts = Ok (toItem <$> paths).
Proof.
unfold Revised.getGoodPathsFromStartPoints, Original.getGoodPathsFromStartPoints.
change (@nil Original.item) with (toItem <$> @nil Revised.path).
generalize (@nil Revised.path) as acc. revert paths.
induction starts as [|s starts IH]; intros paths acc Hin Hrev; simpl in *.
- by injection Hrev as <-.
- destruct (Revised.getGoodPathsFromBox fuel dm (Some s)) as [ps| |] eqn:Hps;
    simpl in Hrev; [|done|done].
  destruct (Hin s) as (cx & cy & Hs); [by left|].
  rewrite (original_getGoodPathsFromBox fuel _ _ s ps Hs Hps). simpl.
  rewrite <- fmap_app. apply IH; [|done]. intros s' Hs'. apply Hin. by right.
Qed.
End Agreement.

Lemma original_addSteepness (p : Revised.path) :
  Original.addSteepness (toArr p) = toArr <$> Revised.addSteepness p.
Proof.
  unfold Original.addSteepness, Revised.addSteepness, toArr.
  rewrite fmap_last. destruct (Revised.cells p) as [|c cs]; [done|]. simpl.
  by destruct (last (c :: cs)).
Qed.

Lemma original_mapM_addSteepness (paths : list Revised.path) :
  mapM Original.addSteepness (toArr <$> paths) =
  fmap (M := list) toArr <$> mapM Revised.addSteepness paths.
Proof.
  induction paths as [|p paths IH]; [done|].
  change (mapM Original.addSteepness (toArr <$> p :: paths)) with
    (y ← Original.addSteepness (toArr p);
     k ← mapM Original.addSteepness (toArr <$> paths); mret (y :: k)).
  change (mapM Revised.addSteepness (p :: paths)) with
    (y ← Revised.addSteepness p;
     k ← mapM Revised.addSteepness paths; mret (y :: k)).
  rewrite original_addSteepness, IH.
  destruct (Revised.addSteepness p); simpl; [|done|done].
  by destruct (mapM Revised.addSteepness paths).
Qed.

Lemma original_select (paths : list Revised.path) :
  Original.selectPathsWithGreatestSteepness (toArr <$> paths) =
  fmap (M := list) toArr <$> Revised.selectPathsWithGreatestSteepness paths.
Proof.
  unfold Original.selectPathsWithGreatestSteepness,
    Revised.selectPathsWithGreatestSteepness.
  rewrite original_mapM_addSteepness.
  destruct (mapM Revised.addSteepness paths) as [ws| |]; simpl; [|done|done].
  f_equal. rewrite <- list_fmap_compose. by rewrite filter_fmap.
Qed.

Lemma toItem_long (p : Revised.path) :
  (2 <= length (Revised.cells p))%nat -> toItem p = toArr p.
Proof.
  unfold toItem, toArr. destruct (Revised.cells p) as [|b [|b' cs]]; simpl; (done || lia).
Qed.

Lemma toItem_single (p : Revised.path) :
  length (Revised.cells p) = 1%nat -> exists b, toItem p = Original.Bare b.
Proof.
  unfold toItem. destruct (Revised.cells p) as [|b [|b' cs]]; simpl; [done| |done].
  intros _. by eexists.
Qed.

(** X20.  On a grid with at least one cell the revised program returns at
    least one path, as soon as the fuel exceeds the greatest distance.  Where
    that distance is at least 1 the original program returns the same
    paths; where it is 0, so that the longest paths have one cell, the
    original program throws. *)
Lemma programs_agree_beyond_single_cells (mountainMap : list (list Z)) (fuel : nat) :
  concat mountainMap <> [] ->
  exists dm best,
    solve mountainMap = Ok dm /\
    gridMaximum dm best /\
    (best < Z.of_nat fuel ->
     exists steepestPaths,
       Revised.processMap fuel mountainMap = Ok steepestPaths /\
       steepestPaths <> [] /\
       (1 <= best ->
        Original.processMap fuel mountainMap = Ok (toArr <$> steepestPaths)) /\
       (best = 0 -> Original.processMap fuel mountainMap = Throw TypeError)).
Proof.
  intros Hcells. destruct (solve_solved mountainMap) as (dm & Hrun & Hsolved).
  destruct (enumerate_best mountainMap dm fuel Hsolved Hcells)
    as (best & Hmax & Hstarts & Hne & Hpaths).
  exists dm, best. do 2 (split; [done|]). intros Hfuel.
  destruct (Hpaths Hfuel) as (paths & Hget & Hsome & Hgood).
  assert (Hlen : forall p, p ∈ paths ->
            Z.of_nat (length (Revised.cells p)) = best + 1).
  { intros p Hp. destruct (Hgood p Hp) as (s & Hs & Hmd & rest & Hp' & Hrest & _).
    apply elem_of_flatten in Hs as (cx & cy & Hat).
    destruct (solved_cell _ _ Hsolved _ _ _ Hat) as (_ & _ & _ & Hmd' & _).
    rewrite Hmd' in Hmd. injection Hmd as <-. rewrite Hp'. simpl. lia. }
  destruct Hmax as [(c0 & Hc0 & Hk0) _].
  assert (0 <= best) as Hbest.
  { apply elem_of_flatten in Hc0 as (cx & cy & Hat).
    by eapply (solved_distance_nonneg _ _ Hsolved). }
  destruct (selectPathsWithGreatestSteepness_core paths) as (out & Hsel & Hout).
  { done. }
  { apply Forall_forall. intros p Hp Hnil. specialize (Hlen p Hp).
    rewrite Hnil in Hlen. simpl in Hlen. lia. }
  assert (Original.getGoodPathsFromStartPoints fuel dm (findBestStartPoints dm)
          = Ok (toItem <$> paths)) as Horig.
  { apply (original_getGoodPathsFromStartPoints _ _ Hsolved); [|done].
    intros s Hs. rewrite Hstarts in Hs. apply list_elem_of_filter in Hs as [_ Hs].
    by apply elem_of_flatten. }
  exists out. unfold Revised.processMap, Original.processMap.
  rewrite Hrun. simpl. rewrite Hget, Horig. simpl. rewrite Hsel.
  split; [done|]. split; [done|]. split.
  - intros Hpos.
    assert (toItem <$> paths = toArr <$> paths) as ->.
    { apply Forall_fmap_ext, Forall_forall. intros p Hp. apply toItem_long.
      specialize (Hlen p Hp). lia. }
    rewrite original_select, Hsel. simpl. by destruct out.
  - intros ->. destruct paths as [|p paths]; [done|].
    destruct (toItem_single p) as [b Hb].
    { specialize (Hlen p). rewrite elem_of_cons in Hlen.
      specialize (Hlen (or_introl eq_refl)). lia. }
    simpl. unfold Original.selectPathsWithGreatestSteepness. simpl. by rewrite Hb.
Qed.

(** * Further properties of the code *)

(** ** The data map and its lookups *)

(** X1.  [createDataMap] followed by [getBoxAt]: at every position, also a
    negative one or one past the end of a ragged row, the lookup gives the
    box that names this very position, carries the elevation the grid has
    there and has neither distance nor directions yet, and gives nothing
    where the grid has no entry. *)
Theorem createDataMap_getBoxAt (mountainMap : list (list Z)) (cx cy : Z) :
  getBoxAt (createDataMap mountainMap) cx cy =
  (fun elev => Box cx cy elev None None) <$> elevationAt mountainMap cx cy.
Proof. apply getBoxAt_createDataMap. Qed.

Lemma fmap_mapi {A B C : Type} (g : B -> C) (f : A -> Z -> B) (l : list A) (i0 : Z) :
  g <$> mapi f l i0 = mapi (fun a i => g (f a i)) l i0.
Proof.
  revert i0. induction l as [|a l IH]; intros i0; csimpl; [done|].
  by rewrite IH.
Qed.

Lemma mapi_const {A : Type} (l : list A) (i0 : Z) : mapi (fun a _ => a) l i0 = l.
Proof.
  revert i0. induction l as [|a l IH]; intros i0; simpl; [done|]. by rewrite IH.
Qed.

(** X2.  [createDataMap] keeps the grid: the elevations of the boxes, row
    by row, are the input, whatever the lengths of the rows. *)
Theorem createDataMap_elevations (mountainMap : list (list Z)) :
  fmap (M := list) elevation <$> createDataMap mountainMap = mountainMap.
Proof.
  unfold createDataMap. rewrite fmap_mapi.
  rewrite <- (mapi_const mountainMap 0) at 2.
  generalize 0 at 2 3. induction mountainMap as [|row rows IH]; intros j0; simpl; [done|].
  rewrite IH. f_equal. rewrite fmap_mapi. apply mapi_const.
Qed.

(** X3.  [getBoxAt] handles every pair of numbers: it finds a box exactly
    when the row index is that of a row and the column index lies within
    this row, and gives [undefined] otherwise, for negative indices as
    well. *)
Theorem getBoxAt_in_bounds (dm : dataMap) (cx cy : Z) :
  is_Some (getBoxAt dm cx cy) <->
  exists row, 0 <= cy /\ dm !! Z.to_nat cy = Some row /\
              0 <= cx < Z.of_nat (length row).
Proof.
  split.
  - intros [c Hc]. apply getBoxAt_Some in Hc as (Hx & Hy & row & Hrow & Hc).
    exists row. split; [done|]. split; [done|].
    apply lookup_lt_Some in Hc. lia.
  - intros (row & Hy & Hrow & Hx).
    destruct (lookup_lt_is_Some_2 row (Z.to_nat cx)) as [c Hc]; [lia|].
    exists c. apply getBoxAt_Some. split; [lia|]. split; [done|]. eauto.
Qed.

(** ** One call of [processBox], on any data map *)

Lemma setBoxAt_id (dm : dataMap) (cx cy : Z) (c : box) :
  getBoxAt dm cx cy = Some c -> setBoxAt dm cx cy c = dm.
Proof.
  intros Hc. apply getBoxAt_Some in Hc as (Hx & Hy & row & Hrow & Hc).
  unfold setBoxAt. rewrite decide_True by done.
  apply list_eq. intros j. rewrite list_lookup_alter.
  case_decide as Hj; [|done]. subst j. rewrite Hrow. simpl.
  by rewrite list_insert_id.
Qed.

Lemma setBoxAt_shape (dm : dataMap) (cx cy : Z) (c : box) :
  length <$> setBoxAt dm cx cy c = length <$> dm.
Proof.
  unfold setBoxAt. case_decide; [|done].
  apply list_eq. intros j. rewrite !list_lookup_fmap, list_lookup_alter.
  case_decide; [|done]. subst j.
  destruct (dm !! Z.to_nat cy); simpl; [|done]. by rewrite length_insert.
Qed.

Lemma scan_from (dm : dataMap) (b : box) (g0 : option (list direction))
    (ds : list direction) :
  (forall d v, d ∈ ds -> candidate dm b d = Some v -> 1 <= v) ->
  scan dm b ds (Some 0, g0) =
  Ok (Some (bestOf dm b ds),
      if decide (bestOf dm b ds = 0) then g0 else Some (goodOf dm b ds)).
Proof.
  unfold scan.
  induction ds as [|d ds IH] using rev_ind; intros Hpos; [done|].
  rewrite forEachM_app, IH; clear IH.
  2:{ intros d' v Hd'. apply Hpos. rewrite elem_of_app. by left. }
  simpl. unfold scanStep, goodOf. rewrite bestOf_snoc, filter_app.
  rewrite (filter_singleton _ d []).
  pose proof (bestOf_nonneg dm b ds) as Hnn.
  destruct (candidate dm b d) as [v|] eqn:Hv; simpl.
  2:{ destruct (decide (None = Some (bestOf dm b ds))); [done|].
      by rewrite app_nil_r. }
  assert (1 <= v) as Hv1.
  { apply (Hpos d); [|done]. rewrite elem_of_app, list_elem_of_singleton. by right. }
  unfold js_gt, js_ge.
  destruct (decide (bestOf dm b ds < v)) as [Hlt|Hge].
  - rewrite bool_decide_true by done. simpl.
    rewrite bool_decide_true by lia. simpl.
    rewrite Z.max_r by lia. rewrite filter_above_best by done.
    destruct (decide (v = 0)); [lia|].
    by destruct (decide (Some v = Some v)).
  - rewrite bool_decide_false by done. simpl.
    rewrite Z.max_l by lia.
    destruct (decide (v = bestOf dm b ds)) as [->|Hne].
    + rewrite bool_decide_true by lia.
      destruct (decide (bestOf dm b ds = 0)); [lia|]. simpl.
      by destruct (decide (Some (bestOf dm b ds) = Some (bestOf dm b ds))).
    + rewrite bool_decide_false by lia.
      destruct (decide (Some v = Some (bestOf dm b ds))); [congruence|].
      by rewrite app_nil_r.
Qed.

Lemma nonNegative_candidate (dm : dataMap) (b : box) (d : direction) (v : Z) :
  nonNegative dm -> candidate dm b d = Some v -> 1 <= v.
Proof.
  intros Hnn Hv. apply candidate_inv in Hv as (n & k & Hn & _ & Hk & ->).
  specialize (Hnn _ _ _ _ Hn Hk). lia.
Qed.

Lemma processBox_present (dm : dataMap) (b cur : box) :
  nonNegative dm -> deref dm b = Some cur ->
  processBox b dm =
  Ok (setBoxAt dm (x b) (y b) (withFields cur (fieldsFrom dm b (goodDirections cur)))).
Proof.
  intros Hnn Hb. rewrite (processBox_scan dm b cur Hb).
  rewrite scan_from; [done|]. intros d v _. by apply nonNegative_candidate.
Qed.

Lemma visitDirections_absent (dm : dataMap) (b : box) (ds : list direction) :
  deref dm b = None -> forEachM (visitDirection b) ds dm = Ok dm.
Proof.
  intros Hb. induction ds as [|d ds IH]; [done|]. simpl.
  assert (visitDirection b dm d = Ok dm) as ->; [|exact IH].
  unfold visitDirection. destruct (getNeighbourInDirection dm b d) as [n|]; [|done].
  case_bool_decide; [|done]. cbv zeta. rewrite Hb. simpl.
  assert (forall a, js_gt a None = false) as Hgt by (by intros [?|]).
  assert (forall a, js_ge a None = false) as Hge by (by intros [?|]).
  rewrite Hgt, Hb. simpl. by rewrite Hge.
Qed.

Lemma processBox_absent (dm : dataMap) (b : box) :
  deref dm b = None -> processBox b dm = Ok dm.
Proof.
  intros Hb. unfold processBox, mutate. rewrite Hb.
  by apply visitDirections_absent.
Qed.






(** With a negative distance in the data map [processBox] can throw: the
    offered distance 0 is not above the reset distance, yet not below it,
    and [push] meets no array. *)
Example processBox_throws :
  processBox (Box 0 0 2 None None)
    [[Box 0 0 2 None None; Box 1 0 1 (Some (-1)) None]] = Throw TypeError.
Proof. vm_compute. reflexivity. Qed.

Lemma length_mapi {A B : Type} (f : A -> Z -> B) (l : list A) (i0 : Z) :
  length (mapi f l i0) = length l.
Proof.
  revert i0. induction l as [|a l IH]; intros i0; simpl; [done|]. by rewrite IH.
Qed.

Lemma createRows_shape (rows : list (list Z)) (j0 : Z) :
  length <$> mapi (fun row cy =>
                     mapi (fun elev cx => Box cx cy elev None None) row 0)
                  rows j0 = length <$> rows.
Proof.
  revert j0. induction rows as [|row rows IH]; intros j0; csimpl; [done|].
  by rewrite length_mapi, IH.
Qed.

Lemma createDataMap_elevations_shape (mountainMap : list (list Z)) :
  length <$> createDataMap mountainMap = length <$> mountainMap.
Proof. apply createRows_shape. Qed.

(** ** The solver loop, on any work list *)

Lemma createDataMap_nonNegative (mountainMap : list (list Z)) :
  nonNegative (createDataMap mountainMap).
Proof.
  intros cx cy c k Hc. by apply createDataMap_cell in Hc as (elev & _ & ->).
Qed.

Lemma processBox_keeps (mountainMap : list (list Z)) (b : box) (dm : dataMap) :
  nonNegative dm -> wellPlaced dm ->
  (forall cx cy, elevation <$> getBoxAt dm cx cy = elevationAt mountainMap cx cy) ->
  exists dm',
    processBox b dm = Ok dm' /\ nonNegative dm' /\ wellPlaced dm' /\
    (forall cx cy, elevation <$> getBoxAt dm' cx cy = elevationAt mountainMap cx cy) /\
    length <$> dm' = length <$> dm.
Proof.
  intros Hnn Hwp Hel. destruct (deref dm b) as [cur|] eqn:Hb.
  2:{ exists dm. by rewrite processBox_absent. }
  eexists. split; [by apply processBox_present|].
  destruct (Hwp _ _ _ Hb) as [Hx Hy].
  assert (Hat : forall cx cy c,
            getBoxAt (setBoxAt dm (x b) (y b)
                        (withFields cur (fieldsFrom dm b (goodDirections cur)))) cx cy
            = Some c ->
            (cx, cy) = (x b, y b) /\
              c = withFields cur (fieldsFrom dm b (goodDirections cur)) \/
            (cx, cy) <> (x b, y b) /\ getBoxAt dm cx cy = Some c).
  { intros cx cy c Hc. destruct (decide ((x b, y b) = (cx, cy))) as [Heq|Hne].
    - injection Heq as <- <-. rewrite getBoxAt_setBoxAt_eq in Hc by eauto.
      injection Hc as <-. by left.
    - rewrite getBoxAt_setBoxAt_ne in Hc by done. right. split; [congruence|done]. }
  split; [|split; [|split]].
  - intros cx cy c k Hc Hk. apply Hat in Hc as [[_ ->]|[_ Hc]].
    + injection Hk as <-. apply bestOf_nonneg.
    + by eapply Hnn.
  - intros cx cy c Hc. apply Hat in Hc as [[[= -> ->] ->]|[_ Hc]]; [done|].
    by eapply Hwp.
  - intros cx cy. destruct (decide ((x b, y b) = (cx, cy))) as [[= <- <-]|Hne].
    + rewrite getBoxAt_setBoxAt_eq by eauto. rewrite <- Hel. unfold deref in Hb.
      by rewrite Hb.
    + by rewrite getBoxAt_setBoxAt_ne.
  - apply setBoxAt_shape.
Qed.

Lemma solveInOrder_runs (mountainMap : list (list Z)) (order : list box) :
  exists dm,
    solveInOrder order (createDataMap mountainMap) = Ok dm /\
    length <$> dm = length <$> mountainMap /\
    (forall cx cy, elevation <$> getBoxAt dm cx cy = elevationAt mountainMap cx cy) /\
    wellPlaced dm /\ nonNegative dm.
Proof.
  assert (forall dm,
    nonNegative dm -> wellPlaced dm ->
    (forall cx cy, elevation <$> getBoxAt dm cx cy = elevationAt mountainMap cx cy) ->
    exists dm',
      solveInOrder order dm = Ok dm' /\ length <$> dm' = length <$> dm /\
      (forall cx cy, elevation <$> getBoxAt dm' cx cy = elevationAt mountainMap cx cy) /\
      wellPlaced dm' /\ nonNegative dm') as Hloop.
  { induction order as [|b order IH]; intros dm Hnn Hwp Hel.
    - exists dm. do 3 (split; [done|]). by split.
    - destruct (processBox_keeps mountainMap b dm Hnn Hwp Hel)
        as (dm1 & Hrun & Hnn1 & Hwp1 & Hel1 & Hshape1).
      destruct (IH dm1 Hnn1 Hwp1 Hel1) as (dm' & Hrest & Hshape & ? & ? & ?).
      exists dm'. split; [|split; [congruence|done]].
      unfold solveInOrder in *. simpl. by rewrite Hrun. }
  destruct (Hloop (createDataMap mountainMap)) as (dm & Hrun & Hshape & Hrest).
  - apply createDataMap_nonNegative.
  - intros cx cy c Hc. by apply createDataMap_cell in Hc as (elev & _ & ->).
  - intros cx cy. rewrite getBoxAt_createDataMap.
    by destruct (elevationAt mountainMap cx cy).
  - exists dm. split; [done|]. split; [|done]. rewrite Hshape.
    rewrite <- (createDataMap_elevations_shape mountainMap). done.
Qed.

(** X6.  The loop of [processMap] over the boxes never throws, in whatever
    order the boxes come and however often one occurs: sorting is needed
    for the distances to be right, not for the loop to run.  The data map
    keeps its shape, its positions and its elevations, and no distance is
    negative. *)
Theorem solveInOrder_never_throws (mountainMap : list (list Z)) (order : list box) :
  exists dm,
    solveInOrder order (createDataMap mountainMap) = Ok dm /\
    length <$> dm = length <$> mountainMap /\
    (forall cx cy, elevation <$> getBoxAt dm cx cy = elevationAt mountainMap cx cy) /\
    wellPlaced dm /\ nonNegative dm.
Proof. apply solveInOrder_runs. Qed.

(** ** Solved data maps *)

Lemma solved_nonNegative (mountainMap : list (list Z)) (dm : dataMap) :
  solvedFor mountainMap dm -> nonNegative dm.
Proof. intros Hsolved cx cy c k. by apply (solved_distance_nonneg _ _ Hsolved). Qed.

Lemma processBox_solved (mountainMap : list (list Z)) (dm : dataMap) (b c : box) :
  solvedFor mountainMap dm ->
  deref dm b = Some c -> elevation c = elevation b ->
  processBox b dm = Ok dm.
Proof.
  intros Hsolved Hb Hel.
  rewrite (processBox_present dm b c) by (done || by eapply solved_nonNegative).
  f_equal. apply setBoxAt_id.
  destruct (solved_cell _ _ Hsolved _ _ _ Hb) as (Hx & Hy & _ & Hmd & Hgd).
  unfold deref in Hb. rewrite Hb. f_equal.
  assert (bestOf dm b DIRECTIONS = bestOf dm c DIRECTIONS) as Hbest.
  { apply bestOf_ext. intros d _. by apply candidate_ground. }
  assert (goodOf dm b DIRECTIONS = goodOf dm c DIRECTIONS) as Hgood.
  { apply goodOf_ext. intros d _. by apply candidate_ground. }
  unfold fieldsFrom, withFields. simpl. rewrite Hbest, Hgood.
  destruct (decide (bestOf dm c DIRECTIONS = 0)); rewrite <- ?Hgd, <- Hmd;
    by destruct c.
Qed.

(** X7.  Running the loop of [processMap] once more over a solved data map
    changes nothing, for the same work list as for any other list of boxes
    of the map: a second pass finds every distance and every list of good
    directions as it left them. *)
Theorem solveInOrder_again (mountainMap : list (list Z)) (dm : dataMap)
    (order : list box) :
  solvedFor mountainMap dm ->
  Forall (fun b => elevation <$> deref dm b = Some (elevation b)) order ->
  solveInOrder order dm = Ok dm.
Proof.
  intros Hsolved Horder. unfold solveInOrder.
  induction Horder as [|b order Hb _ IH]; [done|]. simpl.
  destruct (deref dm b) as [c|] eqn:Hc; [|done]. injection Hb as Hb.
  by rewrite (processBox_solved mountainMap dm b c).
Qed.

Lemma solveInOrder_again_witness :
  exists dm,
    solve grid2x2 = Ok dm /\
    solveInOrder (flatten (createDataMap grid2x2)) dm = Ok dm.
Proof.
  destruct (solve_solved grid2x2) as (dm & Hrun & Hsolved).
  exists dm. split; [exact Hrun|].
  apply (solveInOrder_again grid2x2); [exact Hsolved|].
  vm_compute in Hrun. injection Hrun as <-.
  repeat constructor.
Defined.

Lemma solved_distance_unique (mountainMap : list (list Z)) (dm dm' : dataMap)
    (cx cy : Z) (c c' : box) :
  solvedFor mountainMap dm -> solvedFor mountainMap dm' ->
  getBoxAt dm cx cy = Some c -> getBoxAt dm' cx cy = Some c' ->
  bestOf dm c DIRECTIONS <= bestOf dm' c' DIRECTIONS.
Proof.
  intros Hs Hs' Hc Hc'.
  destruct (route_exists _ _ Hs (Z.to_nat (bestOf dm c DIRECTIONS)) cx cy c Hc)
    as (rest & Hrest & Hlen).
  { pose proof (bestOf_nonneg dm c DIRECTIONS). lia. }
  pose proof (route_bound _ _ Hs' rest cx cy c' Hc' Hrest).
  pose proof (bestOf_nonneg dm c DIRECTIONS). lia.
Qed.

Lemma solved_unique (mountainMap : list (list Z)) (dm dm' : dataMap) :
  solvedFor mountainMap dm -> solvedFor mountainMap dm' ->
  forall cx cy, getBoxAt dm cx cy = getBoxAt dm' cx cy.
Proof.
  intros Hs Hs'.
  assert (Hsame : forall cx cy,
            elevation <$> getBoxAt dm cx cy = elevation <$> getBoxAt dm' cx cy).
  { intros cx cy. destruct Hs as (Hel & _), Hs' as (Hel' & _). by rewrite Hel, Hel'. }
  assert (Hmd : forall cx cy c c',
            getBoxAt dm cx cy = Some c -> getBoxAt dm' cx cy = Some c' ->
            x c = x c' /\ y c = y c' /\ elevation c = elevation c' /\
            maxDistance c = maxDistance c').
  { intros cx cy c c' Hc Hc'.
    destruct (solved_cell _ _ Hs _ _ _ Hc) as (Hx & Hy & _ & Hk & _).
    destruct (solved_cell _ _ Hs' _ _ _ Hc') as (Hx' & Hy' & _ & Hk' & _).
    pose proof (Hsame cx cy) as He. rewrite Hc, Hc' in He. injection He as He.
    split; [congruence|]. split; [congruence|]. split; [done|].
    rewrite Hk, Hk'. f_equal.
    pose proof (solved_distance_unique _ _ _ _ _ _ _ Hs Hs' Hc Hc').
    pose proof (solved_distance_unique _ _ _ _ _ _ _ Hs' Hs Hc' Hc). lia. }
  intros cx cy.
  destruct (getBoxAt dm cx cy) as [c|] eqn:Hc, (getBoxAt dm' cx cy) as [c'|] eqn:Hc';
    try done.
  2:{ pose proof (Hsame cx cy) as He. by rewrite Hc, Hc' in He. }
  2:{ pose proof (Hsame cx cy) as He. by rewrite Hc, Hc' in He. }
  destruct (Hmd _ _ _ _ Hc Hc') as (Hx & Hy & He & _).
  destruct Hs as (_ & _ & Hset), Hs' as (_ & _ & Hset').
  rewrite (Hset _ _ _ Hc), (Hset' _ _ _ Hc'). unfold settle, withFields.
  rewrite Hx, Hy, He.
  rewrite (settledFields_ext dm dm' c c' DIRECTIONS); [done|].
  intros d _. unfold candidate, getNeighbourInDirection. rewrite Hx, Hy, He.
  destruct (getBoxAt dm (x c' + d.1) (y c' + d.2)) as [n|] eqn:Hn,
           (getBoxAt dm' (x c' + d.1) (y c' + d.2)) as [n'|] eqn:Hn'; try done.
  - destruct (Hmd _ _ _ _ Hn Hn') as (_ & _ & -> & ->). done.
  - pose proof (Hsame (x c' + d.1) (y c' + d.2)) as Hq. by rewrite Hn, Hn' in Hq.
  - pose proof (Hsame (x c' + d.1) (y c' + d.2)) as Hq. by rewrite Hn, Hn' in Hq.
Qed.

Lemma at_index_nat {A : Type} (l : list A) (i : nat) :
  at_index l (Z.of_nat i) = l !! i.
Proof. unfold at_index. rewrite decide_True by lia. by rewrite Nat2Z.id. Qed.

Lemma dataMap_eq (dm dm' : dataMap) :
  length <$> dm = length <$> dm' ->
  (forall cx cy, getBoxAt dm cx cy = getBoxAt dm' cx cy) ->
  dm = dm'.
Proof.
  intros Hshape Hat. apply list_eq. intros j.
  pose proof (f_equal (fun l => l !! j) Hshape) as Hj. simpl in Hj.
  rewrite !list_lookup_fmap in Hj.
  destruct (dm !! j) as [row|] eqn:Hrow, (dm' !! j) as [row'|] eqn:Hrow'; try done.
  f_equal. apply list_eq. intros i.
  specialize (Hat (Z.of_nat i) (Z.of_nat j)).
  unfold getBoxAt in Hat. rewrite !at_index_nat, Hrow, Hrow' in Hat. simpl in Hat.
  by rewrite !at_index_nat in Hat.
Qed.

(** X8.  The order in which cells of equal elevation are processed does
    not matter: any two work lists that hold the cells in ascending order
    of elevation lead to the same data map.  So the result does not depend
    on how [sort] treats ties. *)
Theorem ties_do_not_matter (mountainMap : list (list Z)) (order order' : list box) :
  order ≡ₚ flatten (createDataMap mountainMap) ->
  StronglySorted lowerOrLevel order ->
  order' ≡ₚ flatten (createDataMap mountainMap) ->
  StronglySorted lowerOrLevel order' ->
  exists dm,
    solveInOrder order (createDataMap mountainMap) = Ok dm /\
    solveInOrder order' (createDataMap mountainMap) = Ok dm.
Proof.
  intros Hperm Hsort Hperm' Hsort'.
  destruct (solveInOrder_solved mountainMap order Hperm Hsort) as (dm & Hrun & Hs).
  destruct (solveInOrder_solved mountainMap order' Hperm' Hsort') as (dm' & Hrun' & Hs').
  exists dm. split; [done|]. rewrite Hrun'. f_equal. symmetry.
  destruct (solveInOrder_runs mountainMap order) as (dm1 & Hrun1 & Hshape1 & _).
  destruct (solveInOrder_runs mountainMap order') as (dm2 & Hrun2 & Hshape2 & _).
  rewrite Hrun in Hrun1. rewrite Hrun' in Hrun2.
  injection Hrun1 as <-. injection Hrun2 as <-.
  apply dataMap_eq; [congruence|]. by apply (solved_unique mountainMap).
Qed.

Lemma ties_do_not_matter_witness :
  exists dm,
    solveInOrder (flatten (createDataMap [[1; 1]; [2; 2]]))
      (createDataMap [[1; 1]; [2; 2]]) = Ok dm /\
    solveInOrder [Box 1 0 1 None None; Box 0 0 1 None None;
                  Box 1 1 2 None None; Box 0 1 2 None None]
      (createDataMap [[1; 1]; [2; 2]]) = Ok dm.
Proof.
  apply ties_do_not_matter.
  - reflexivity.
  - repeat constructor; unfold lowerOrLevel; simpl; lia.
  - simpl. rewrite (Permutation_swap (Box 1 0 1 None None)).
    do 2 apply Permutation_skip. apply Permutation_swap.
  - repeat constructor; unfold lowerOrLevel; simpl; lia.
Defined.

(** ** Start points *)

Lemma bestStep_floor (l : list box) : -1 <= (foldl bestStep (-1, []) l).1.
Proof.
  induction l as [|b l IH] using rev_ind; [done|].
  rewrite foldl_snoc. destruct (foldl bestStep (-1, []) l) as [best acc].
  rewrite bestStep_cases. simpl in IH.
  destruct (maxDistance b) as [v|]; [|done].
  destruct (decide (best < v)); [simpl; lia|]. by destruct (decide (v = best)).
Qed.

(** X9.  On any data map, solved or not, [findBestStartPoints] returns the
    boxes whose distance is the greatest one stored, in scan order; boxes
    without a distance are passed over, and so are distances below the
    initial -1.  It returns no box exactly when no box has a distance of
    -1 or more, as on a data map that has not been solved. *)
Theorem findBestStartPoints_on_any_map (dm : dataMap) :
  findBestStartPoints dm =
    filter (fun c => maxDistance c = Some (bestScan dm).1) (flatten dm) /\
  -1 <= (bestScan dm).1 /\
  (forall c k, c ∈ flatten dm -> maxDistance c = Some k -> k <= (bestScan dm).1) /\
  (findBestStartPoints dm = [] <->
   forall c k, c ∈ flatten dm -> maxDistance c = Some k -> k < -1).
Proof.
  unfold findBestStartPoints, bestScan. rewrite foldl_rows. fold (flatten dm).
  destruct (bestStep_spec (flatten dm)) as (Hacc & Hup & Hatt).
  pose proof (bestStep_floor (flatten dm)) as Hfloor. simpl in *.
  split; [done|]. split; [done|]. split; [done|].
  rewrite Hacc. split.
  - intros Hnil c k Hc Hk. destruct (decide (k < -1)) as [|Hk']; [done|]. exfalso.
    destruct Hatt as [Hbest|(b & Hb & Hbest)].
    + specialize (Hup _ _ Hc Hk).
      assert (k = (foldl bestStep (-1, []) (flatten dm)).1) as -> by lia.
      by eapply (filter_nil_not_elem_of _ _ c).
    + by eapply (filter_nil_not_elem_of _ _ b).
  - intros Hlow. apply filter_none. intros c Hc Hk.
    specialize (Hlow _ _ Hc Hk). lia.
Qed.

Lemma opposite_direction (d : direction) : d ∈ DIRECTIONS -> opposite d ∈ DIRECTIONS.
Proof.
  unfold DIRECTIONS. rewrite !elem_of_cons, elem_of_nil.
  intros [->|[->|[->|[->|[]]]]]; unfold opposite; simpl; tauto.
Qed.

(** The neighbour relation is symmetric: from the neighbour the opposite
    direction leads back. *)
Lemma neighbour_back (dm : dataMap) (c n : box) (d : direction) :
  wellPlaced dm -> getBoxAt dm (x c) (y c) = Some c ->
  getNeighbourInDirection dm c d = Some n ->
  getNeighbourInDirection dm n (opposite d) = Some c.
Proof.
  intros Hwp Hc Hn. unfold getNeighbourInDirection in *.
  destruct (Hwp _ _ _ Hn) as [-> ->]. unfold opposite. simpl.
  by replace (x c + d.1 + - d.1) with (x c) by lia;
     replace (y c + d.2 + - d.2) with (y c) by lia.
Qed.

(** X10.  A best start point is a peak: in the solved data map none of its
    neighbours is strictly higher, for a higher neighbour would have a
    greater distance. *)
Theorem best_start_points_are_peaks (mountainMap : list (list Z)) (dm : dataMap)
    (s n : box) (d : direction) :
  solve mountainMap = Ok dm ->
  s ∈ findBestStartPoints dm -> d ∈ DIRECTIONS ->
  getNeighbourInDirection dm s d = Some n ->
  elevation n <= elevation s.
Proof.
  intros Hrun Hs Hd Hn.
  destruct (solve_solved mountainMap) as (dm' & Hrun' & Hsolved).
  rewrite Hrun in Hrun'. injection Hrun' as <-.
  unfold findBestStartPoints, bestScan in Hs. rewrite foldl_rows in Hs.
  fold (flatten dm) in Hs.
  destruct (bestStep_spec (flatten dm)) as (Hacc & Hup & _). simpl in *.
  rewrite Hacc in Hs. apply list_elem_of_filter in Hs as [Hbest Hs].
  apply elem_of_flatten in Hs as (cx & cy & Hat).
  pose proof (solved_deref _ _ Hsolved _ _ _ Hat) as Hself.
  destruct (decide (elevation n <= elevation s)) as [|Hhigher]; [done|]. exfalso.
  pose proof Hsolved as (_ & Hwp & _).
  pose proof (neighbour_back dm s n d Hwp Hself Hn) as Hback.
  pose proof Hn as Hn'. unfold getNeighbourInDirection in Hn'.
  destruct (solved_cell _ _ Hsolved _ _ _ Hn') as (_ & _ & _ & Hmd & _).
  assert (n ∈ flatten dm) as Hin by (apply elem_of_flatten; eauto).
  specialize (Hup _ _ Hin Hmd).
  assert (candidate dm n (opposite d) = Some ((foldl bestStep (-1, []) (flatten dm)).1 + 1))
    as Hcand by (eapply candidate_intro; [done|lia|done]).
  pose proof (bestOf_upper dm n DIRECTIONS _ _ (opposite_direction d Hd) Hcand). lia.
Qed.

Lemma best_start_points_are_peaks_witness :
  elevation (Box 1 0 3 (Some 1) (Some [(0, 1)])) <=
  elevation (Box 0 0 4 (Some 2) (Some [(0, 1); (1, 0)])).
Proof.
  apply (best_start_points_are_peaks grid2x2
           [[Box 0 0 4 (Some 2) (Some [(0, 1); (1, 0)]); Box 1 0 3 (Some 1) (Some [(0, 1)])];
            [Box 0 1 2 (Some 1) (Some [(1, 0)]); Box 1 1 1 (Some 0) None]]
           _ _ (1, 0)).
  - vm_compute. reflexivity.
  - vm_compute. left.
  - vm_compute. right. right. left.
  - vm_compute. reflexivity.
Defined.

(** ** The enumerated paths and the routes of the grid *)

Lemma skiable_cells (dm : dataMap) (cs : list box) (c : box) :
  skiable dm cs = true -> c ∈ cs -> getBoxAt dm (x c) (y c) = Some c.
Proof.
  induction cs as [|a cs IH]; intros Hski Hc; [by apply elem_of_nil in Hc|].
  simpl in Hski. rewrite !andb_true_iff in Hski. destruct Hski as [[Ha _] Hrest].
  apply elem_of_cons in Hc as [->|Hc]; [by apply bool_decide_eq_true in Ha|auto].
Qed.

Section Exact.
Variables (mountainMap : list (list Z)) (dm : dataMap).
Hypothesis Hsolved : solvedFor mountainMap dm.

Lemma skiable_descending (cs : list box) :
  forall c, skiable dm (c :: cs) = true ->
            descending mountainMap (positionOf c) (positionOf <$> cs) = true.
Proof.
  induction cs as [|b cs IH]; intros c Hski.
  - simpl in *. rewrite !andb_true_iff in Hski. destruct Hski as [[Hc _] _].
    apply bool_decide_eq_true in Hc. apply bool_decide_eq_true.
    destruct (solved_cell _ _ Hsolved _ _ _ Hc) as (_ & _ & He & _). by rewrite He.
  - pose proof (skiable_cells dm _ c Hski ltac:(by left)) as Hc.
    pose proof (skiable_cells dm _ b Hski ltac:(right; by left)) as Hb.
    destruct (solved_cell _ _ Hsolved _ _ _ Hc) as (_ & _ & He & _).
    destruct (solved_cell _ _ Hsolved _ _ _ Hb) as (_ & _ & He' & _).
    change (skiable dm (c :: b :: cs)) with
      (bool_decide (getBoxAt dm (x c) (y c) = Some c) &&
       (adjacent (x c, y c) (x b, y b) && bool_decide (elevation b < elevation c)) &&
       skiable dm (b :: cs)) in Hski.
    rewrite !andb_true_iff in Hski. destruct Hski as [[_ [Hadj Hlt]] Hrest].
    rewrite fmap_cons. simpl. rewrite (IH b Hrest), andb_true_r.
    unfold positionOf at 1 2 3 4. rewrite Hadj. simpl.
    unfold lowerAt. simpl. by rewrite He, He'.
Qed.

Lemma getGoodPathsFromBox_exact (fuel : nat) :
  forall cx cy c,
    getBoxAt dm cx cy = Some c ->
    bestOf dm c DIRECTIONS < Z.of_nat fuel ->
    exists ps,
      Revised.getGoodPathsFromBox fuel dm (Some c) = Ok ps /\
      (forall p, p ∈ ps -> goodPathFrom dm c p) /\
      forall rest,
        descending mountainMap (cx, cy) rest = true ->
        Z.of_nat (length rest) = bestOf dm c DIRECTIONS ->
        exists p, p ∈ ps /\ positionOf <$> Revised.cells p = (cx, cy) :: rest.
Proof.
  induction fuel as [|fuel IH]; intros cx cy c Hc Hfuel.
  { pose proof (bestOf_nonneg dm c DIRECTIONS). lia. }
  destruct (getGoodPathsFromBox_good _ _ Hsolved (S fuel) cx cy c Hc Hfuel)
    as (ps & Hps & _ & Hgood).
  exists ps. split; [done|]. split; [done|].
  destruct (solved_cell _ _ Hsolved _ _ _ Hc) as (Hx & Hy & He & Hmd & Hgd).
  intros rest Hroute Hlen. destruct rest as [|q rest].
  - simpl in Hlen, Hps. rewrite Hgd, decide_True in Hps by done.
    injection Hps as <-. eexists. split; [by left|]. simpl.
    unfold positionOf. by rewrite Hx, Hy.
  - simpl in Hroute. rewrite !andb_true_iff in Hroute.
    destruct Hroute as [[Hadj Hlow] Hrest].
    apply adjacent_direction in Hadj as (d & Hd & ->).
    unfold lowerAt in Hlow. simpl in Hlow. rewrite He in Hlow.
    destruct (elevationAt mountainMap (cx + d.1) (cy + d.2)) as [e'|] eqn:He'; [|done].
    apply bool_decide_eq_true in Hlow.
    destruct (solved_lookup _ _ Hsolved _ _ _ He') as (n & Hn & <-).
    destruct (solved_cell _ _ Hsolved _ _ _ Hn) as (_ & _ & _ & Hnmd & _).
    pose proof (route_bound _ _ Hsolved rest _ _ n Hn Hrest) as Hbound.
    assert (getNeighbourInDirection dm c d = Some n) as Hnb.
    { unfold getNeighbourInDirection. by rewrite Hx, Hy. }
    pose proof (candidate_intro dm c n d _ Hnb Hlow Hnmd) as Hcand.
    pose proof (bestOf_upper dm c DIRECTIONS d _ Hd Hcand) as Hup.
    simpl in Hlen.
    assert (bestOf dm n DIRECTIONS = Z.of_nat (length rest)) as Hnbest by lia.
    assert (bestOf dm c DIRECTIONS = bestOf dm n DIRECTIONS + 1) as Hcbest by lia.
    destruct (IH _ _ n Hn) as (psn & Hpsn & _ & Hcomplete); [lia|].
    destruct (Hcomplete rest Hrest) as (pn & Hpn & Hpos); [lia|].
    simpl in Hps. rewrite Hgd, decide_False in Hps by lia.
    match type of Hps with
    | context [mapM ?f _] =>
        destruct (mapM f (goodOf dm c DIRECTIONS)) as [routes| |] eqn:Hroutes
    end; simpl in Hps; [|done|done].
    injection Hps as <-. apply mapM_Ok_inv in Hroutes.
    assert (d ∈ goodOf dm c DIRECTIONS) as Hgoodd.
    { apply list_elem_of_filter. split; [|done]. rewrite Hcand. f_equal. lia. }
    apply list_elem_of_lookup in Hgoodd as [i Hi].
    destruct (Forall2_lookup_l _ _ _ _ _ Hroutes Hi) as (r & Hr & Hrd).
    rewrite Hnb, Hpsn in Hrd. simpl in Hrd. injection Hrd as <-.
    exists (Revised.Path (c :: Revised.cells pn) None). split.
    + apply elem_of_concat. eexists. split; [by eapply list_elem_of_lookup_2|].
      by apply (list_elem_of_fmap_2
                  (fun one => Revised.Path (c :: Revised.cells one) None)).
    + cbn [Revised.cells]. rewrite fmap_cons, Hpos. unfold positionOf.
      by rewrite Hx, Hy.
Qed.

Lemma getGoodPathsFromStartPoints_exact (fuel : nat) (starts : list box) :
  (forall s, s ∈ starts ->
     getBoxAt dm (x s) (y s) = Some s /\ bestOf dm s DIRECTIONS < Z.of_nat fuel) ->
  exists paths,
    Revised.getGoodPathsFromStartPoints fuel dm starts = Ok paths /\
    (forall p, p ∈ paths -> exists s, s ∈ starts /\ goodPathFrom dm s p) /\
    forall s rest,
      s ∈ starts ->
      descending mountainMap (positionOf s) rest = true ->
      Z.of_nat (length rest) = bestOf dm s DIRECTIONS ->
      exists p, p ∈ paths /\ positionOf <$> Revised.cells p = positionOf s :: rest.
Proof.
  intros Hstarts. rewrite getGoodPathsFromStartPoints_concat.
  edestruct (mapM_Ok (fun s => Revised.getGoodPathsFromBox fuel dm (Some s))
    (fun s ps =>
       (forall p, p ∈ ps -> goodPathFrom dm s p) /\
       forall rest,
         descending mountainMap (positionOf s) rest = true ->
         Z.of_nat (length rest) = bestOf dm s DIRECTIONS ->
         exists p, p ∈ ps /\ positionOf <$> Revised.cells p = positionOf s :: rest)
    starts) as (pss & Hpss & Hall).
  { intros s Hs. destruct (Hstarts s Hs) as [Hat Hfuel].
    destruct (getGoodPathsFromBox_exact fuel _ _ s Hat Hfuel) as (ps & ? & ? & ?).
    eauto. }
  rewrite Hpss. simpl. eexists. split; [done|]. split.
  - intros p Hp. apply elem_of_concat in Hp as (ps & Hps & Hp).
    apply list_elem_of_lookup in Hps as [i Hi].
    destruct (Forall2_lookup_r _ _ _ _ _ Hall Hi) as (s & Hs & Hgood & _).
    exists s. split; [by eapply list_elem_of_lookup_2|]. by apply Hgood.
  - intros s rest Hs Hroute Hlen. apply list_elem_of_lookup in Hs as [i Hi].
    destruct (Forall2_lookup_l _ _ _ _ _ Hall Hi) as (ps & Hps & _ & Hcomplete).
    destruct (Hcomplete rest Hroute Hlen) as (p & Hp & Hpos).
    exists p. split; [|done]. apply elem_of_concat. exists ps.
    split; [by eapply list_elem_of_lookup_2|done].
Qed.
End Exact.

Lemma getGoodPathsFromBox_ends_unset (fuel : nat) (dm : dataMap) :
  forall b ps,
    Revised.getGoodPathsFromBox fuel dm b = Ok ps ->
    forall p, p ∈ ps ->
      exists e, last (Revised.cells p) = Some e /\ goodDirections e = None.
Proof.
  induction fuel as [|fuel IH]; intros b ps Hps p Hp; [done|].
  simpl in Hps. destruct b as [this|]; [|done].
  destruct (goodDirections this) as [gds|] eqn:Hgds.
  2:{ injection Hps as <-. apply list_elem_of_singleton in Hp as ->. by exists this. }
  match type of Hps with
  | context [mapM ?f gds] => destruct (mapM f gds) as [routes| |] eqn:Hroutes
  end; simpl in Hps; [|done|done].
  injection Hps as <-. apply mapM_Ok_inv in Hroutes.
  apply elem_of_concat in Hp as (r & Hr & Hp).
  apply list_elem_of_lookup in Hr as [i Hi].
  destruct (Forall2_lookup_r _ _ _ _ _ Hroutes Hi) as (d & _ & Hd).
  destruct (Revised.getGoodPathsFromBox fuel dm (getNeighbourInDirection dm this d))
    as [psn| |] eqn:Hpsn; simpl in Hd; [|done|done].
  injection Hd as <-. apply list_elem_of_fmap in Hp as (one & -> & Hone).
  destruct (IH _ _ Hpsn one Hone) as (e & He & Hunset).
  exists e. split; [|done]. simpl.
  destruct (Revised.cells one) as [|c cs]; [done|]. by rewrite last_cons_cons.
Qed.

Lemma getGoodPathsFromStartPoints_ends_unset (fuel : nat) (dm : dataMap)
    (starts : list box) (paths : list Revised.path) :
  Revised.getGoodPathsFromStartPoints fuel dm starts = Ok paths ->
  forall p, p ∈ paths ->
    exists e, last (Revised.cells p) = Some e /\ goodDirections e = None.
Proof.
  rewrite getGoodPathsFromStartPoints_concat.
  destruct (mapM (fun s => Revised.getGoodPathsFromBox fuel dm (Some s)) starts)
    as [pss| |] eqn:Hpss; simpl; [|done|done].
  intros [= <-] p Hp. apply mapM_Ok_inv in Hpss.
  apply elem_of_concat in Hp as (ps & Hps & Hp).
  apply list_elem_of_lookup in Hps as [i Hi].
  destruct (Forall2_lookup_r _ _ _ _ _ Hpss Hi) as (s & _ & Hs).
  by eapply getGoodPathsFromBox_ends_unset.
Qed.

Lemma descentOf_routeDrop (mountainMap : list (list Z)) (dm : dataMap)
    (c : box) (cs : list box) :
  solvedFor mountainMap dm -> skiable dm (c :: cs) = true ->
  descentOf (c :: cs) = routeDrop mountainMap (positionOf c) (positionOf <$> cs).
Proof.
  intros Hsolved Hski. unfold descentOf, routeDrop.
  change (positionOf c :: (positionOf <$> cs)) with (positionOf <$> c :: cs).
  rewrite fmap_last.
  destruct (last_is_Some (c :: cs)) as [_ [e He]]; [done|]. rewrite He. simpl.
  pose proof (skiable_cells dm _ c Hski ltac:(by left)) as Hc.
  assert (e ∈ c :: cs) as Hin.
  { apply last_Some in He as [l' ->]. rewrite elem_of_app, list_elem_of_singleton.
    by right. }
  pose proof (skiable_cells dm _ e Hski Hin) as Hat.
  destruct (solved_cell _ _ Hsolved _ _ _ Hc) as (_ & _ & -> & _).
  by destruct (solved_cell _ _ Hsolved _ _ _ Hat) as (_ & _ & -> & _).
Qed.

(** On a grid with at least one cell: the greatest distance bounds every
    descending route, and with enough fuel the enumerator returns the good
    paths from the best start points, among them one for every descending
    route with that many edges. *)
Lemma enumerate_exact (mountainMap : list (list Z)) (dm : dataMap) (fuel : nat) :
  solvedFor mountainMap dm -> concat mountainMap <> [] ->
  exists best,
    gridMaximum dm best /\
    (forall start rest, descending mountainMap start rest = true ->
                        Z.of_nat (length rest) <= best) /\
    (best < Z.of_nat fuel ->
     exists paths,
       Revised.getGoodPathsFromStartPoints fuel dm (findBestStartPoints dm) = Ok paths /\
       paths <> [] /\
       (forall p, p ∈ paths ->
          exists s, s ∈ flatten dm /\ maxDistance s = Some best /\ goodPathFrom dm s p) /\
       forall start rest,
         descending mountainMap start rest = true ->
         Z.of_nat (length rest) = best ->
         exists p, p ∈ paths /\ positionOf <$> Revised.cells p = start :: rest).
Proof.
  intros Hsolved Hcells.
  destruct (enumerate_best mountainMap dm fuel Hsolved Hcells)
    as (best & Hmax & Hstarts & Hne & Hpaths).
  exists best. split; [done|].
  assert (Hbound : forall start rest c,
            descending mountainMap start rest = true ->
            getBoxAt dm start.1 start.2 = Some c ->
            Z.of_nat (length rest) <= bestOf dm c DIRECTIONS /\
            bestOf dm c DIRECTIONS <= best).
  { intros [cx cy] rest c Hroute Hc. simpl in Hc. split.
    - by apply (route_bound _ _ Hsolved rest cx cy).
    - destruct (solved_cell _ _ Hsolved _ _ _ Hc) as (_ & _ & _ & Hmd & _).
      destruct Hmax as [_ Hup]. eapply Hup; [|done]. apply elem_of_flatten. eauto. }
  assert (Hcell : forall start rest,
            descending mountainMap start rest = true ->
            exists c, getBoxAt dm start.1 start.2 = Some c).
  { intros start rest Hroute.
    destruct (descending_on_grid _ _ _ Hroute) as [elev He].
    destruct (solved_lookup _ _ Hsolved _ _ _ He) as (c & Hc & _). eauto. }
  split.
  { intros start rest Hroute. destruct (Hcell _ _ Hroute) as [c Hc].
    destruct (Hbound _ _ c Hroute Hc). lia. }
  intros Hfuel. destruct (Hpaths Hfuel) as (paths & Hget & Hsome & Hgood).
  exists paths. do 3 (split; [done|]).
  intros start rest Hroute Hlen.
  destruct (getGoodPathsFromStartPoints_exact _ _ Hsolved fuel (findBestStartPoints dm))
    as (paths' & Hget' & _ & Hcomplete).
  { intros s Hs. rewrite Hstarts in Hs. apply list_elem_of_filter in Hs as [Hmd Hs].
    apply elem_of_flatten in Hs as (cx & cy & Hat).
    destruct (solved_cell _ _ Hsolved _ _ _ Hat) as (_ & _ & _ & Hmd' & _).
    split; [by eapply solved_deref|]. rewrite Hmd' in Hmd. injection Hmd as ->. done. }
  rewrite Hget in Hget'. injection Hget' as <-.
  destruct (Hcell _ _ Hroute) as [c Hc]. destruct (Hbound _ _ c Hroute Hc).
  destruct (solved_cell _ _ Hsolved _ _ _ Hc) as (Hx & Hy & _ & Hmd & _).
  assert (positionOf c = start) as Hpos.
  { unfold positionOf. rewrite Hx, Hy. by destruct start. }
  rewrite <- Hpos in Hroute |- *. apply Hcomplete; [|done|lia].
  rewrite Hstarts. apply list_elem_of_filter. split.
  - rewrite Hmd. f_equal. lia.
  - apply elem_of_flatten. eauto.
Qed.

(** X11.  Every path the enumerator returns ends in a pit: its last cell
    has distance 0 and no good directions, and none of its neighbours is
    strictly lower. *)
Theorem paths_end_in_pits (mountainMap : list (list Z)) (fuel : nat) :
  concat mountainMap <> [] ->
  exists dm best,
    solve mountainMap = Ok dm /\ gridMaximum dm best /\
    (best < Z.of_nat fuel ->
     exists paths,
       Revised.getGoodPathsFromStartPoints fuel dm (findBestStartPoints dm) = Ok paths /\
       forall p, p ∈ paths ->
         exists e, last (Revised.cells p) = Some e /\
                   maxDistance e = Some 0 /\ goodDirections e = None /\
                   forall d n, d ∈ DIRECTIONS ->
                               getNeighbourInDirection dm e d = Some n ->
                               elevation e <= elevation n).
Proof.
  intros Hcells. destruct (solve_solved mountainMap) as (dm & Hrun & Hsolved).
  destruct (enumerate_best mountainMap dm fuel Hsolved Hcells)
    as (best & Hmax & _ & _ & Hpaths).
  exists dm, best. do 2 (split; [done|]). intros Hfuel.
  destruct (Hpaths Hfuel) as (paths & Hget & _ & Hgood).
  exists paths. split; [done|]. intros p Hp.
  destruct (getGoodPathsFromStartPoints_ends_unset _ _ _ _ Hget p Hp) as (e & He & Hunset).
  destruct (Hgood p Hp) as (s & _ & _ & rest & _ & _ & Hski & _).
  assert (e ∈ Revised.cells p) as Hin.
  { apply last_Some in He as [l' ->]. rewrite elem_of_app, list_elem_of_singleton.
    by right. }
  pose proof (skiable_cells dm _ e Hski Hin) as Hat.
  destruct (solved_cell _ _ Hsolved _ _ _ Hat) as (_ & _ & _ & Hmd & Hgd).
  rewrite Hunset in Hgd. case_decide as Hzero; [|done].
  exists e. split; [done|]. split; [by rewrite Hmd, Hzero|]. split; [done|].
  intros d n Hd Hn. destruct (decide (elevation e <= elevation n)) as [|Hlow]; [done|].
  exfalso. pose proof Hn as Hn'. unfold getNeighbourInDirection in Hn'.
  destruct (solved_cell _ _ Hsolved _ _ _ Hn') as (_ & _ & _ & Hnmd & _).
  assert (candidate dm e d = Some (bestOf dm n DIRECTIONS + 1)) as Hcand
    by (eapply candidate_intro; [done|lia|done]).
  pose proof (bestOf_upper dm e DIRECTIONS d _ Hd Hcand).
  pose proof (bestOf_nonneg dm n DIRECTIONS). lia.
Qed.

(** X12.  The enumerator finds all the longest descents and only them: the
    greatest distance of the solved grid bounds the number of edges of
    every descending route, and the paths returned from the best start
    points are, position by position, exactly the descending routes of
    the grid with that many edges. *)
Theorem enumerator_lists_the_longest_routes (mountainMap : list (list Z)) (fuel : nat) :
  concat mountainMap <> [] ->
  exists dm best,
    solve mountainMap = Ok dm /\ gridMaximum dm best /\
    (forall start rest, descending mountainMap start rest = true ->
                        Z.of_nat (length rest) <= best) /\
    (best < Z.of_nat fuel ->
     exists paths,
       Revised.getGoodPathsFromStartPoints fuel dm (findBestStartPoints dm) = Ok paths /\
       forall start rest,
         (exists p, p ∈ paths /\ positionOf <$> Revised.cells p = start :: rest) <->
         descending mountainMap start rest = true /\ Z.of_nat (length rest) = best).
Proof.
  intros Hcells. destruct (solve_solved mountainMap) as (dm & Hrun & Hsolved).
  destruct (enumerate_exact mountainMap dm fuel Hsolved Hcells)
    as (best & Hmax & Hbound & Hpaths).
  exists dm, best. do 3 (split; [done|]). intros Hfuel.
  destruct (Hpaths Hfuel) as (paths & Hget & _ & Hgood & Hcomplete).
  exists paths. split; [done|]. intros start rest. split.
  - intros (p & Hp & Hpos).
    destruct (Hgood p Hp) as (s & Hs & Hmd & cs & Hcells' & Hlen & Hski & _).
    rewrite Hcells' in Hpos, Hski. rewrite fmap_cons in Hpos.
    injection Hpos as <- <-. split.
    + by apply (skiable_descending _ _ Hsolved).
    + rewrite length_fmap, Hlen.
      apply elem_of_flatten in Hs as (cx & cy & Hat).
      destruct (solved_cell _ _ Hsolved _ _ _ Hat) as (_ & _ & _ & Hmd' & _).
      rewrite Hmd' in Hmd. by injection Hmd.
  - intros [Hroute Hlen]. by apply Hcomplete.
Qed.

Lemma solved_safe (mountainMap : list (list Z)) (dm : dataMap)
    (cx cy : Z) (c : box) :
  solvedFor mountainMap dm -> safeGrid mountainMap ->
  getBoxAt dm cx cy = Some c -> safeElevation (elevation c).
Proof.
  intros Hsolved Hsafe Hc.
  destruct (solved_cell _ _ Hsolved _ _ _ Hc) as (_ & _ & He & _).
  unfold elevationAt in He. apply bind_Some in He as (row & Hrow & He).
  apply at_index_Some in Hrow as [_ Hrow]. apply at_index_Some in He as [_ He].
  unfold safeGrid in Hsafe. rewrite Forall_lookup in Hsafe.
  specialize (Hsafe _ _ Hrow). rewrite Forall_lookup in Hsafe. by eapply Hsafe.
Qed.

Lemma skiable_exact (mountainMap : list (list Z)) (dm : dataMap) (cs : list box) :
  solvedFor mountainMap dm -> safeGrid mountainMap ->
  skiable dm cs = true -> exactInteger (descentOf cs).
Proof.
  intros Hsolved Hsafe Hski. apply descentOf_exact, Forall_forall. intros c Hc.
  eapply solved_safe; [done|done|]. by eapply skiable_cells.
Qed.

Lemma longest_route_exists (mountainMap : list (list Z)) (dm : dataMap) (best : Z) :
  solvedFor mountainMap dm -> gridMaximum dm best ->
  exists start rest,
    descending mountainMap start rest = true /\ Z.of_nat (length rest) = best.
Proof.
  intros Hsolved [(c & Hc & Hmd) _].
  apply elem_of_flatten in Hc as (cx & cy & Hat).
  destruct (solved_cell _ _ Hsolved _ _ _ Hat) as (_ & _ & _ & Hmd' & _).
  rewrite Hmd' in Hmd. injection Hmd as Hbest.
  pose proof (bestOf_nonneg dm c DIRECTIONS) as Hpos.
  destruct (route_exists _ _ Hsolved (Z.to_nat best) cx cy c Hat) as (rest & Hroute & Hlen);
    [lia|].
  exists (cx, cy), rest. split; [done|]. lia.
Qed.

(** X13.  What the revised program returns, from the grid alone.  On a
    grid with at least one cell and with elevations within 2^52 of zero
    (so that the drops are integers the subtraction of doubles computes
    without rounding), with [best] the greatest number of edges of a
    descending route of the grid, [processMap] returns a non-empty list of
    paths that are, position by position, exactly the descending routes
    with [best] edges whose drop in elevation is the greatest among such
    routes; each returned path carries that drop as its steepness, and the
    drop is within 2^53. *)
Theorem processMap_returns_the_steepest_longest_routes
    (mountainMap : list (list Z)) (fuel : nat) :
  concat mountainMap <> [] ->
  safeGrid mountainMap ->
  exists best,
    (exists start rest, descending mountainMap start rest = true /\
                        Z.of_nat (length rest) = best) /\
    (forall start rest, descending mountainMap start rest = true ->
                        Z.of_nat (length rest) <= best) /\
    (best < Z.of_nat fuel ->
     exists steepestPaths greatest,
       Revised.processMap fuel mountainMap = Ok steepestPaths /\
       steepestPaths <> [] /\
       exactInteger greatest /\
       (forall start rest,
          descending mountainMap start rest = true ->
          Z.of_nat (length rest) = best ->
          routeDrop mountainMap start rest <= greatest) /\
       (forall p, p ∈ steepestPaths ->
          Revised.steepness p = Some greatest /\
          Z.of_nat (length (Revised.cells p)) = best + 1) /\
       forall start rest,
         (exists p, p ∈ steepestPaths /\
                    positionOf <$> Revised.cells p = start :: rest) <->
         descending mountainMap start rest = true /\
         Z.of_nat (length rest) = best /\
         routeDrop mountainMap start rest = greatest).
Proof.
  intros Hcells Hsafe. destruct (solve_solved mountainMap) as (dm & Hrun & Hsolved).
  destruct (enumerate_exact mountainMap dm fuel Hsolved Hcells)
    as (best & Hmax & Hbound & Hpaths).
  exists best. split; [by apply (longest_route_exists _ dm)|].
  split; [done|]. intros Hfuel.
  destruct (Hpaths Hfuel) as (paths & Hget & Hsome & Hgood & Hcomplete).
  assert (Hroute : forall q, q ∈ paths ->
            exists s cs, Revised.cells q = s :: cs /\
              descending mountainMap (positionOf s) (positionOf <$> cs) = true /\
              Z.of_nat (length cs) = best /\
              descentOf (Revised.cells q) =
                routeDrop mountainMap (positionOf s) (positionOf <$> cs)).
  { intros q Hq. destruct (Hgood q Hq) as (s & Hs & Hmd & cs & Hq' & Hlen & Hski & _).
    exists s, cs. rewrite Hq' in Hski |- *. split; [done|].
    split; [by apply (skiable_descending _ _ Hsolved)|]. split.
    - rewrite Hlen. apply elem_of_flatten in Hs as (cx & cy & Hat).
      destruct (solved_cell _ _ Hsolved _ _ _ Hat) as (_ & _ & _ & Hmd' & _).
      rewrite Hmd' in Hmd. by injection Hmd.
    - by apply (descentOf_routeDrop _ dm). }
  assert (Hfull : Forall (fun p => Revised.cells p <> []) paths).
  { apply Forall_forall. intros q Hq Hnil.
    destruct (Hroute q Hq) as (s & cs & Hq' & _). by rewrite Hq' in Hnil. }
  destruct (js_max_spec ((fun p => descentOf (Revised.cells p)) <$> paths))
    as [[Hnil _]|(g & Hg & Hin & Hup)].
  { by apply fmap_nil_inv in Hnil. }
  pose proof (select_revised paths g Hfull Hg) as Hsel.
  eexists _, g. unfold Revised.processMap. rewrite Hrun. simpl. rewrite Hget. simpl.
  split; [exact Hsel|].
  assert (Hdrop : forall start rest,
            descending mountainMap start rest = true ->
            Z.of_nat (length rest) = best ->
            exists q, q ∈ paths /\ positionOf <$> Revised.cells q = start :: rest /\
                      descentOf (Revised.cells q) = routeDrop mountainMap start rest).
  { intros start rest Hdesc Hlen.
    destruct (Hcomplete start rest Hdesc Hlen) as (q & Hq & Hpos).
    exists q. do 2 (split; [done|]).
    destruct (Hroute q Hq) as (s & cs & Hq' & _ & _ & ->).
    rewrite Hq', fmap_cons in Hpos. by injection Hpos as -> ->. }
  split.
  { apply list_elem_of_fmap in Hin as (p0 & Hp0 & Hin0).
    intros Hnil. apply fmap_nil_inv in Hnil.
    by eapply (filter_nil_not_elem_of _ _ p0). }
  split.
  { apply list_elem_of_fmap in Hin as (p0 & -> & Hin0).
    destruct (Hgood p0 Hin0) as (s & _ & _ & rest & _ & _ & Hski & _).
    by apply (skiable_exact mountainMap dm). }
  split.
  { intros start rest Hdesc Hlen.
    destruct (Hdrop start rest Hdesc Hlen) as (q & Hq & _ & <-).
    apply Hup, list_elem_of_fmap. by exists q. }
  split.
  { intros p Hp. apply list_elem_of_fmap in Hp as (q & -> & Hq).
    apply list_elem_of_filter in Hq as [_ Hq]. split; [done|]. simpl.
    destruct (Hroute q Hq) as (s & cs & -> & _ & Hlen & _). simpl. lia. }
  intros start rest. split.
  - intros (p & Hp & Hpos). apply list_elem_of_fmap in Hp as (q & -> & Hq).
    apply list_elem_of_filter in Hq as [Hdescent Hq]. simpl in Hpos.
    destruct (Hroute q Hq) as (s & cs & Hq' & Hdesc & Hlen & Hsame).
    rewrite Hq', fmap_cons in Hpos. injection Hpos as <- <-.
    split; [done|]. split; [by rewrite length_fmap|]. by rewrite <- Hsame.
  - intros (Hdesc & Hlen & Hgreatest).
    destruct (Hdrop start rest Hdesc Hlen) as (q & Hq & Hpos & Hsame).
    exists (Revised.Path (Revised.cells q) (Some g)). split; [|done].
    apply list_elem_of_fmap. exists q. split; [done|].
    apply list_elem_of_filter. split; [congruence|done].
Qed.

Lemma grid2x2_maximum (dm : dataMap) (best : Z) :
  solve grid2x2 = Ok dm -> gridMaximum dm best -> best = 2.
Proof.
  intros Hrun Hmax. vm_compute in Hrun. injection Hrun as <-.
  eapply gridMaximum_unique; [exact Hmax|]. split.
  - exists (Box 0 0 4 (Some 2) (Some [(0, 1); (1, 0)])).
    split; [|reflexivity]. apply list_elem_of_In. simpl. tauto.
  - intros c k Hc. apply list_elem_of_In in Hc. simpl in Hc.
    intros Hk. destruct Hc as [<-|[<-|[<-|[<-|[]]]]]; injection Hk as <-; lia.
Qed.

Lemma grid2x2_routes (start : position) (rest : list position) :
  descending grid2x2 start rest = true -> Z.of_nat (length rest) <= 2.
Proof.
  intros Hroute. destruct (solve_solved grid2x2) as (dm & Hrun & Hsolved).
  destruct (enumerate_exact grid2x2 dm 0 Hsolved ltac:(discriminate))
    as (best & Hmax & Hbound & _).
  rewrite <- (grid2x2_maximum dm best Hrun Hmax). by apply (Hbound start).
Qed.

Lemma paths_end_in_pits_witness :
  exists dm paths,
    solve grid2x2 = Ok dm /\
    Revised.getGoodPathsFromStartPoints 3 dm (findBestStartPoints dm) = Ok paths /\
    forall p, p ∈ paths ->
      exists e, last (Revised.cells p) = Some e /\ maxDistance e = Some 0.
Proof.
  destruct (paths_end_in_pits grid2x2 3) as (dm & best & Hrun & Hmax & Hpaths);
    [discriminate|].
  destruct Hpaths as (paths & Hget & Hpits).
  { rewrite (grid2x2_maximum dm best Hrun Hmax). lia. }
  exists dm, paths. do 2 (split; [done|]). intros p Hp.
  destruct (Hpits p Hp) as (e & He & Hzero & _). by exists e.
Defined.

Lemma enumerator_lists_the_longest_routes_witness :
  exists dm paths,
    solve grid2x2 = Ok dm /\
    Revised.getGoodPathsFromStartPoints 3 dm (findBestStartPoints dm) = Ok paths /\
    exists p, p ∈ paths /\ positionOf <$> Revised.cells p = [(0, 0); (1, 0); (1, 1)].
Proof.
  destruct (enumerator_lists_the_longest_routes grid2x2 3)
    as (dm & best & Hrun & Hmax & _ & Hpaths); [discriminate|].
  pose proof (grid2x2_maximum dm best Hrun Hmax) as ->.
  destruct Hpaths as (paths & Hget & Hexact); [lia|].
  exists dm, paths. do 2 (split; [done|]).
  apply Hexact. split; reflexivity.
Defined.

Lemma processMap_returns_the_steepest_longest_routes_witness :
  exists steepestPaths,
    Revised.processMap 3 grid2x2 = Ok steepestPaths /\
    exists p, p ∈ steepestPaths /\
              positionOf <$> Revised.cells p = [(0, 0); (0, 1); (1, 1)] /\
              Revised.steepness p = Some 3.
Proof.
  destruct (processMap_returns_the_steepest_longest_routes grid2x2 3)
    as (best & (start & rest & Hroute & Hlen) & Hbound & Hpaths);
    [discriminate|repeat constructor; discriminate|].
  pose proof (grid2x2_routes start rest Hroute) as Hle.
  pose proof (Hbound (0, 0) [(1, 0); (1, 1)] eq_refl) as Hge. simpl in Hge.
  assert (best = 2) as -> by lia.
  destruct Hpaths as (out & greatest & Hrun & _ & _ & Hdrop & Hsteep & Hexact); [lia|].
  exists out. split; [done|].
  vm_compute in Hrun. injection Hrun as <-.
  assert (greatest = 3) as ->.
  { destruct (Hsteep _ ltac:(by left)) as [Hs _]. by injection Hs. }
  destruct (proj2 (Hexact (0, 0) [(0, 1); (1, 1)])) as (p & Hp & Hpos).
  { repeat split; reflexivity. }
  exists p. do 2 (split; [done|]). by destruct (Hsteep p Hp).
Defined.

(** ** The steepness selector on any list of paths *)

Lemma filter_all {A : Type} (P : A -> Prop) `{forall a, Decision (P a)} (l : list A) :
  (forall a, a ∈ l -> P a) -> filter P l = l.
Proof.
  induction l as [|a l IH]; intros Hl; [done|].
  rewrite filter_cons_True by (apply Hl; by left).
  f_equal. apply IH. intros a' Ha'. apply Hl. by right.
Qed.

Lemma mapM_addSteepness_throws (paths : list Revised.path) :
  (exists p, p ∈ paths /\ Revised.cells p = []) ->
  mapM Revised.addSteepness paths = Throw TypeError.
Proof.
  induction paths as [|q paths IH]; intros (p & Hp & Hnil).
  { by apply elem_of_nil in Hp. }
  simpl. destruct (Revised.cells q) as [|c cs] eqn:Hq.
  { unfold Revised.addSteepness. by rewrite Hq. }
  rewrite addSteepness_Ok by (by rewrite Hq). simpl.
  apply elem_of_cons in Hp as [->|Hp]; [congruence|].
  rewrite IH by eauto. done.
Qed.

Lemma select_Ok_cells (paths out : list Revised.path) :
  Revised.selectPathsWithGreatestSteepness paths = Ok out ->
  Forall (fun p => Revised.cells p <> []) paths.
Proof.
  intros Hsel. apply Forall_forall. intros p Hp Hnil.
  unfold Revised.selectPathsWithGreatestSteepness in Hsel.
  rewrite mapM_addSteepness_throws in Hsel by eauto. done.
Qed.

(** X14.  The selector throws exactly when one of the paths has no cell
    (its [path[0]] is [undefined]); on every other list it returns. *)
Theorem selectPathsWithGreatestSteepness_throws (paths : list Revised.path) :
  ((exists p, p ∈ paths /\ Revised.cells p = []) <->
   Revised.selectPathsWithGreatestSteepness paths = Throw TypeError) /\
  ((forall p, p ∈ paths -> Revised.cells p <> []) <->
   exists out, Revised.selectPathsWithGreatestSteepness paths = Ok out).
Proof.
  destruct (decide (Forall (fun p => Revised.cells p <> []) paths)) as [Hfull|Hsome].
  - assert (exists out, Revised.selectPathsWithGreatestSteepness paths = Ok out)
      as [out Hout].
    { unfold Revised.selectPathsWithGreatestSteepness.
      rewrite mapM_addSteepness by done. simpl. by eexists. }
    rewrite Forall_forall in Hfull. split; split.
    + intros (p & Hp & Hnil). by destruct (Hfull p Hp).
    + by rewrite Hout.
    + by exists out.
    + done.
  - apply not_Forall_Exists in Hsome; [|intros p; apply _].
    apply Exists_exists in Hsome as (p & Hp & Hnil).
    assert (Revised.cells p = []) as Hnil'.
    { simpl in Hnil. destruct (Revised.cells p); [done|]. by destruct Hnil. }
    assert (Revised.selectPathsWithGreatestSteepness paths = Throw TypeError) as Hthrow.
    { unfold Revised.selectPathsWithGreatestSteepness.
      rewrite mapM_addSteepness_throws by eauto. done. }
    split; split.
    + done.
    + eauto.
    + intros Hfull. by destruct (Hfull p Hp).
    + intros [out Hout]. by rewrite Hout in Hthrow.
Qed.

(** X15.  Selecting twice selects nothing more: the list the selector
    returns is returned unchanged when it is given to the selector again. *)
Theorem selectPathsWithGreatestSteepness_idempotent (paths out : list Revised.path) :
  Revised.selectPathsWithGreatestSteepness paths = Ok out ->
  Revised.selectPathsWithGreatestSteepness out = Ok out.
Proof.
  intros Hsel. pose proof (select_Ok_cells _ _ Hsel) as Hfull.
  destruct (js_max_spec ((fun p => descentOf (Revised.cells p)) <$> paths))
    as [[Hnil _]|(g & Hg & Hin & _)].
  { apply fmap_nil_inv in Hnil. subst paths. vm_compute in Hsel. by injection Hsel as <-. }
  rewrite (select_revised paths g Hfull Hg) in Hsel. injection Hsel as <-.
  set (kept := filter (fun p => descentOf (Revised.cells p) = g) paths).
  set (mark := fun p => Revised.Path (Revised.cells p) (Some g)).
  assert (Hkept : forall p, p ∈ kept ->
            Revised.cells p <> [] /\ descentOf (Revised.cells p) = g).
  { intros p Hp. apply list_elem_of_filter in Hp as [Hdrop Hp].
    rewrite Forall_forall in Hfull. split; [by apply Hfull|done]. }
  assert (Hout : forall q, q ∈ mark <$> kept ->
            Revised.cells q <> [] /\ descentOf (Revised.cells q) = g /\ mark q = q).
  { intros q Hq. apply list_elem_of_fmap in Hq as (p & -> & Hp).
    destruct (Hkept p Hp). done. }
  assert (kept <> []) as Hne.
  { apply list_elem_of_fmap in Hin as (p0 & Hp0 & Hin0). intros Hnil.
    by eapply (filter_nil_not_elem_of _ _ p0). }
  destruct (js_max_spec ((fun p => descentOf (Revised.cells p)) <$> (mark <$> kept)))
    as [[Hnil _]|(g' & Hg' & Hin' & _)].
  { by do 2 apply fmap_nil_inv in Hnil. }
  apply list_elem_of_fmap in Hin' as (q & -> & Hq).
  destruct (Hout q Hq) as (_ & Hdrop & _). rewrite Hdrop in Hg'.
  rewrite (select_revised (mark <$> kept) g); [| |done].
  2:{ apply Forall_forall. intros q' Hq'. by destruct (Hout q' Hq'). }
  f_equal. fold mark.
  rewrite filter_all by (intros q' Hq'; by destruct (Hout q' Hq') as (_ & -> & _)).
  rewrite <- (list_fmap_id (mark <$> kept)) at 2.
  apply Forall_fmap_ext, Forall_forall. intros q' Hq'.
  by destruct (Hout q' Hq') as (_ & _ & ->).
Qed.

Lemma selectPathsWithGreatestSteepness_idempotent_witness :
  exists out,
    Revised.selectPathsWithGreatestSteepness twoDescents = Ok out /\
    Revised.selectPathsWithGreatestSteepness out = Ok out.
Proof.
  eexists. split; [vm_compute; reflexivity|].
  apply (selectPathsWithGreatestSteepness_idempotent twoDescents). vm_compute. reflexivity.
Defined.

(** X16.  On a grid without cells the original program throws: its last
    statement reads [length] of [steepestPaths[0]], and there is no such
    path.  (The revised program returns an empty list there.) *)
Theorem original_processMap_empty (fuel : nat) (mountainMap : list (list Z)) :
  concat mountainMap = [] -> Original.processMap fuel mountainMap = Throw TypeError.
Proof.
  intros Hnil. unfold Original.processMap, solve.
  pose proof (createRows_empty mountainMap 0 Hnil) as Hflat.
  fold (createDataMap mountainMap) in Hflat.
  fold (flatten (createDataMap mountainMap)) in Hflat.
  rewrite Hflat. simpl.
  unfold findBestStartPoints, bestScan. rewrite foldl_rows.
  fold (flatten (createDataMap mountainMap)). rewrite Hflat. done.
Qed.

Lemma original_processMap_empty_witness :
  concat [[]; []] = @nil Z /\ Original.processMap 1 [[]; []] = Throw TypeError.
Proof.
  split; [reflexivity|]. apply (original_processMap_empty 1 [[]; []]). reflexivity.
Defined.

(** ** What is printed for each path *)

Lemma skiable_elevations (dm : dataMap) (cs : list box) :
  skiable dm cs = true ->
  forall i a b, cs !! i = Some a -> cs !! S i = Some b -> elevation b < elevation a.
Proof.
  induction cs as [|c cs IH]; intros Hski i a b Ha Hb; [done|].
  simpl in Hski. rewrite !andb_true_iff in Hski. destruct Hski as [[_ Hstep] Hrest].
  destruct i as [|i]; simpl in Ha, Hb.
  - injection Ha as <-. destruct cs as [|b' cs]; [done|]. simpl in Hb. injection Hb as <-.
    apply andb_true_iff in Hstep as [_ Hlow]. by apply bool_decide_eq_true in Hlow.
  - by apply (IH Hrest i).
Qed.

Lemma skiable_drop (dm : dataMap) (cs : list box) :
  forall c, skiable dm (c :: cs) = true ->
            Z.of_nat (length cs) <= descentOf (c :: cs).
Proof.
  induction cs as [|b cs IH]; intros c Hski.
  - unfold descentOf. simpl. lia.
  - pose proof (skiable_elevations dm _ Hski 0 c b eq_refl eq_refl) as Hlow.
    assert (skiable dm (b :: cs) = true) as Hrest.
    { change (skiable dm (c :: b :: cs)) with
        (bool_decide (getBoxAt dm (x c) (y c) = Some c) &&
         (adjacent (x c, y c) (x b, y b) && bool_decide (elevation b < elevation c)) &&
         skiable dm (b :: cs)) in Hski.
      by apply andb_true_iff in Hski as [_ ?]. }
    specialize (IH b Hrest). unfold descentOf in *.
    rewrite last_cons_cons.
    destruct (last_is_Some (b :: cs)) as [_ [e He]]; [done|]. rewrite He in IH |- *.
    cbn [head length] in IH |- *. lia.
Qed.

(** X17.  What the revised program prints.  For every path it returns on
    a grid with at least one cell and with elevations within 2^52 of zero
    (so that the drop is computed without rounding), the elevations listed
    by [simplifyPath] strictly decrease from one to the next, the length
    printed is the greatest distance plus one, the drop printed is the
    first of these elevations minus the last, and it is at least the
    number of edges of the path and within 2^53. *)
Theorem reported_paths_descend (mountainMap : list (list Z)) (fuel : nat) :
  concat mountainMap <> [] ->
  safeGrid mountainMap ->
  exists dm best,
    solve mountainMap = Ok dm /\ gridMaximum dm best /\
    (best < Z.of_nat fuel ->
     exists steepestPaths,
       Revised.processMap fuel mountainMap = Ok steepestPaths /\
       forall p, p ∈ steepestPaths ->
         (forall i a b, Revised.simplifyPath p !! i = Some a ->
                        Revised.simplifyPath p !! S i = Some b -> b < a) /\
         exists top bottom,
           head (Revised.simplifyPath p) = Some top /\
           last (Revised.simplifyPath p) = Some bottom /\
           Revised.report p =
             (Revised.simplifyPath p, S (Z.to_nat best), Some (top - bottom)) /\
           best <= top - bottom /\
           exactInteger (top - bottom)).
Proof.
  intros Hcells Hsafe. destruct (solve_solved mountainMap) as (dm & Hrun & Hsolved).
  destruct (enumerate_best mountainMap dm fuel Hsolved Hcells)
    as (best & Hmax & _ & _ & Hpaths).
  exists dm, best. do 2 (split; [done|]). intros Hfuel.
  destruct (Hpaths Hfuel) as (paths & Hget & Hsome & Hgood).
  assert (Hshape : forall q, q ∈ paths ->
            exists s rest, Revised.cells q = s :: rest /\
                           Z.of_nat (length rest) = best /\
                           skiable dm (s :: rest) = true).
  { intros q Hq. destruct (Hgood q Hq) as (s & Hs & Hmd & rest & Hq' & Hlen & Hski & _).
    exists s, rest. rewrite Hq' in Hski. split; [done|]. split; [|done].
    rewrite Hlen. apply elem_of_flatten in Hs as (cx & cy & Hat).
    destruct (solved_cell _ _ Hsolved _ _ _ Hat) as (_ & _ & _ & Hmd' & _).
    rewrite Hmd' in Hmd. by injection Hmd. }
  assert (Hfull : Forall (fun p => Revised.cells p <> []) paths).
  { apply Forall_forall. intros q Hq Hnil.
    destruct (Hshape q Hq) as (s & rest & Hq' & _). by rewrite Hq' in Hnil. }
  destruct (js_max_spec ((fun p => descentOf (Revised.cells p)) <$> paths))
    as [[Hnil _]|(g & Hg & _)].
  { by apply fmap_nil_inv in Hnil. }
  eexists. unfold Revised.processMap. rewrite Hrun. simpl. rewrite Hget. simpl.
  split; [exact (select_revised paths g Hfull Hg)|].
  intros p Hp. apply list_elem_of_fmap in Hp as (q & -> & Hq).
  apply list_elem_of_filter in Hq as [Hdrop Hq].
  destruct (Hshape q Hq) as (s & rest & Hq' & Hlen & Hski).
  unfold Revised.report, Revised.simplifyPath. simpl. rewrite Hq' in Hdrop |- *. split.
  - intros i a b Ha Hb. rewrite list_lookup_fmap in Ha, Hb.
    destruct ((s :: rest) !! i) as [ca|] eqn:Hca; [|done].
    destruct ((s :: rest) !! S i) as [cb|] eqn:Hcb; [|done].
    injection Ha as <-. injection Hb as <-. by eapply skiable_elevations.
  - destruct (last_is_Some (s :: rest)) as [_ [e He]]; [done|].
    exists (elevation s), (elevation e). split; [done|].
    split; [by rewrite fmap_last, He|].
    pose proof (skiable_drop dm rest s Hski) as Hlow.
    pose proof (skiable_exact mountainMap dm _ Hsolved Hsafe Hski) as Hexact.
    unfold descentOf in Hdrop, Hlow, Hexact. rewrite He in Hdrop, Hlow, Hexact.
    simpl in Hdrop, Hlow, Hexact.
    split; [|split; [lia|done]]. rewrite <- Hdrop. do 2 f_equal. simpl. lia.
Qed.

Lemma reported_paths_descend_witness :
  exists steepestPaths,
    Revised.processMap 3 grid2x2 = Ok steepestPaths /\
    forall p, p ∈ steepestPaths ->
      exists top bottom,
        Revised.report p = (Revised.simplifyPath p, 3%nat, Some (top - bottom)) /\
        2 <= top - bottom.
Proof.
  destruct (reported_paths_descend grid2x2 3)
    as (dm & best & Hrun & Hmax & Hpaths);
    [discriminate|repeat constructor; discriminate|].
  pose proof (grid2x2_maximum dm best Hrun Hmax) as ->.
  destruct Hpaths as (out & Hout & Hreport); [lia|].
  exists out. split; [done|]. intros p Hp.
  destruct (Hreport p Hp) as (_ & top & bottom & _ & _ & Hrep & Hlow & _).
  by exists top, bottom.
Defined.

Lemma revised_paths_are_longest_descents_witness :
  exists dm paths,
    solve grid2x2 = Ok dm /\
    Revised.getGoodPathsFromStartPoints 3 dm (findBestStartPoints dm) = Ok paths /\
    paths <> [] /\
    forall p, p ∈ paths ->
      length (Revised.cells p) = 3%nat /\ skiable dm (Revised.cells p) = true.
Proof.
  destruct (revised_paths_are_longest_descents grid2x2 3)
    as (dm & best & Hrun & Hmax & Hpaths); [discriminate|].
  pose proof (grid2x2_maximum dm best Hrun Hmax) as ->.
  destruct Hpaths as (paths & Hget & Hne & Hall); [lia|].
  exists dm, paths. do 3 (split; [done|]). intros p Hp.
  destruct (Hall p Hp) as [Hlen Hski]. split; [lia|done].
Defined.

Lemma programs_agree_beyond_single_cells_witness :
  exists steepestPaths,
    Revised.processMap 3 grid2x2 = Ok steepestPaths /\
    Original.processMap 3 grid2x2 = Ok (toArr <$> steepestPaths).
Proof.
  destruct (programs_agree_beyond_single_cells grid2x2 3)
    as (dm & best & Hrun & Hmax & Hpaths); [discriminate|].
  pose proof (grid2x2_maximum dm best Hrun Hmax) as ->.
  destruct Hpaths as (out & Hrev & _ & Hsame & _); [lia|].
  exists out. split; [done|]. apply Hsame. lia.
Defined.

(** ** No path is listed twice *)

Lemma NoDup_fmap_filter {A B : Type} (f : A -> B) (P : A -> Prop)
    `{forall a, Decision (P a)} (l : list A) :
  NoDup (f <$> l) -> NoDup (f <$> filter P l).
Proof.
  induction l as [|a l IH]; intros Hdistinct; [constructor|].
  rewrite fmap_cons in Hdistinct. apply NoDup_cons in Hdistinct as [Hfresh Hrest].
  rewrite filter_cons. destruct (decide (P a)); [|by apply IH].
  rewrite fmap_cons. apply NoDup_cons. split; [|by apply IH].
  intros Hin. apply Hfresh. apply list_elem_of_fmap in Hin as (q & Hq & Hin).
  apply list_elem_of_filter in Hin as [_ Hin]. apply list_elem_of_fmap. eauto.
Qed.

Lemma rows_distinct (rows : list (list box)) :
  forall j0 : nat,
    (forall j row i c, rows !! j = Some row -> row !! i = Some c ->
                       x c = Z.of_nat i /\ y c = Z.of_nat (j0 + j)) ->
    NoDup (concat rows).
Proof.
  induction rows as [|row rows IH]; intros j0 Hplaced; simpl; [constructor|].
  apply NoDup_app. split; [|split].
  - apply NoDup_alt. intros i i' c Hi Hi'.
    destruct (Hplaced 0%nat row i c eq_refl Hi) as [Hx _].
    destruct (Hplaced 0%nat row i' c eq_refl Hi') as [Hx' _]. lia.
  - intros c Hc Hc'. apply list_elem_of_lookup in Hc as [i Hi].
    apply elem_of_concat in Hc' as (row' & Hrow' & Hc').
    apply list_elem_of_lookup in Hrow' as [j Hj]. apply list_elem_of_lookup in Hc' as [i' Hi'].
    destruct (Hplaced 0%nat row i c eq_refl Hi) as [_ Hy].
    destruct (Hplaced (S j) row' i' c Hj Hi') as [_ Hy']. lia.
  - apply (IH (S j0)). intros j row' i c Hj Hi.
    destruct (Hplaced (S j) row' i c Hj Hi) as [Hx Hy]. split; [done|]. lia.
Qed.

Lemma flatten_distinct (dm : dataMap) : wellPlaced dm -> NoDup (flatten dm).
Proof.
  intros Hplaced. apply (rows_distinct dm 0). intros j row i c Hj Hi.
  apply Hplaced, getBoxAt_Some. rewrite !Nat2Z.id. repeat split; try lia. eauto.
Qed.

Lemma getGoodPathsFromBox_head (fuel : nat) (dm : dataMap) (c : box)
    (ps : list Revised.path) :
  Revised.getGoodPathsFromBox fuel dm (Some c) = Ok ps ->
  forall p, p ∈ ps -> exists rest, Revised.cells p = c :: rest.
Proof.
  destruct fuel as [|fuel]; [done|]. simpl.
  destruct (goodDirections c) as [gds|].
  2:{ intros [= <-] p Hp. apply list_elem_of_singleton in Hp as ->. by exists []. }
  match goal with
  | |- context [mapM ?f gds] => destruct (mapM f gds) as [routes| |] eqn:Hroutes
  end; simpl; [|done|done].
  intros [= <-] p Hp. apply mapM_Ok_inv in Hroutes.
  apply elem_of_concat in Hp as (r & Hr & Hp).
  apply list_elem_of_lookup in Hr as [i Hi].
  destruct (Forall2_lookup_r _ _ _ _ _ Hroutes Hi) as (d & _ & Hd).
  destruct (Revised.getGoodPathsFromBox fuel dm (getNeighbourInDirection dm c d))
    as [psn| |]; simpl in Hd; [|done|done].
  injection Hd as <-. apply list_elem_of_fmap in Hp as (one & -> & _). by eexists.
Qed.

Section Distinct.
Variables (mountainMap : list (list Z)) (dm : dataMap).
Hypothesis Hsolved : solvedFor mountainMap dm.

Lemma getGoodPathsFromBox_distinct (fuel : nat) :
  forall c ps,
    getBoxAt dm (x c) (y c) = Some c ->
    Revised.getGoodPathsFromBox fuel dm (Some c) = Ok ps ->
    NoDup ((fun p => positionOf <$> Revised.cells p) <$> ps).
Proof.
  induction fuel as [|fuel IH]; intros c ps Hc Hps; [done|].
  simpl in Hps. destruct (goodDirections c) as [gds|] eqn:Hgds.
  2:{ injection Hps as <-. apply NoDup_singleton. }
  match type of Hps with
  | context [mapM ?f gds] => destruct (mapM f gds) as [routes| |] eqn:Hroutes
  end; simpl in Hps; [|done|done].
  injection Hps as <-. apply mapM_Ok_inv in Hroutes.
  assert (NoDup gds) as Hnodup.
  { destruct (solved_cell _ _ Hsolved _ _ _ Hc) as (_ & _ & _ & _ & Hgd).
    rewrite Hgds in Hgd. case_decide; [done|]. injection Hgd as ->.
    apply NoDup_filter. by apply (bool_decide_unpack _). }
  assert (Hnext : forall d, d ∈ gds ->
            exists n, getNeighbourInDirection dm c d = Some n /\
                      getBoxAt dm (x n) (y n) = Some n /\
                      positionOf n = (x c + d.1, y c + d.2)).
  { intros d Hd.
    destruct (solved_goodDirection _ _ Hsolved _ _ _ _ _ Hc Hgds Hd)
      as (_ & n & k & Hn & _).
    exists n. split; [done|]. unfold getNeighbourInDirection in Hn.
    destruct (solved_cell _ _ Hsolved _ _ _ Hn) as (Hx & Hy & _).
    unfold positionOf. rewrite Hx, Hy. done. }
  clear Hgds.
  enough (NoDup ((fun p => positionOf <$> Revised.cells p) <$> concat routes) /\
          forall r, r ∈ (fun p => positionOf <$> Revised.cells p) <$> concat routes ->
                    exists d, d ∈ gds /\ r !! 1%nat = Some (x c + d.1, y c + d.2))
    as [? _]; [done|].
  induction Hroutes as [|d r gds routes Hd _ IHr].
  { split; [constructor|]. intros r Hr. by apply elem_of_nil in Hr. }
  apply NoDup_cons in Hnodup as [Hfresh Hnodup].
  destruct IHr as [Hrest Hsecond]; [done|intros d' Hd'; apply Hnext; by right|].
  destruct (Hnext d) as (n & Hn & Hat & Hpos); [by left|].
  rewrite Hn in Hd.
  destruct (Revised.getGoodPathsFromBox fuel dm (Some n)) as [psn| |] eqn:Hpsn;
    simpl in Hd; [|done|done].
  injection Hd as <-.
  assert (Hhere : forall r,
            r ∈ (fun p => positionOf <$> Revised.cells p) <$>
                ((fun one => Revised.Path (c :: Revised.cells one) None) <$> psn) ->
            r !! 1%nat = Some (x c + d.1, y c + d.2)).
  { intros r Hr. apply list_elem_of_fmap in Hr as (p & -> & Hp).
    apply list_elem_of_fmap in Hp as (one & -> & Hone).
    destruct (getGoodPathsFromBox_head _ _ _ _ Hpsn one Hone) as [rest Hcells].
    simpl. rewrite Hcells. simpl. by rewrite Hpos. }
  simpl. rewrite fmap_app. split.
  - apply NoDup_app. split; [|split; [|done]].
    + assert ((fun p => positionOf <$> Revised.cells p) <$>
                ((fun one => Revised.Path (c :: Revised.cells one) None) <$> psn) =
              cons (positionOf c) <$>
                ((fun p => positionOf <$> Revised.cells p) <$> psn)) as ->.
      { rewrite <- !list_fmap_compose. by apply Forall_fmap_ext, Forall_forall. }
      apply NoDup_fmap_2; [|by apply (IH n)].
      intros l1 l2 Heq. by injection Heq.
    + intros r Hr Hr'. apply Hhere in Hr.
      destruct (Hsecond r Hr') as (d' & Hd' & Hr'').
      rewrite Hr in Hr''. injection Hr'' as H1 H2.
      assert (d = d') as -> by (destruct d, d'; simpl in *; f_equal; lia). done.
  - intros r Hr. apply elem_of_app in Hr as [Hr|Hr].
    + exists d. split; [by left|by apply Hhere].
    + destruct (Hsecond r Hr) as (d' & Hd' & Hr'). exists d'. split; [by right|done].
Qed.

Lemma getGoodPathsFromStartPoints_distinct (fuel : nat) (starts : list box)
    (paths : list Revised.path) :
  NoDup starts ->
  (forall s, s ∈ starts -> getBoxAt dm (x s) (y s) = Some s) ->
  Revised.getGoodPathsFromStartPoints fuel dm starts = Ok paths ->
  NoDup ((fun p => positionOf <$> Revised.cells p) <$> paths).
Proof.
  intros Hnodup Hon. rewrite getGoodPathsFromStartPoints_concat.
  destruct (mapM (fun s => Revised.getGoodPathsFromBox fuel dm (Some s)) starts)
    as [pss| |] eqn:Hpss; simpl; [|done|done].
  intros [= <-]. apply mapM_Ok_inv in Hpss.
  enough (NoDup ((fun p => positionOf <$> Revised.cells p) <$> concat pss) /\
          forall r, r ∈ (fun p => positionOf <$> Revised.cells p) <$> concat pss ->
                    exists s, s ∈ starts /\ head r = Some (positionOf s))
    as [? _]; [done|].
  induction Hpss as [|s ps starts pss Hs _ IHs].
  { split; [constructor|]. intros r Hr. by apply elem_of_nil in Hr. }
  apply NoDup_cons in Hnodup as [Hfresh Hnodup].
  destruct IHs as [Hrest Hheads]; [done|intros s' Hs'; apply Hon; by right|].
  assert (Hhere : forall r,
            r ∈ (fun p => positionOf <$> Revised.cells p) <$> ps ->
            head r = Some (positionOf s)).
  { intros r Hr. apply list_elem_of_fmap in Hr as (p & -> & Hp).
    destruct (getGoodPathsFromBox_head _ _ _ _ Hs p Hp) as [rest ->]. done. }
  simpl. rewrite fmap_app. split.
  - apply NoDup_app. split; [|split; [|done]].
    + apply (getGoodPathsFromBox_distinct fuel s); [|done]. apply Hon. by left.
    + intros r Hr Hr'. apply Hhere in Hr.
      destruct (Hheads r Hr') as (s' & Hs' & Hr'').
      rewrite Hr in Hr''. injection Hr'' as H1 H2.
      pose proof (Hon s ltac:(by left)) as Hat.
      pose proof (Hon s' ltac:(by right)) as Hat'.
      rewrite H1, H2, Hat' in Hat. injection Hat as ->. done.
  - intros r Hr. apply elem_of_app in Hr as [Hr|Hr].
    + exists s. split; [by left|by apply Hhere].
    + destruct (Hheads r Hr) as (s' & Hs' & Hr'). exists s'. split; [by right|done].
Qed.

End Distinct.

(** X18.  No route is listed twice: the paths the enumerator returns from
    the best start points pass through pairwise different sequences of
    positions, and so do the paths [processMap] returns. *)
Theorem no_path_is_listed_twice (mountainMap : list (list Z)) (fuel : nat) :
  concat mountainMap <> [] ->
  exists dm best,
    solve mountainMap = Ok dm /\ gridMaximum dm best /\
    (best < Z.of_nat fuel ->
     exists paths steepestPaths,
       Revised.getGoodPathsFromStartPoints fuel dm (findBestStartPoints dm) = Ok paths /\
       Revised.processMap fuel mountainMap = Ok steepestPaths /\
       NoDup ((fun p => positionOf <$> Revised.cells p) <$> paths) /\
       NoDup ((fun p => positionOf <$> Revised.cells p) <$> steepestPaths)).
Proof.
  intros Hcells. destruct (solve_solved mountainMap) as (dm & Hrun & Hsolved).
  destruct (enumerate_best mountainMap dm fuel Hsolved Hcells)
    as (best & Hmax & Hstarts & _ & Hpaths).
  exists dm, best. do 2 (split; [done|]). intros Hfuel.
  destruct (Hpaths Hfuel) as (paths & Hget & Hsome & Hgood).
  assert (NoDup ((fun p => positionOf <$> Revised.cells p) <$> paths)) as Hdistinct.
  { apply (getGoodPathsFromStartPoints_distinct _ _ Hsolved fuel (findBestStartPoints dm));
      [| |done].
    - rewrite Hstarts. apply NoDup_filter, flatten_distinct. by destruct Hsolved as (_ & ? & _).
    - intros s Hs. rewrite Hstarts in Hs. apply list_elem_of_filter in Hs as [_ Hs].
      apply elem_of_flatten in Hs as (cx & cy & Hat). by eapply solved_deref. }
  assert (Hfull : Forall (fun p => Revised.cells p <> []) paths).
  { apply Forall_forall. intros q Hq Hnil.
    destruct (Hgood q Hq) as (s & _ & _ & rest & Hq' & _). by rewrite Hq' in Hnil. }
  destruct (js_max_spec ((fun p => descentOf (Revised.cells p)) <$> paths))
    as [[Hnil _]|(g & Hg & _)].
  { by apply fmap_nil_inv in Hnil. }
  exists paths. eexists. split; [done|].
  unfold Revised.processMap. rewrite Hrun. simpl. rewrite Hget. simpl.
  split; [exact (select_revised paths g Hfull Hg)|]. split; [done|].
  rewrite <- list_fmap_compose.
  change (_ ∘ _) with (fun p : Revised.path => positionOf <$> Revised.cells p).
  by apply NoDup_fmap_filter.
Qed.

Lemma no_path_is_listed_twice_witness :
  exists steepestPaths,
    Revised.processMap 3 grid2x2 = Ok steepestPaths /\
    NoDup ((fun p => positionOf <$> Revised.cells p) <$> steepestPaths).
Proof.
  destruct (no_path_is_listed_twice grid2x2 3)
    as (dm & best & Hrun & Hmax & Hpaths); [discriminate|].
  pose proof (grid2x2_maximum dm best Hrun Hmax) as ->.
  destruct Hpaths as (paths & out & _ & Hout & _ & Hdistinct); [lia|].
  by exists out.
Defined.
